(** * asciicam: the per-frame pipeline of [main.go], embedded and verified

    The development follows [main.go] function by function:
    [frameToImage] and [frameRGBToImage] (raw buffer to RGBA image),
    [greenscreen] (background subtraction), [pixelToASCII],
    [imageToASCII] and [imageToANSI] (rendering), the FPS window that
    [run] keeps, and the read loop of [run] in GStreamer mode; then
    the size of the output, the loop of [run] in webcam mode, the
    [-gen] block, and the arguments [startGstPipe] gives the child.

    Conventions.  Go's [uint8], [uint32], [uint] and [int] values are
    integers in [Z]; every narrowing conversion the source performs is
    written out ([mod 256], shifts).  A flag of type [uint] is a
    natural number; where [run] multiplies such flags or
    [frameRGBToImage] converts them to [int], the 64-bit wrap-around is
    written out ([uint64], [int64]).  Slices are lists; an index
    expression that Go would fault on (a run-time panic) makes the model
    return [None].  [float64] is IEEE 754 binary64 as specified by the
    standard library's [SpecFloat] (precision 53, [emax] 1024). *)

From Stdlib Require Import ZArith Lia Bool.
From Stdlib Require Import Floats.SpecFloat.
From stdpp Require Import base option list numbers.

(** ** Go's [image/color] *)

Module color.
Local Open Scope Z_scope.

(** [color.RGBA]: alpha-premultiplied 8-bit channels. *)
Record RGBA := mkRGBA { R : Z; G : Z; B : Z; A : Z }.

(** [color.NRGBA]: non-premultiplied 8-bit channels. *)
Record NRGBA := mkNRGBA { nR : Z; nG : Z; nB : Z; nA : Z }.

(** The four [uint32] results of the [RGBA()] method. *)
Record rgba32 := mkRGBA32 { r32 : Z; g32 : Z; b32 : Z; a32 : Z }.

(** The [color.Color] interface: one method, [RGBA()].  The two
    other fields stand for the type switches [c.(RGBA)] and
    [c.(NRGBA)] that the colour models start with. *)
Class Color (C : Type) := {
  RGBA_of : C -> rgba32;
  asRGBA : C -> option RGBA;
  asNRGBA : C -> option NRGBA }.

(** [func (c RGBA) RGBA()]: [r = uint32(c.R); r |= r << 8], ... *)
Definition widen (v : Z) : Z := Z.lor v (Z.shiftl v 8).

#[global] Instance RGBA_Color : Color RGBA := {|
  RGBA_of c :=
    mkRGBA32 (widen (R c)) (widen (G c)) (widen (B c)) (widen (A c));
  asRGBA c := Some c;
  asNRGBA _ := None |}.

(** [func (c NRGBA) RGBA()]:
    [r = uint32(c.R); r |= r << 8; r *= uint32(c.A); r /= 0xff]. *)
Definition premul (v a : Z) : Z := (widen v * a) / 255.

#[global] Instance NRGBA_Color : Color NRGBA := {|
  RGBA_of c :=
    mkRGBA32 (premul (nR c) (nA c)) (premul (nG c) (nA c))
             (premul (nB c) (nA c)) (widen (nA c));
  asRGBA _ := None;
  asNRGBA c := Some c |}.

(** [color.Transparent] is [Alpha16{0}]; [image.Transparent] is the
    uniform image of that colour, itself a [color.Color] whose
    [RGBA()] is that of its colour: all four components zero. *)
Variant Uniform := Transparent.

#[global] Instance Uniform_Color : Color Uniform := {|
  RGBA_of _ := mkRGBA32 0 0 0 0;
  asRGBA _ := None;
  asNRGBA _ := None |}.

Definition uint8 (v : Z) : Z := v mod 256.

(** [rgbaModel]: a [color.RGBA] is returned as it is, any other
    colour becomes [RGBA{uint8(r >> 8), uint8(g >> 8), ...}]. *)
Definition RGBAModel_Convert {C} `{Color C} (c : C) : RGBA :=
  match asRGBA c with
  | Some c' => c'
  | None =>
      let v := RGBA_of c in
      mkRGBA (uint8 (Z.shiftr (r32 v) 8)) (uint8 (Z.shiftr (g32 v) 8))
             (uint8 (Z.shiftr (b32 v) 8)) (uint8 (Z.shiftr (a32 v) 8))
  end.

(** [nrgbaModel]: a [color.NRGBA] is returned as it is; opaque and
    fully transparent colours are special cases, any other alpha is
    divided out. *)
Definition NRGBAModel_Convert {C} `{Color C} (c : C) : NRGBA :=
  match asNRGBA c with
  | Some c' => c'
  | None =>
      let v := RGBA_of c in
      if a32 v =? 65535 then
        mkNRGBA (uint8 (Z.shiftr (r32 v) 8)) (uint8 (Z.shiftr (g32 v) 8))
                (uint8 (Z.shiftr (b32 v) 8)) 255
      else if a32 v =? 0 then mkNRGBA 0 0 0 0
      else
        let un x := ((x * 65535) mod 2 ^ 32) / a32 v in
        mkNRGBA (uint8 (Z.shiftr (un (r32 v)) 8))
                (uint8 (Z.shiftr (un (g32 v)) 8))
                (uint8 (Z.shiftr (un (b32 v)) 8))
                (uint8 (Z.shiftr (a32 v) 8))
  end.

Definition is_uint8 (v : Z) : Prop := 0 <= v < 256.

Definition wf_RGBA (c : RGBA) : Prop :=
  is_uint8 (R c) /\ is_uint8 (G c) /\ is_uint8 (B c) /\ is_uint8 (A c).

Definition wf_NRGBA (c : NRGBA) : Prop :=
  is_uint8 (nR c) /\ is_uint8 (nG c) /\ is_uint8 (nB c) /\ is_uint8 (nA c).

(** The contract of [Color.RGBA()]: 16-bit components. *)
Definition wf_rgba32 (v : rgba32) : Prop :=
  0 <= r32 v <= 65535 /\ 0 <= g32 v <= 65535 /\
  0 <= b32 v <= 65535 /\ 0 <= a32 v <= 65535.

End color.

(** ** [float64] *)

Module F64.
Local Open Scope Z_scope.

Definition prec : Z := 53.
Definition emax : Z := 1024.

Definition float64 := spec_float.

(** [float64(n)] for an integer [n]: rounded to nearest even. *)
Definition of_Z (n : Z) : float64 := binary_normalize prec emax n 0 false.

Definition add : float64 -> float64 -> float64 := SFadd prec emax.
Definition div : float64 -> float64 -> float64 := SFdiv prec emax.

(** The comparison [x < y]; false as soon as one side is NaN. *)
Definition ltb : float64 -> float64 -> bool := SFltb.

Definition zero : float64 := S754_zero false.

(** The constant [0.5]. *)
Definition half : float64 := S754_finite false (2 ^ 52) (-53).

(** The integer part [math.Floor] keeps, for a finite argument. *)
Definition floorZ (s : bool) (m : positive) (e : Z) : Z :=
  let z := if s then Z.neg m else Z.pos m in
  if 0 <=? e then z * 2 ^ e else z / 2 ^ (- e).

(** [math.Floor]: zeros, infinities and NaN are returned unchanged. *)
Definition Floor (x : float64) : float64 :=
  match x with
  | S754_finite s m e =>
      binary_normalize prec emax (floorZ s m e) 0 s
  | _ => x
  end.

(** The value of a finite float with the fraction cut off, as the
    conversion [int(x)] does. *)
Definition truncZ (s : bool) (m : positive) (e : Z) : Z :=
  let z := if s then Z.neg m else Z.pos m in
  if 0 <=? e then z * 2 ^ e else Z.quot z (2 ^ (- e)).

(** [int(x)]: truncation toward zero.  Where the value does not fit
    64 bits (or is NaN) Go leaves the result to the implementation;
    the model returns what amd64 produces, the smallest [int]. *)
Definition to_int (x : float64) : Z :=
  match x with
  | S754_zero _ => 0
  | S754_finite s m e =>
      let t := truncZ s m e in
      if (- 2 ^ 63 <=? t) && (t <? 2 ^ 63) then t else - 2 ^ 63
  | _ => - 2 ^ 63
  end.

End F64.

(** The mantissa and the exponent of the [float64] of an integer that
    has at most 53 binary digits. *)
Definition mant (n : Z) : positive :=
  Z.to_pos (n * 2 ^ (52 - Z.log2 n))%Z.
Definition expo (n : Z) : Z := (Z.log2 n - 52)%Z.

(** ** The glyph ramp and [pixelToASCII] *)

Section Glyphs.
Import color.
Local Open Scope Z_scope.

(** [pixels]: the fifteen glyphs, as code points. *)
Definition pixels : list Z :=
  [32; 46; 44; 58; 59; 105; 49; 116; 102; 76; 67; 71; 48; 56; 64].

(** [r := uint(r2 / 256)], ..., [intensity := (r + g + b) * a / 255]. *)
Definition intensity32 (v : rgba32) : Z :=
  let r := r32 v / 256 in
  let g := g32 v / 256 in
  let b := b32 v / 256 in
  let a := a32 v / 256 in
  ((r + g + b) * a) / 255.

Definition intensity {C} `{Color C} (pixel : C) : Z :=
  intensity32 (RGBA_of pixel).

(** [precision := float64(255 * 3 / (len(pixels) - 1))]: the quotient
    is taken on [int]s, before the conversion. *)
Definition precision : F64.float64 :=
  F64.of_Z (Z.quot (255 * 3) (Z.of_nat (length pixels) - 1)).

(** [v := int(math.Floor(float64(intensity)/precision + 0.5))]. *)
Definition glyphIndexOf (i : Z) : Z :=
  F64.to_int
    (F64.Floor (F64.add (F64.div (F64.of_Z i) precision) F64.half)).

Definition glyphIndex {C} `{Color C} (pixel : C) : Z :=
  glyphIndexOf (intensity pixel).

(** [pixels[v]]: a negative or too large [v] is a run-time panic. *)
Definition index {X} (l : list X) (i : Z) : option X :=
  if i <? 0 then None else l !! Z.to_nat i.

Definition pixelToASCII {C} `{Color C} (pixel : C) : option Z :=
  index pixels (glyphIndex pixel).

(** [n/d] rounded to the nearest integer, halves upwards. *)
Definition roundNearest (n d : Z) : Z := (2 * n + d) / (2 * d).

(** The bucket width of the source: the [int] quotient of 765 by 14. *)
Definition bucketWidth : Z := Z.quot (255 * 3) (Z.of_nat (length pixels) - 1).

(** The index as the specification words it: the intensity divided by
    the exact ratio 765/14, rounded to the nearest integer. *)
Definition specGlyphIndex (i : Z) : Z :=
  roundNearest (i * (Z.of_nat (length pixels) - 1)) (255 * 3).

End Glyphs.


(** ** Slices and loops *)

(** [l[i] = v] on a slice: out of range is a run-time panic. *)
Definition store {X} (l : list X) (i : nat) (v : X) : option (list X) :=
  if decide (i < length l)%nat then Some (<[i := v]> l) else None.

(** A [for] loop over the index values [idx], threading the state the
    body updates; a panic in one iteration ends the loop. *)
Definition forM {St} (idx : list nat) (body : nat -> St -> option St) (s : St)
  : option St :=
  foldl (fun acc i => acc ≫= body i) (Some s) idx.

(** ** Go's [uint] and [int]

    Both are 64 bits wide.  A flag of type [uint] is kept as a natural
    number; [uint64] is the wrap-around of arithmetic on [uint]s, and
    [int64] the conversion to [int], which reads the 64 bits in two's
    complement. *)

Definition uint64 (v : Z) : Z := (v mod 2 ^ 64)%Z.

Definition int64 (v : Z) : Z :=
  let u := (v mod 2 ^ 64)%Z in
  if (u <? 2 ^ 63)%Z then u else (u - 2 ^ 64)%Z.

(** ** Go's [image]: RGBA and YCbCr images

    Every image of [main.go] has its rectangle at the origin
    ([image.Rect(0, 0, w, h)], or the result of the resizer), so a
    rectangle is its [Max] corner.  [Pix] holds one entry per pixel
    (the four bytes of Go's slice taken together), rows first, so that
    the stride is the width.  The one exception, an image made from a
    negative width or height, is described at [NewRGBARect]. *)

Module image.

Definition zeroRGBA : color.RGBA := color.mkRGBA 0 0 0 0.

Record RGBA := mkRGBAImage { Pix : list color.RGBA; MaxX : nat; MaxY : nat }.

(** [image.NewRGBA(image.Rect(0, 0, w, h))]: all bytes zero. *)
Definition NewRGBA (w h : nat) : RGBA :=
  mkRGBAImage (replicate (w * h) zeroRGBA) w h.

(** [mul3NonNeg(x, y, z)]: the product, or [-1] when an argument is
    negative or the product does not fit an [int].  The two products
    are taken by [bits.Mul64], whose high word must be 0. *)
Definition mul3NonNeg (x y z : Z) : Z :=
  (if (x <? 0) || (y <? 0) || (z <? 0) then -1
   else if 2 ^ 64 <=? x * y then -1
   else if 2 ^ 64 <=? x * y * z then -1
   else if 2 ^ 63 <=? x * y * z then -1
   else x * y * z)%Z.

(** [image.NewRGBA(image.Rect(0, 0, w, h))] for two [int]s.
    [image.Rect] puts the smaller coordinate first, so a negative [w]
    gives the rectangle from [w] to 0.  [Dx] and [Dy] are differences
    of [int]s, and [NewRGBA] panics when [mul3NonNeg(4, Dx, Dy)] is
    negative; allocation itself never fails in the model.  With a
    negative [w] or [h] the rectangle holds no point of non-negative
    coordinates: the record has [MaxX] or [MaxY] 0 and the [Dx*Dy]
    pixels that Go allocates. *)
Definition NewRGBARect (w h : Z) : option RGBA :=
  let dx := int64 (Z.max 0 w - Z.min 0 w) in
  let dy := int64 (Z.max 0 h - Z.min 0 h) in
  if (mul3NonNeg 4 dx dy <? 0)%Z then None
  else Some (mkRGBAImage (replicate (Z.to_nat (dx * dy)) zeroRGBA)
                         (Z.to_nat (Z.max 0 w)) (Z.to_nat (Z.max 0 h))).

(** [(Point{x, y}.In(p.Rect))]. *)
Definition inRect (p : RGBA) (x y : nat) : bool :=
  (x <? MaxX p)%nat && (y <? MaxY p)%nat.

Definition PixOffset (p : RGBA) (x y : nat) : nat := (y * MaxX p + x)%nat.

(** [func (p *RGBA) At(x, y int) color.Color]: outside the rectangle
    the zero colour [color.RGBA{}]. *)
Definition At (p : RGBA) (x y : nat) : color.RGBA :=
  if inRect p x y then default zeroRGBA (Pix p !! PixOffset p x y)
  else zeroRGBA.

(** [func (p *RGBA) Set(x, y int, c color.Color)]: outside the
    rectangle nothing happens; inside, the colour is converted by
    [color.RGBAModel] and written. *)
Definition Set_ {C} `{color.Color C} (p : RGBA) (x y : nat) (c : C) : RGBA :=
  if inRect p x y then
    mkRGBAImage (<[PixOffset p x y := color.RGBAModel_Convert c]> (Pix p))
                (MaxX p) (MaxY p)
  else p.

(** [image.YCbCr] with [YCbCrSubsampleRatio422]. *)
Record YCbCr := mkYCbCr {
  Y : list Z; Cb : list Z; Cr : list Z;
  YStride : nat; CStride : nat; yMaxX : nat; yMaxY : nat }.

(** [image.NewYCbCr(image.Rect(0, 0, w, h), YCbCrSubsampleRatio422)]:
    the chroma planes are [(w + 1) / 2] wide and [h] high. *)
Definition NewYCbCr422 (w h : nat) : YCbCr :=
  let cw := ((w + 1) / 2)%nat in
  mkYCbCr (replicate (w * h) 0%Z) (replicate (cw * h) 0%Z)
          (replicate (cw * h) 0%Z) w cw w h.

End image.

(** An image of the given size whose pixel slice has that size, as
    [NewRGBA] makes it and [Set] keeps it. *)
Definition sized (p : image.RGBA) (w h : nat) : Prop :=
  image.MaxX p = w /\ image.MaxY p = h /\ length (image.Pix p) = (w * h)%nat.

(** Writing one pixel of the slice. *)
Definition written (p : image.RGBA) (x y : nat) (c : color.RGBA)
  : image.RGBA :=
  image.mkRGBAImage (<[image.PixOffset p x y := c]> (image.Pix p))
                    (image.MaxX p) (image.MaxY p).


(** ** Go's [image/draw], for a YCbCr source *)

Module draw.
Local Open Scope Z_scope.

(** The clamp of the inlined [color.YCbCrToRGB]:
    [if uint32(r)&0xff000000 == 0 { r >>= 16 } else { r = ^(r >> 31) }]
    on an [int32], followed by [uint8(r)]. *)
Definition clamp (r : Z) : Z :=
  color.uint8
    (if Z.land (r mod 2 ^ 32) 4278190080 =? 0 then Z.shiftr r 16
     else Z.lnot (Z.shiftr r 31)).

Definition YCbCrToRGBA (y cb cr : Z) : color.RGBA :=
  let yy1 := y * 65793 in
  let cb1 := cb - 128 in
  let cr1 := cr - 128 in
  color.mkRGBA (clamp (yy1 + 91881 * cr1))
               (clamp (yy1 - 22554 * cb1 - 46802 * cr1))
               (clamp (yy1 + 116130 * cb1))
               255.

(** One destination pixel of [imageutil.DrawYCbCr], 4:2:2 case:
    [yi := sy*src.YStride + sx], [ci := sy*src.CStride + sx/2], and
    the four bytes are stored at [dst.Pix[y*dst.Stride + 4*x:]]. *)
Definition drawPixel (src : image.YCbCr) (y x : nat) (dst : image.RGBA)
  : option image.RGBA :=
  yy ← image.Y src !! (y * image.YStride src + x)%nat;
  cb ← image.Cb src !! (y * image.CStride src + x / 2)%nat;
  cr ← image.Cr src !! (y * image.CStride src + x / 2)%nat;
  pix ← store (image.Pix dst) (image.PixOffset dst x y)
              (YCbCrToRGBA yy cb cr);
  Some (image.mkRGBAImage pix (image.MaxX dst) (image.MaxY dst)).

(** [draw.Draw(img, img.Bounds(), yuyv, b.Min, draw.Src)] for an
    image [dst] of the size of [src]. *)
Definition DrawYCbCr (dst : image.RGBA) (src : image.YCbCr)
  : option image.RGBA :=
  forM (seq 0 (image.MaxY dst))
       (fun y => forM (seq 0 (image.MaxX dst)) (drawPixel src y))
       dst.

End draw.

(** ** The frame decoders *)

(** One iteration of the loop of [frameToImage]:
    [ii := i * 4; yuyv.Y[i*2] = frame[ii]; yuyv.Y[i*2+1] = frame[ii+2];
     yuyv.Cb[i] = frame[ii+1]; yuyv.Cr[i] = frame[ii+3]]. *)
Definition unpackYUYV (frame : list Z) (i : nat) (yuyv : image.YCbCr)
  : option image.YCbCr :=
  let ii := (i * 4)%nat in
  y0 ← frame !! ii;
  Y1 ← store (image.Y yuyv) (i * 2) y0;
  y1 ← frame !! (ii + 2)%nat;
  Y2 ← store Y1 (i * 2 + 1) y1;
  u ← frame !! (ii + 1)%nat;
  Cb' ← store (image.Cb yuyv) i u;
  v ← frame !! (ii + 3)%nat;
  Cr' ← store (image.Cr yuyv) i v;
  Some (image.mkYCbCr Y2 Cb' Cr' (image.YStride yuyv) (image.CStride yuyv)
                      (image.yMaxX yuyv) (image.yMaxY yuyv)).

(** [frameToImage]: YUYV422 buffer to RGBA image.  [None] when an index
    of the loop is out of range.  [width] and [height] are the [int]s
    that the function works with; the size checks of [image.NewYCbCr]
    and [image.NewRGBA] are not part of this model, which is about
    sizes those two accept. *)
Definition frameToImage (frame : list Z) (width height : nat)
  : option image.RGBA :=
  let yuyv0 := image.NewYCbCr422 width height in
  yuyv ← forM (seq 0 (length (image.Cb yuyv0))) (unpackYUYV frame) yuyv0;
  draw.DrawYCbCr (image.NewRGBA (image.yMaxX yuyv) (image.yMaxY yuyv)) yuyv.

(** The body of the inner loop of [frameRGBToImage]; the guard is
    [i+2 >= len(frame)]. *)
Definition decodeRGBPixel (frame : list Z) (w y x : nat) (img : image.RGBA)
  : option image.RGBA :=
  let stride := (w * 3)%nat in
  let i := (y * stride + x * 3)%nat in
  if (length frame <=? i + 2)%nat then Some img
  else
    r ← frame !! i;
    g ← frame !! (i + 1)%nat;
    b ← frame !! (i + 2)%nat;
    Some (image.Set_ img x y (color.mkRGBA r g b 255)).

(** [frameRGBToImage]: packed RGB888 buffer to RGBA image.  The two
    [uint] parameters are converted to [int]; [None] is the panic of
    [image.NewRGBA].  The loops run for positive [w] and [h] only, and
    then [4*w*h], and with it [stride] and every [i], fits an [int]. *)
Definition frameRGBToImage (frame : list Z) (width height : nat)
  : option image.RGBA :=
  let w := int64 (Z.of_nat width) in
  let h := int64 (Z.of_nat height) in
  img ← image.NewRGBARect w h;
  forM (seq 0 (Z.to_nat h))
       (fun y => forM (seq 0 (Z.to_nat w))
                      (decodeRGBPixel frame (Z.to_nat w) y))
       img.

(** ** What the decoders compute *)


(** The sizes for which [image.NewRGBA] makes an image of that width
    and height: both fit an [int], and so do [4*width] as a [uint] and
    [4*width*height]. *)
Definition fitsRGBA (width height : nat) : Prop :=
  (Z.of_nat width < 2 ^ 62 /\ Z.of_nat height < 2 ^ 63 /\
   4 * Z.of_nat width * Z.of_nat height < 2 ^ 63)%Z.

(** The index of the first byte of pixel [(x, y)]: [y*stride + x*3]. *)
Definition rgbIndex (w x y : nat) : nat := (y * (w * 3) + x * 3)%nat.

(** The pixel that ends up at [(x, y)]. *)
Definition rgbPixel (frame : list Z) (w x y : nat) : color.RGBA :=
  let i := rgbIndex w x y in
  match frame !! i, frame !! (i + 1)%nat, frame !! (i + 2)%nat with
  | Some r, Some g, Some b => color.mkRGBA r g b 255
  | _, _, _ => image.zeroRGBA
  end.

(** The planes after [i] rounds of the unpacking loop. *)
Definition unpacked (frame : list Z) (m h i : nat) (yuyv : image.YCbCr) : Prop :=
  length (image.Y yuyv) = (2 * m * h)%nat /\
  length (image.Cb yuyv) = (m * h)%nat /\ length (image.Cr yuyv) = (m * h)%nat /\
  image.YStride yuyv = (2 * m)%nat /\ image.CStride yuyv = m /\
  image.yMaxX yuyv = (2 * m)%nat /\ image.yMaxY yuyv = h /\
  (forall k, (k < 2 * i)%nat -> image.Y yuyv !! k = frame !! (2 * k)%nat) /\
  (forall j, (j < i)%nat ->
     image.Cb yuyv !! j = frame !! (4 * j + 1)%nat /\
     image.Cr yuyv !! j = frame !! (4 * j + 3)%nat).

(** The pixel that ends up at [(x, y)]: the luma byte of the pixel
    and the two chroma bytes of its group of four bytes. *)
Definition yuyvPixel (frame : list Z) (w x y : nat) : color.RGBA :=
  let p := (y * w + x)%nat in
  match frame !! (2 * p)%nat, frame !! (4 * (p / 2) + 1)%nat,
        frame !! (4 * (p / 2) + 3)%nat with
  | Some yy, Some cb, Some cr => draw.YCbCrToRGBA yy cb cr
  | _, _, _ => image.zeroRGBA
  end.

(** ** The renderers

    The rendered string is kept as the sequence of pieces the
    [strings.Builder] receives: one styled glyph per
    [termenv.String(..).Foreground(..).Background(..).String()], and the
    line break ["\n"].  The colour profile [p] is a parameter:
    [p.FromColor(c)] depends on [c] through [c.RGBA()] only. *)

Module termenv.

Record Style (TColor : Type) := mkStyle {
  text : Z; foreground : option TColor; background : option TColor }.
Arguments mkStyle {TColor}.
Arguments text {TColor}.
Arguments foreground {TColor}.
Arguments background {TColor}.

Variant piece (TColor : Type) :=
  | Styled (s : Style TColor)
  | LineBreak.
Arguments Styled {TColor}.
Arguments LineBreak {TColor}.

(** The text lines of an output: the runs of glyphs that a line break
    ends, and a last run without one if there is any. *)
Fixpoint linesFrom {TColor} (cur : list (Style TColor))
    (out : list (piece TColor)) : list (list (Style TColor)) :=
  match out with
  | [] => match cur with [] => [] | _ => [cur] end
  | Styled s :: rest => linesFrom (cur ++ [s]) rest
  | LineBreak :: rest => cur :: linesFrom [] rest
  end.

Definition lines {TColor} (out : list (piece TColor)) := linesFrom [] out.

End termenv.

(** The values of [y] in [for y := from; y < limit; y += step]. *)
Fixpoint loopFrom (fuel from step limit : nat) : list nat :=
  match fuel with
  | O => []
  | S fuel' =>
      if (from <? limit)%nat
      then from :: loopFrom fuel' (from + step) step limit
      else []
  end.

Section Render.
Import color termenv.
Local Open Scope Z_scope.

Context {TColor : Type}.
Variable p : rgba32 -> TColor.
(** The global [col]: the override colour, transparent when unset. *)
Variable col : rgba32.

Definition FromColor {C} `{Color C} (c : C) : TColor := p (RGBA_of c).

(** The upper half block, U+2580. *)
Definition halfBlock : Z := 9600.

(** One cell of [imageToASCII]. *)
Definition asciiCell (img : image.RGBA) (i j : nat)
  : option (piece TColor) :=
  let pixel := NRGBAModel_Convert (image.At img j i) in
  ch ← pixelToASCII pixel;
  Some (Styled (mkStyle ch
          (Some (if 0 <? a32 col then p col else FromColor pixel))
          None)).

(** [imageToASCII]: [None] when a ramp lookup is out of range. *)
Definition imageToASCII (width height : nat) (img : image.RGBA)
  : option (list (piece TColor)) :=
  forM (seq 0 height)
    (fun i str =>
       str' ← forM (seq 0 width)
                (fun j str => c ← asciiCell img i j; Some (str ++ [c])) str;
       Some (str' ++ [LineBreak]))
    [].

(** The style of the cell in column [x] of the row that starts at
    image row [y]. *)
Definition ansiStyle (img : image.RGBA) (x y : nat) : Style TColor :=
  mkStyle halfBlock (Some (FromColor (image.At img x y)))
          (Some (FromColor (image.At img x (y + 1)))).

(** One cell of [imageToANSI]. *)
Definition ansiCell (img : image.RGBA) (x y : nat) : piece TColor :=
  Styled (mkStyle halfBlock
            (Some (FromColor (image.At img x y)))
            (Some (FromColor (image.At img x (y + 1))))).

(** [imageToANSI]: the rows [y = 0, 2, 4, ...] below [b.Max.Y]. *)
Definition imageToANSI (img : image.RGBA) : list (piece TColor) :=
  foldl
    (fun str y =>
       foldl (fun str x => str ++ [ansiCell img x y])
             str (seq 0 (image.MaxX img))
       ++ [LineBreak])
    [] (loopFrom (image.MaxY img) 0 2 (image.MaxY img)).

End Render.

(** ** [greenscreen]

    [c1.DistanceLab(c2)] of go-colorful, applied to the colours
    [colorful.MakeColor] makes of the two pixels, is a parameter. *)

Section Greenscreen.
Variable LabDistance : color.RGBA -> color.RGBA -> F64.float64.

Definition maskPixel (bg : image.RGBA) (dist : F64.float64)
    (y x : nat) (img : image.RGBA) : image.RGBA :=
  let c1 := image.At img x y in
  let c2 := image.At bg x y in
  if F64.ltb (LabDistance c1 c2) dist
  then image.Set_ img x y color.Transparent
  else img.

(** [bg == nil] is [None]. *)
Definition greenscreen (img : image.RGBA) (bg : option image.RGBA)
    (dist : F64.float64) : image.RGBA :=
  match bg with
  | None => img
  | Some bg =>
      foldl (fun img y =>
               foldl (fun img x => maskPixel bg dist y x img)
                     img (seq 0 (image.MaxX img)))
            img (seq 0 (image.MaxY img))
  end.

End Greenscreen.

(** The default of the [-threshold] flag, [0.13]. *)
Definition defaultThreshold : F64.float64 :=
  F64.div (F64.of_Z 13) (F64.of_Z 100).

(** A distance to run [greenscreen] with: the squared distance of the
    colour channels.  Like go-colorful's Lab distance it is 0 between a
    colour and itself. *)
Definition sqDistance (c1 c2 : color.RGBA) : F64.float64 :=
  F64.of_Z ((color.R c1 - color.R c2) ^ 2 + (color.G c1 - color.G c2) ^ 2
            + (color.B c1 - color.B c2) ^ 2)%Z.

(** A red pixel, and the image of one pixel. *)
Definition redPixel : color.RGBA := color.mkRGBA 255 0 0 255.
Definition onePixel (c : color.RGBA) : image.RGBA :=
  image.mkRGBAImage [c] 1 1.

(** ** The FPS window of [run] *)

Module fps.
Local Open Scope Z_scope.

(** [time.Second], in nanoseconds. *)
Definition Second : Z := 1000000000.

(** [var fps []float64; for i := 0; i < 10; i++ { fps = append(fps, 0) }] *)
Definition seed : list F64.float64 :=
  foldl (fun fps _ => fps ++ [F64.zero]) [] (seq 0 10).

(** [for i := ...; i > 0; i-- { fps[i] = fps[i-1] }], from the given
    value of [i] on. *)
Fixpoint shiftFrom (i : nat) (fps : list F64.float64)
  : option (list F64.float64) :=
  match i with
  | O => Some fps
  | S i' => v ← fps !! i'; fps' ← store fps i v; shiftFrom i' fps'
  end.

(** The loop starts at [i := len(fps) - 1]. *)
Definition shift (fps : list F64.float64) : option (list F64.float64) :=
  shiftFrom (length fps - 1) fps.

(** [float64(time.Second / time.Since(now))]: a quotient of two
    [time.Duration]s, that is of two [int64]s; a zero divisor is a
    run-time panic. *)
Definition sample (elapsed : Z) : option F64.float64 :=
  if elapsed =? 0 then None
  else Some (F64.of_Z (Z.quot Second elapsed)).

(** [var fpsa float64; for _, f := range fps { fpsa += f }] *)
Definition total (fps : list F64.float64) : F64.float64 :=
  foldl F64.add F64.zero fps.

(** [fpsa / float64(len(fps))], the number that is printed. *)
Definition average (fps : list F64.float64) : F64.float64 :=
  F64.div (total fps) (F64.of_Z (Z.of_nat (length fps))).

(** The [if *showFPS] block of one tick: the new window and the
    reported average. *)
Definition tick (fps : list F64.float64) (elapsed : Z)
  : option (list F64.float64 * F64.float64) :=
  fps1 ← shift fps;
  s ← sample elapsed;
  fps2 ← store fps1 0 s;
  Some (fps2, average fps2).

(** Consecutive ticks; the result carries the last reported average. *)
Fixpoint ticks (fps : list F64.float64) (elapsed : list Z)
    (last : F64.float64) : option (list F64.float64 * F64.float64) :=
  match elapsed with
  | [] => Some (fps, last)
  | d :: rest => '(fps', avg) ← tick fps d; ticks fps' rest avg
  end.

(** What the specification calls the sample: [1/elapsed], computed
    on [float64]s, in frames per second. *)
Definition specSample (elapsed : Z) : F64.float64 :=
  F64.div (F64.of_Z Second) (F64.of_Z elapsed).

End fps.

(** ** Go's [io] and [bufio]: readers and [io.ReadFull] *)

Module io.

(** The error values a read can end with: [io.EOF],
    [io.ErrUnexpectedEOF], [io.ErrShortBuffer], and any other error
    (a [*fs.PathError] of the pipe, say), told apart by a code. *)
Variant error := EOF | ErrUnexpectedEOF | ErrShortBuffer | Other (code : nat).

#[global] Instance error_eq_dec : EqDecision error.
Proof. solve_decision. Defined.

(** The [io.Reader] interface.  [Read r n] is [r.Read(p)] for a
    slice [p] of length [n]: the bytes stored at the front of [p],
    the error, and the reader afterwards. *)
Class Reader (R : Type) := Read : R -> nat -> list Z * option error * R.

(** The loop of [io.ReadAtLeast]:
    [for n < min && err == nil { nn, err = r.Read(buf[n:]); n += nn }].
    [buf] is the part of the buffer filled so far, [size] the length
    of the whole buffer.  A reader may return no byte and no error
    for ever, hence the fuel. *)
Fixpoint readLoop {R} `{Reader R} (fuel : nat) (r : R) (size min : nat)
    (buf : list Z) : option (list Z * option error * R) :=
  if (length buf <? min)%nat then
    match fuel with
    | O => None
    | S fuel' =>
        let '(bs, err, r') := Read r (size - length buf) in
        match err with
        | None => readLoop fuel' r' size min (buf ++ bs)
        | Some _ => Some (buf ++ bs, err, r')
        end
    end
  else Some (buf, None, r).

(** [io.ReadAtLeast(r, buf, min)], with [len(buf) = size]. *)
Definition ReadAtLeast {R} `{Reader R} (fuel : nat) (r : R) (size min : nat)
  : option (list Z * option error * R) :=
  if (size <? min)%nat then Some ([], Some ErrShortBuffer, r)
  else
    '(buf, err, r') ← readLoop fuel r size min [];
    let n := length buf in
    Some (buf,
          if (min <=? n)%nat then None
          else if (0 <? n)%nat && bool_decide (err = Some EOF)
               then Some ErrUnexpectedEOF
               else err,
          r').

(** [io.ReadFull(r, buf)]. *)
Definition ReadFull {R} `{Reader R} (fuel : nat) (r : R) (size : nat) :=
  ReadAtLeast fuel r size size.

(** The read end of the child's standard output.  [arrivals] are the
    runs of bytes that successive reads find in the pipe, [closing]
    is what a read returns once they are used up: [EOF] when the
    child has closed its end, another error otherwise. *)
Record Pipe := mkPipe { arrivals : list (list Z); closing : error }.

Fixpoint pipeRead (arr : list (list Z)) (cl : error) (n : nat)
  : list Z * option error * Pipe :=
  match arr with
  | [] => ([], Some cl, mkPipe [] cl)
  | [] :: rest => pipeRead rest cl n
  | c :: rest =>
      (take n c, None,
       mkPipe (match drop n c with [] => rest | d => d :: rest end) cl)
  end.

(** [Read] of [os.File]: nothing is done for an empty slice. *)
#[global] Instance Pipe_Reader : Reader Pipe := fun f n =>
  match n with
  | O => ([], None, f)
  | _ => pipeRead (arrivals f) (closing f) n
  end.

(** A reader that hands out a finite run of bytes, some at each
    call, and from then on fails with one and the same error: what
    the pipe gives, be it read directly or through a buffer.
    [content] is what remains to be read, [ending] the final error,
    [valid] what the reader's own code maintains. *)
Class Stream (R : Type) `{Reader R} := {
  valid : R -> Prop;
  content : R -> list Z;
  ending : R -> error;
  read_some : forall r n, valid r -> (0 < n)%nat -> content r <> [] ->
    exists bs r', Read r n = (bs, None, r') /\ bs <> [] /\
      (length bs <= n)%nat /\ content r = bs ++ content r' /\
      ending r' = ending r /\ valid r';
  read_end : forall r n, valid r -> (0 < n)%nat -> content r = [] ->
    exists r', Read r n = ([], Some (ending r), r') /\
      content r' = [] /\ ending r' = ending r /\ valid r' }.

End io.

Module bufio.
Import io.

(** [bufio.Reader]: [buf] is [b.buf[b.r:b.w]], the bytes read ahead
    and not yet handed out; [size] is [len(b.buf)]. *)
Record Reader (R : Type) := mkReader {
  buf : list Z; rd : R; err : option error; size : nat }.
Arguments mkReader {R}.
Arguments buf {R}.
Arguments rd {R}.
Arguments err {R}.
Arguments size {R}.

Definition defaultBufSize : nat := 4096.

(** [bufio.NewReader(rd)]. *)
Definition NewReader {R} (r : R) : Reader R :=
  mkReader [] r None defaultBufSize.

(** [func (b *Reader) Read(p []byte)]; [b.readErr()] returns [b.err]
    and clears it. *)
Definition Read {R} `{io.Reader R} (b : Reader R) (n : nat)
  : list Z * option error * Reader R :=
  match n with
  | O =>
      match buf b with
      | [] => ([], err b, mkReader [] (rd b) None (size b))
      | _ => ([], None, b)
      end
  | _ =>
      match buf b with
      | [] =>
          match err b with
          | Some e => ([], Some e, mkReader [] (rd b) None (size b))
          | None =>
              if (size b <=? n)%nat then
                let '(bs, e, r') := io.Read (rd b) n in
                (bs, e, mkReader [] r' None (size b))
              else
                let '(bs, e, r') := io.Read (rd b) (size b) in
                match bs with
                | [] => ([], e, mkReader [] r' None (size b))
                | _ => (take n bs, None, mkReader (drop n bs) r' e (size b))
                end
          end
      | bs => (take n bs, None, mkReader (drop n bs) (rd b) (err b) (size b))
      end
  end.

#[global] Instance Reader_Reader {R} `{io.Reader R} : io.Reader (Reader R) :=
  Read.

End bufio.

(** ** The loop of [run], GStreamer mode

    With [-gst] and without [-gen], a tick can leave the loop at the
    cancellation check, at the read, and nowhere else.  The model keeps
    the images that [frameRGBToImage] hands to the rest of the tick. *)

Section Run.
Context {R : Type} `{io.Reader R}.

(** [ctx.Err() != nil] at the top of the tick with the given number. *)
Variable cancelled : nat -> bool.

(** How [run] ends: [return nil], [return fmt.Errorf("failed to read
    from gst stdout: %w", err)], or a run-time panic. *)
Variant exit := ReturnNil | ReturnReadError (e : io.error) | Panic.

Fixpoint gstLoop (fuel tick : nat) (gstReader : R)
    (camWidth camHeight frameSizeRGB : nat) (imgs : list image.RGBA)
  : option (exit * list image.RGBA) :=
  match fuel with
  | O => None
  | S fuel' =>
      if cancelled tick then Some (ReturnNil, imgs)
      else
        '(rgbBuf, err, gstReader') ← io.ReadFull fuel' gstReader frameSizeRGB;
        match err with
        | Some e =>
            if bool_decide (e = io.EOF) || bool_decide (e = io.ErrUnexpectedEOF)
            then Some (ReturnNil, imgs)
            else Some (ReturnReadError e, imgs)
        | None =>
            match frameRGBToImage rgbBuf camWidth camHeight with
            | None => Some (Panic, imgs)
            | Some img =>
                gstLoop fuel' (S tick) gstReader' camWidth camHeight
                        frameSizeRGB (imgs ++ [img])
            end
        end
  end.

(** How the loop ends on a stream with the given final error. *)
Definition exitOn (e : io.error) : exit :=
  match e with
  | io.EOF | io.ErrUnexpectedEOF => ReturnNil
  | _ => ReturnReadError e
  end.

(** The [j]-th run of [size] bytes of a stream. *)
Definition frameAt (size j : nat) (c : list Z) : list Z :=
  take size (drop (j * size) c).

(** [frameSizeRGB], the [int] of the product of the flags [camWidth]
    and [camHeight] and of 3: the product is taken on [uint]s and
    wraps around. *)
Definition frameSizeRGB (camWidth camHeight : nat) : Z :=
  int64 (uint64 (uint64 (Z.of_nat camWidth * Z.of_nat camHeight) * 3)).

(** From [rgbBuf := make([]byte, frameSizeRGB)], which panics on a
    negative length, to the end of the loop.  Allocation itself never
    fails in the model. *)
Definition gstRun (fuel : nat) (gstReader : R) (camWidth camHeight : nat) :=
  let size := frameSizeRGB camWidth camHeight in
  if (size <? 0)%Z then Some (Panic, [])
  else gstLoop fuel 0 gstReader camWidth camHeight (Z.to_nat size) [].

End Run.

(** A child that writes four bytes, then one, and closes its output:
    one whole 1x1 frame and two bytes of a second one. *)
Definition truncatedStream : bufio.Reader io.Pipe :=
  bufio.NewReader (io.mkPipe [[1; 2; 3; 4]; [5]]%Z io.EOF).

(** ** The cells of character mode *)

Section RenderCells.
Import color termenv.
Local Open Scope Z_scope.

Context {TColor : Type}.
Variable p : rgba32 -> TColor.
Variable col : rgba32.

(** The style [imageToASCII] gives the cell of row [i], column [j]:
    the glyph of the pixel, the foreground [col] if that is set and
    the pixel's own colour otherwise, no background.  (The glyph
    lookup never fails, so the [default] is never used.) *)
Definition asciiStyle (img : image.RGBA) (i j : nat) : Style TColor :=
  let pixel := NRGBAModel_Convert (image.At img j i) in
  mkStyle (default 32 (pixelToASCII pixel))
          (Some (if 0 <? a32 col then p col else FromColor p pixel))
          None.

End RenderCells.

(** ** The size of the output, in [run] *)

Section OutputSize.
Local Open Scope Z_scope.

(** The width in bits of Go's [uint] and [int]: 64, or 32. *)
Variable bits : Z.

(** The conversion [uint(v)] of an [int]. *)
Definition uint (v : Z) : Z := v mod 2 ^ bits.

(** The lines of [run] from [height := *h] to [height *= 2].  [w] and
    [h] are the flags [-width] and [-height]; [terminal] is [None]
    when standard output is no terminal or [term.GetSize] fails, and
    the [wTerm, hTerm] it returns otherwise. *)
Definition outputSize (w h : Z) (terminal : option (Z * Z)) (ansi : bool)
  : Z * Z :=
  let height := h in
  let width := w in
  let '(width, height) :=
    match terminal with
    | Some (wTerm, hTerm) =>
        (if width =? 0 then uint wTerm else width,
         if height =? 0 then uint hTerm else height)
    | None => (width, height)
    end in
  let width := if width =? 0 then 125 else width in
  let height := if height =? 0 then 50 else height in
  let height := if ansi then uint (height * 2) else height in
  (width, height).

End OutputSize.

(** ** The loop of [run], webcam mode

    Without [-gst], [-gen] and [-fps] a tick can leave the loop at
    the cancellation check, at the wait, at the read, and by a panic
    of [frameToImage].  The model keeps the images that
    [frameToImage] hands to the rest of the tick. *)

Section Webcam.

(** What [cam.WaitForFrame(1)] and [cam.ReadFrame()] give in one
    tick: a timeout of the wait, another error of the wait, an error
    of the read, or a frame, which may be empty. *)
Variant camEvent :=
  | WaitTimeout
  | WaitFailed (code : nat)
  | ReadFailed (code : nat)
  | Frame (frame : list Z).

(** How [run] ends: [return nil], one of the two [fmt.Errorf], or a
    run-time panic; [CamPending] when the events are used up and the
    loop is waiting for the camera. *)
Variant camExit :=
  | CamNil
  | CamWaitError (code : nat)
  | CamReadError (code : nat)
  | CamPanic
  | CamPending.

Variable cancelled : nat -> bool.

Fixpoint camLoop (events : list camEvent) (tick : nat)
    (camWidth camHeight : nat) (imgs : list image.RGBA)
  : camExit * list image.RGBA :=
  if cancelled tick then (CamNil, imgs)
  else
    match events with
    | [] => (CamPending, imgs)
    | WaitTimeout :: rest => camLoop rest (S tick) camWidth camHeight imgs
    | WaitFailed code :: _ => (CamWaitError code, imgs)
    | ReadFailed code :: _ => (CamReadError code, imgs)
    | Frame frame :: rest =>
        if (length frame =? 0)%nat
        then camLoop rest (S tick) camWidth camHeight imgs
        else
          match frameToImage frame camWidth camHeight with
          | None => (CamPanic, imgs)
          | Some img =>
              camLoop rest (S tick) camWidth camHeight (imgs ++ [img])
          end
    end.

(** The events that the loop passes over with [continue]. *)
Definition skipped (ev : camEvent) : bool :=
  match ev with
  | WaitTimeout => true
  | Frame [] => true
  | _ => false
  end.

End Webcam.

(** ** The arguments of the child process, in [startGstPipe] *)

Section GstArgs.
Local Open Scope Z_scope.

(** [unicode.IsSpace], on code points. *)
Definition isSpace (c : Z) : bool :=
  ((9 <=? c) && (c <=? 13)) || (c =? 32) || (c =? 133) || (c =? 160)
  || (c =? 5760) || ((8192 <=? c) && (c <=? 8202))
  || (c =? 8232) || (c =? 8233) || (c =? 8239) || (c =? 8287)
  || (c =? 12288).

(** [strings.Fields], on the runes of the string: the maximal runs of
    runes that are not white space.  [cur] is the field being read. *)
Fixpoint fieldsFrom (cur : list Z) (s : list Z) : list (list Z) :=
  match s with
  | [] => match cur with [] => [] | _ => [cur] end
  | c :: rest =>
      if isSpace c
      then match cur with
           | [] => fieldsFrom [] rest
           | _ => cur :: fieldsFrom [] rest
           end
      else fieldsFrom (cur ++ [c]) rest
  end.

Definition Fields (s : list Z) : list (list Z) := fieldsFrom [] s.

(** A string without white space. *)
Definition solid (s : list Z) : bool :=
  forallb (fun c => negb (isSpace c)) s.

(** [args := append([]string{"-e"}, strings.Fields(pipeline)...)] *)
Definition gstArgs (pipeline : list Z) : list (list Z) :=
  [[45; 101]] ++ Fields pipeline.

End GstArgs.

(** ** Writing background samples: the [-gen] block of [run] *)

Section Gen.

(** What happens to the frame of one tick in the [if *gen] block:
    one of the three calls fails, or the file is written. *)
Variant genEvent := MkdirFails | CreateFails | EncodeFails | Written.

(** How the block leaves [run]: one of the three [fmt.Errorf], or
    [os.Exit(0)]; [GenRunning i] when the frames are used up, with the
    counter [i]. *)
Variant genExit :=
  | GenError (ev : genEvent)
  | ExitZero
  | GenRunning (i : nat).

(** [files] are the numbers [i] of the files [<sample>/<i>.png]
    written so far. *)
Fixpoint genLoop (frames : list genEvent) (i : nat) (files : list nat)
  : genExit * list nat :=
  match frames with
  | [] => (GenRunning i, files)
  | Written :: rest =>
      let files := files ++ [i] in
      let i := S i in
      if (100 <? i)%nat then (ExitZero, files) else genLoop rest i files
  | ev :: _ => (GenError ev, files)
  end.

(** [i := 40] of [loadBgSamples]: the file that is read back. *)
Definition bgSampleIndex : nat := 40.

End Gen.

(** * Properties *)

(** ** Bounded checks by computation *)

Lemma forallb_range (f : Z -> bool) (n : nat) :
  forallb (fun k => f (Z.of_nat k)) (seq 0 n) = true ->
  forall i : Z, (0 <= i < Z.of_nat n)%Z -> f i = true.
Proof.
  intros Hall i Hi.
  rewrite forallb_forall in Hall.
  rewrite <- (Z2Nat.id i) by lia.
  apply Hall, in_seq. lia.
Qed.

(** ** Colours *)

Section ColourFacts.
Import color.
Local Open Scope Z_scope.

Lemma widen_eq v : is_uint8 v -> widen v = 257 * v.
Proof.
  intros Hv.
  assert (H : (widen v =? 257 * v) = true); [|lia].
  apply (forallb_range (fun v => widen v =? 257 * v) 256); [|exact Hv].
  vm_compute. reflexivity.
Qed.

Lemma premul_range v a : is_uint8 v -> is_uint8 a -> 0 <= premul v a <= 65535.
Proof.
  intros Hv Ha. unfold premul. rewrite (widen_eq v Hv).
  unfold is_uint8 in *. split.
  - apply Z.div_pos; nia.
  - apply Z.div_le_upper_bound; nia.
Qed.

Lemma RGBA_contract (c : RGBA) : wf_RGBA c -> wf_rgba32 (RGBA_of c).
Proof.
  intros (HR & HG & HB & HA). unfold wf_rgba32. cbn.
  rewrite !widen_eq by assumption. unfold is_uint8 in *. lia.
Qed.

Lemma NRGBA_contract (c : NRGBA) : wf_NRGBA c -> wf_rgba32 (RGBA_of c).
Proof.
  intros (HR & HG & HB & HA). unfold wf_rgba32. cbn.
  pose proof (premul_range _ _ HR HA). pose proof (premul_range _ _ HG HA).
  pose proof (premul_range _ _ HB HA).
  rewrite widen_eq by assumption. unfold is_uint8 in *. lia.
Qed.

End ColourFacts.

(** ** The glyph index *)

Section GlyphFacts.
Import color.
Local Open Scope Z_scope.

Lemma bucketWidth_54 : bucketWidth = 54.
Proof. reflexivity. Qed.

(** The [float64] computation of [pixelToASCII] is exact on the whole
    range of intensities. *)
Lemma glyphIndexOf_exact i :
  0 <= i <= 765 -> glyphIndexOf i = roundNearest i bucketWidth.
Proof.
  intros Hi.
  assert (H : (glyphIndexOf i =? roundNearest i bucketWidth) = true); [|lia].
  apply (forallb_range
           (fun i => glyphIndexOf i =? roundNearest i bucketWidth) 766);
    [|lia].
  vm_compute. reflexivity.
Qed.

Lemma high_byte_range x : 0 <= x <= 65535 -> 0 <= x / 256 <= 255.
Proof.
  intros Hx. split; [apply Z.div_pos; lia|].
  enough (x / 256 < 256) by lia. apply Z.div_lt_upper_bound; lia.
Qed.

Lemma intensity32_range v : wf_rgba32 v -> 0 <= intensity32 v <= 765.
Proof.
  intros (Hr & Hg & Hb & Ha). unfold intensity32.
  apply high_byte_range in Hr, Hg, Hb, Ha.
  split; [apply Z.div_pos | apply Z.div_le_upper_bound]; nia.
Qed.

Lemma roundNearest_bucket_range i :
  0 <= i <= 765 -> 0 <= roundNearest i bucketWidth <= 14.
Proof.
  intros Hi. rewrite bucketWidth_54. unfold roundNearest. split.
  - apply Z.div_pos; lia.
  - enough (H : (2 * i + 54) / (2 * 54) < 15) by lia.
    apply Z.div_lt_upper_bound; lia.
Qed.

Lemma roundNearest_mono i1 i2 d :
  0 < d -> i1 <= i2 -> roundNearest i1 d <= roundNearest i2 d.
Proof.
  intros Hd Hle. unfold roundNearest. apply Z.div_le_mono; lia.
Qed.

End GlyphFacts.

Section GlyphClaims.
Import color.
Local Open Scope Z_scope.

(** Whatever colour the image holds, the pixel that [imageToASCII]
    passes on has 8-bit channels. *)
Lemma NRGBAModel_Convert_wf (c : RGBA) : wf_NRGBA (NRGBAModel_Convert c).
Proof.
  unfold NRGBAModel_Convert, wf_NRGBA, is_uint8, uint8. cbn.
  repeat case_match; cbn; repeat split;
    try lia; apply Z.mod_pos_bound; lia.
Qed.

Lemma glyphIndex_range {C} `{Color C} (pixel : C) :
  wf_rgba32 (RGBA_of pixel) -> 0 <= glyphIndex pixel <= 14.
Proof.
  intros Hwf. pose proof (intensity32_range _ Hwf) as Hi.
  unfold glyphIndex, intensity. rewrite glyphIndexOf_exact by assumption.
  now apply roundNearest_bucket_range.
Qed.

Lemma pixelToASCII_defined {C} `{Color C} (pixel : C) :
  wf_rgba32 (RGBA_of pixel) -> exists ch, pixelToASCII pixel = Some ch.
Proof.
  intros Hwf. pose proof (glyphIndex_range pixel Hwf) as Hv.
  unfold pixelToASCII, index.
  destruct (Z.ltb_spec (glyphIndex pixel) 0) as [|_]; [lia|].
  apply lookup_lt_is_Some_2. change (length pixels) with 15%nat. lia.
Qed.

(** C2, as the code has it.  With [r], [g], [b], [a] the high bytes of
    the four components of the pixel's [RGBA()], the intensity
    [(r+g+b)*a/255] lies in 0..765, and the glyph index is the
    intensity divided by the bucket width and rounded to the nearest
    integer (halves upwards), where the bucket width is the integer
    quotient of 765 by 14, that is 54. *)
Theorem glyph_index_rounds_by_int_bucket {C} `{Color C} (pixel : C) :
  wf_rgba32 (RGBA_of pixel) ->
  let v := RGBA_of pixel in
  let i := ((r32 v / 256 + g32 v / 256 + b32 v / 256) * (a32 v / 256)) / 255 in
  0 <= i <= 765 /\
  bucketWidth = 54 /\
  glyphIndex pixel = roundNearest i bucketWidth.
Proof.
  intros Hwf v i.
  pose proof (intensity32_range _ Hwf) as Hi.
  split; [exact Hi|]. split; [reflexivity|].
  unfold glyphIndex, intensity. now apply glyphIndexOf_exact.
Qed.

Lemma glyph_index_rounds_by_int_bucket_witness :
  0 <= 350 <= 765 /\
  bucketWidth = 54 /\
  glyphIndex (mkNRGBA 200 100 50 255) = roundNearest 350 bucketWidth.
Proof.
  refine (glyph_index_rounds_by_int_bucket (mkNRGBA 200 100 50 255) _).
  vm_compute. intuition discriminate.
Defined.

(** C2, as stated, fails: the opaque pixel (27,0,0) has intensity 27;
    27/(765/14) is 0.494..., nearest integer 0, and the code yields
    glyph 1. *)
Lemma glyph_index_exact_ratio_counterexample :
  let pixel := mkNRGBA 27 0 0 255 in
  intensity pixel = 27 /\
  specGlyphIndex (intensity pixel) = 0 /\
  glyphIndex pixel = 1 /\
  glyphIndex pixel <> specGlyphIndex (intensity pixel).
Proof. vm_compute. repeat split; discriminate. Qed.

(** C4.  The glyph index does not decrease when the intensity grows:
    of two pixels with intensities [i1 <= i2] the first gets an index
    at most that of the second. *)
Theorem glyph_index_monotone {C1 C2} `{Color C1} `{Color C2}
    (p1 : C1) (p2 : C2) :
  wf_rgba32 (RGBA_of p1) -> wf_rgba32 (RGBA_of p2) ->
  intensity p1 <= intensity p2 ->
  glyphIndex p1 <= glyphIndex p2.
Proof.
  intros H1 H2 Hle.
  pose proof (intensity32_range _ H1). pose proof (intensity32_range _ H2).
  unfold glyphIndex. rewrite !glyphIndexOf_exact by assumption.
  apply roundNearest_mono; [rewrite bucketWidth_54; lia | exact Hle].
Qed.

Lemma glyph_index_monotone_witness :
  glyphIndex (mkNRGBA 10 20 30 255) <= glyphIndex (mkRGBA 90 80 70 255).
Proof.
  apply (glyph_index_monotone (mkNRGBA 10 20 30 255) (mkRGBA 90 80 70 255)).
  - vm_compute. intuition discriminate.
  - vm_compute. intuition discriminate.
  - vm_compute. discriminate.
Defined.

(** C5.  For every pixel colour the glyph index lies in 0..14, the
    bounds of the 15-entry ramp, and the lookup [pixels[v]] succeeds. *)
Theorem glyph_index_in_ramp {C} `{Color C} (pixel : C) :
  wf_rgba32 (RGBA_of pixel) ->
  length pixels = 15%nat /\
  0 <= glyphIndex pixel <= 14 /\
  exists ch, pixelToASCII pixel = Some ch.
Proof.
  intros Hwf. split; [reflexivity|]. split.
  - now apply glyphIndex_range.
  - now apply pixelToASCII_defined.
Qed.

Lemma glyph_index_in_ramp_witness :
  length pixels = 15%nat /\
  0 <= glyphIndex (mkNRGBA 255 255 255 255) <= 14 /\
  exists ch, pixelToASCII (mkNRGBA 255 255 255 255) = Some ch.
Proof.
  refine (glyph_index_in_ramp (mkNRGBA 255 255 255 255) _).
  vm_compute. intuition discriminate.
Defined.

End GlyphClaims.

(** ** Loops *)

Section LoopFacts.
Context {St : Type}.

Lemma forM_snoc (idx : list nat) (i : nat)
    (body : nat -> St -> option St) (s : St) :
  forM (idx ++ [i]) body s = forM idx body s ≫= body i.
Proof. unfold forM. now rewrite foldl_app. Qed.

(** The invariant rule for a counting loop that cannot fault. *)
Lemma forM_seq_inv (P : nat -> St -> Prop)
    (body : nat -> St -> option St) (n : nat) (s : St) :
  P 0%nat s ->
  (forall i s, (i < n)%nat -> P i s ->
               exists s', body i s = Some s' /\ P (S i) s') ->
  exists s', forM (seq 0 n) body s = Some s' /\ P n s'.
Proof.
  intros H0 Hstep. induction n as [|n IH].
  - exists s. split; [reflexivity | exact H0].
  - destruct IH as (s1 & Hrun & HP).
    { intros i s0 Hi. apply Hstep. lia. }
    destruct (Hstep n s1 (Nat.lt_succ_diag_r n) HP) as (s2 & Hbody & HP2).
    exists s2. split; [|exact HP2].
    rewrite seq_S, forM_snoc, Hrun. exact Hbody.
Qed.

(** A loop whose body cannot fault is a plain fold. *)
Lemma forM_pure (f : St -> nat -> St) (idx : list nat) (s : St) :
  forM idx (fun i s => Some (f s i)) s = Some (foldl f s idx).
Proof.
  revert s. induction idx as [|i idx IH] using rev_ind; intros s.
  - reflexivity.
  - rewrite forM_snoc, IH, foldl_app. reflexivity.
Qed.

Lemma forM_ext (body1 body2 : nat -> St -> option St) idx s :
  (forall i s, body1 i s = body2 i s) ->
  forM idx body1 s = forM idx body2 s.
Proof.
  intros Hext. revert s. induction idx as [|i idx IH] using rev_ind; intros s.
  - reflexivity.
  - rewrite !forM_snoc, IH. destruct (forM idx body2 s); [apply Hext|].
    reflexivity.
Qed.

End LoopFacts.

Lemma store_Some {X} (l : list X) i v :
  (i < length l)%nat -> store l i v = Some (<[i := v]> l).
Proof. intros Hi. unfold store. now rewrite decide_True. Qed.


(** ** Images *)

Section ImageFacts.
Import image.

Lemma NewRGBA_sized w h : sized (NewRGBA w h) w h.
Proof. repeat split. cbn. apply length_replicate. Qed.

Lemma inRect_true p w h x y :
  sized p w h -> (x < w)%nat -> (y < h)%nat -> inRect p x y = true.
Proof.
  intros (Hx & Hy & _) Hlx Hly. unfold inRect. rewrite Hx, Hy.
  apply andb_true_intro. split; apply Nat.ltb_lt; assumption.
Qed.

Lemma offset_lt w h x y : (x < w)%nat -> (y < h)%nat -> (y * w + x < w * h)%nat.
Proof.
  intros Hx Hy.
  assert (S y * w <= h * w)%nat by (apply Nat.mul_le_mono_r; lia).
  lia.
Qed.

Lemma offset_inj w x y x' y' :
  (x < w)%nat -> (x' < w)%nat -> (y * w + x = y' * w + x')%nat ->
  x = x' /\ y = y'.
Proof.
  intros Hx Hx' Heq.
  destruct (Nat.div_mod_unique w y y' x x' Hx Hx') as [-> ->]; [lia|].
  split; reflexivity.
Qed.

Lemma NewRGBA_At w h x y : At (NewRGBA w h) x y = zeroRGBA.
Proof.
  unfold At. destruct (inRect _ x y); [|reflexivity].
  cbn. destruct (replicate (w * h) zeroRGBA !! _) as [c|] eqn:E;
    [|reflexivity].
  apply lookup_replicate in E. cbn. tauto.
Qed.

Lemma written_sized p w h x y c : sized p w h -> sized (written p x y c) w h.
Proof.
  intros (Hx & Hy & Hl). repeat split; cbn; try assumption.
  now rewrite length_insert.
Qed.

Lemma written_At_same p w h x y c :
  sized p w h -> (x < w)%nat -> (y < h)%nat -> At (written p x y c) x y = c.
Proof.
  intros Hs Hx Hy.
  pose proof (written_sized p w h x y c Hs) as Hs'.
  unfold At. rewrite (inRect_true _ w h) by assumption.
  destruct Hs as (Hmx & Hmy & Hl).
  unfold written, PixOffset. cbn.
  rewrite list_lookup_insert_eq; [reflexivity|].
  rewrite Hl, Hmx. now apply offset_lt.
Qed.

Lemma written_At_other p w h x y c x' y' :
  sized p w h -> (x < w)%nat -> (x' < w)%nat ->
  (x', y') <> (x, y) ->
  At (written p x y c) x' y' = At p x' y'.
Proof.
  intros Hs Hx Hx' Hne.
  unfold At, inRect, written, PixOffset. cbn.
  destruct Hs as (Hmx & Hmy & Hl). rewrite Hmx.
  rewrite list_lookup_insert_ne; [reflexivity|].
  intros Heq. apply offset_inj in Heq; [|assumption..].
  apply Hne. f_equal; symmetry; apply Heq.
Qed.

Lemma Set_written {C} `{color.Color C} p w h x y (c : C) :
  sized p w h -> (x < w)%nat -> (y < h)%nat ->
  Set_ p x y c = written p x y (color.RGBAModel_Convert c).
Proof.
  intros Hs Hx Hy. unfold Set_.
  now rewrite (inRect_true _ w h) by assumption.
Qed.

(** The rule for the loops of [main.go] that visit every pixel once,
    rows first: if the body, at a pixel that still holds its initial
    value, stores [final x y] there and touches no other pixel, then
    the loop runs to its end and every pixel holds its [final]. *)
Lemma pixel_loop (step : nat -> nat -> RGBA -> option RGBA)
    (final : nat -> nat -> color.RGBA) (img0 : RGBA) (w h : nat) :
  sized img0 w h ->
  (forall x y img, (x < w)%nat -> (y < h)%nat -> sized img w h ->
     At img x y = At img0 x y ->
     exists img', step y x img = Some img' /\ sized img' w h /\
       At img' x y = final x y /\
       forall x' y', (x' < w)%nat -> (y' < h)%nat -> (x', y') <> (x, y) ->
                     At img' x' y' = At img x' y') ->
  exists img,
    forM (seq 0 h) (fun y => forM (seq 0 w) (step y)) img0 = Some img /\
    sized img w h /\
    forall x y, (x < w)%nat -> (y < h)%nat -> At img x y = final x y.
Proof.
  intros Hs0 Hstep.
  set (Inv := fun (y x : nat) (img : RGBA) =>
    sized img w h /\
    forall x' y', (x' < w)%nat -> (y' < h)%nat ->
      At img x' y' =
        if decide (y' < y \/ (y' = y /\ x' < x))%nat
        then final x' y' else At img0 x' y').
  destruct (forM_seq_inv (fun y => Inv y 0%nat)
              (fun y => forM (seq 0 w) (step y)) h img0)
    as (img & Hrun & Hs & Hfin).
  - split; [exact Hs0|]. intros x' y' _ _.
    destruct (decide _) as [Hd|_]; [lia | reflexivity].
  - intros y img Hy HInv.
    destruct (forM_seq_inv (Inv y) (step y) w img) as (img1 & Hrun1 & H1).
    + exact HInv.
    + intros x img1 Hx (Hs1 & Hat1).
      destruct (Hstep x y img1 Hx Hy Hs1) as (img2 & Hb & Hs2 & Hxy & Hoth).
      { rewrite Hat1 by assumption.
        destruct (decide _) as [Hd|_]; [lia | reflexivity]. }
      exists img2. split; [exact Hb|]. split; [exact Hs2|].
      intros x' y' Hx' Hy'.
      destruct (decide ((x', y') = (x, y))) as [Heq|Hne].
      * injection Heq as -> ->. rewrite Hxy.
        destruct (decide _) as [_|Hd]; [reflexivity | lia].
      * rewrite Hoth by assumption. rewrite Hat1 by assumption.
        assert (Hxy' : x' <> x \/ y' <> y).
        { destruct (decide (x' = x)); [right | left; assumption].
          intros ->. apply Hne. now subst. }
        repeat destruct (decide _); try reflexivity; lia.
    + exists img1. split; [exact Hrun1|].
      destruct H1 as (Hs1 & Hat1). split; [exact Hs1|].
      intros x' y' Hx' Hy'. rewrite Hat1 by assumption.
      repeat destruct (decide _); try reflexivity; lia.
  - exists img. split; [exact Hrun|]. split; [exact Hs|].
    intros x y Hx Hy. rewrite Hfin by assumption.
    destruct (decide _) as [_|Hd]; [reflexivity | lia].
Qed.

End ImageFacts.

(** ** [imageToASCII] *)

Section ASCIIFacts.
Import color termenv.
Context {TColor : Type}.
Variable p : rgba32 -> TColor.
Variable col : rgba32.

Lemma asciiCell_defined (img : image.RGBA) (i j : nat) :
  exists c, asciiCell p col img i j = Some c.
Proof.
  unfold asciiCell.
  destruct (pixelToASCII_defined (NRGBAModel_Convert (image.At img j i)))
    as [ch Hch].
  { apply NRGBA_contract, NRGBAModel_Convert_wf. }
  rewrite Hch. eexists. reflexivity.
Qed.

(** Character mode renders every image: no ramp lookup is out of
    range, whatever the pixels are. *)
Lemma imageToASCII_total (width height : nat) (img : image.RGBA) :
  exists out, imageToASCII p col width height img = Some out.
Proof.
  unfold imageToASCII.
  destruct (forM_seq_inv (fun _ _ => True)
    (fun i str =>
       str' ← forM (seq 0 width)
                (fun j str => c ← asciiCell p col img i j; Some (str ++ [c]))
                str;
       Some (str' ++ [LineBreak])) height []) as (out & Hout & _).
  - exact I.
  - intros i str _ _.
    destruct (forM_seq_inv (fun _ _ => True)
      (fun j str => c ← asciiCell p col img i j; Some (str ++ [c]))
      width str) as (row & Hrow & _).
    + exact I.
    + intros j str' _ _. destruct (asciiCell_defined img i j) as [c Hc].
      rewrite Hc. eexists. split; [reflexivity | exact I].
    + rewrite Hrow. eexists. split; [reflexivity | exact I].
  - now exists out.
Qed.

End ASCIIFacts.

(** ** [frameRGBToImage] *)

Section RGBDecoder.
Import image.

Lemma decodeRGBPixel_inside frame w y x img i :
  i = rgbIndex w x y -> (i + 2 < length frame)%nat ->
  exists r g b,
    frame !! i = Some r /\ frame !! (i + 1)%nat = Some g /\
    frame !! (i + 2)%nat = Some b /\
    decodeRGBPixel frame w y x img
      = Some (Set_ img x y (color.mkRGBA r g b 255)).
Proof.
  intros -> Hin.
  destruct (lookup_lt_is_Some_2 frame (rgbIndex w x y)) as [r Hr]; [lia|].
  destruct (lookup_lt_is_Some_2 frame (rgbIndex w x y + 1)) as [g Hg]; [lia|].
  destruct (lookup_lt_is_Some_2 frame (rgbIndex w x y + 2)) as [b Hb]; [lia|].
  exists r, g, b. repeat split; try assumption.
  unfold decodeRGBPixel. fold (rgbIndex w x y).
  destruct (Nat.leb_spec (length frame) (rgbIndex w x y + 2)) as [Hle|_];
    [lia|].
  rewrite Hr, Hg, Hb. reflexivity.
Qed.

Lemma decodeRGBPixel_outside frame w y x img :
  (length frame <= rgbIndex w x y + 2)%nat ->
  decodeRGBPixel frame w y x img = Some img.
Proof.
  intros Hout. unfold decodeRGBPixel. fold (rgbIndex w x y).
  destruct (Nat.leb_spec (length frame) (rgbIndex w x y + 2)) as [_|Hlt];
    [reflexivity | lia].
Qed.

Lemma int64_small v : (0 <= v < 2 ^ 63)%Z -> int64 v = v.
Proof.
  intros Hv. unfold int64. rewrite Z.mod_small by lia.
  destruct (Z.ltb_spec v (2 ^ 63)); [reflexivity | lia].
Qed.

Lemma uint64_small v : (0 <= v < 2 ^ 64)%Z -> uint64 v = v.
Proof. intros Hv. unfold uint64. now rewrite Z.mod_small by lia. Qed.

Lemma mul3NonNeg_fits x y z :
  (0 <= x)%Z -> (0 <= y)%Z -> (0 <= z)%Z ->
  (x * y < 2 ^ 64)%Z -> (x * y * z < 2 ^ 63)%Z ->
  mul3NonNeg x y z = (x * y * z)%Z.
Proof.
  intros Hx Hy Hz Hxy Hxyz. unfold mul3NonNeg.
  destruct (Z.ltb_spec x 0), (Z.ltb_spec y 0), (Z.ltb_spec z 0); try lia.
  cbn [orb].
  destruct (Z.leb_spec (2 ^ 64) (x * y)); [lia|].
  destruct (Z.leb_spec (2 ^ 64) (x * y * z)); [lia|].
  destruct (Z.leb_spec (2 ^ 63) (x * y * z)); [lia | reflexivity].
Qed.

Lemma mul3NonNeg_overflow x y z :
  (0 <= x)%Z -> (0 <= y)%Z -> (0 <= z)%Z -> (2 ^ 63 <= x * y * z)%Z ->
  mul3NonNeg x y z = (-1)%Z.
Proof.
  intros Hx Hy Hz Hbig. unfold mul3NonNeg.
  destruct (Z.ltb_spec x 0), (Z.ltb_spec y 0), (Z.ltb_spec z 0); try lia.
  cbn [orb].
  destruct (Z.leb_spec (2 ^ 64) (x * y)); [reflexivity|].
  destruct (Z.leb_spec (2 ^ 64) (x * y * z)); [reflexivity|].
  destruct (Z.leb_spec (2 ^ 63) (x * y * z)); [reflexivity | lia].
Qed.

(** For a size that fits, the checked constructor gives the image of
    that size. *)
Lemma NewRGBARect_fits w h :
  fitsRGBA w h ->
  NewRGBARect (int64 (Z.of_nat w)) (int64 (Z.of_nat h)) = Some (NewRGBA w h).
Proof.
  intros (Hw & Hh & Hwh).
  rewrite !int64_small by lia. unfold NewRGBARect.
  rewrite !Z.max_r, !Z.min_l, !Z.sub_0_r by lia.
  rewrite !int64_small by lia.
  rewrite mul3NonNeg_fits by lia.
  destruct (Z.ltb_spec (4 * Z.of_nat w * Z.of_nat h) 0); [lia|].
  unfold NewRGBA. rewrite <- Nat2Z.inj_mul, !Nat2Z.id. reflexivity.
Qed.

Lemma frameRGBToImage_fits frame w h :
  fitsRGBA w h ->
  frameRGBToImage frame w h
  = forM (seq 0 h) (fun y => forM (seq 0 w) (decodeRGBPixel frame w y))
         (NewRGBA w h).
Proof.
  intros Hfits. unfold frameRGBToImage.
  rewrite (NewRGBARect_fits w h Hfits).
  destruct Hfits as (Hw & Hh & _).
  rewrite !int64_small by lia. rewrite !Nat2Z.id. reflexivity.
Qed.

(** Beyond these sizes [image.NewRGBA] panics, whatever the buffer. *)
Lemma frameRGBToImage_overflow frame w h :
  (Z.of_nat w < 2 ^ 63)%Z -> (Z.of_nat h < 2 ^ 63)%Z ->
  (2 ^ 63 <= 4 * Z.of_nat w * Z.of_nat h)%Z ->
  frameRGBToImage frame w h = None.
Proof.
  intros Hw Hh Hbig. unfold frameRGBToImage.
  rewrite !int64_small by lia. unfold NewRGBARect.
  rewrite !Z.max_r, !Z.min_l, !Z.sub_0_r by lia.
  rewrite !int64_small by lia.
  rewrite mul3NonNeg_overflow by lia. reflexivity.
Qed.

(** So it does for a width of [2^62] or more, even with a height of
    0: [4*width] does not fit 64 bits. *)
Lemma frameRGBToImage_wide frame w h :
  (2 ^ 62 <= Z.of_nat w < 2 ^ 63)%Z -> (Z.of_nat h < 2 ^ 63)%Z ->
  frameRGBToImage frame w h = None.
Proof.
  intros Hw Hh. unfold frameRGBToImage.
  rewrite !int64_small by lia. unfold NewRGBARect.
  rewrite !Z.max_r, !Z.min_l, !Z.sub_0_r by lia.
  rewrite !int64_small by lia. unfold mul3NonNeg.
  destruct (Z.ltb_spec 4 0), (Z.ltb_spec (Z.of_nat w) 0),
           (Z.ltb_spec (Z.of_nat h) 0); try lia.
  cbn [orb].
  destruct (Z.leb_spec (2 ^ 64) (4 * Z.of_nat w)); [reflexivity | lia].
Qed.

Lemma frameRGBToImage_pixels frame w h :
  fitsRGBA w h ->
  exists img,
    frameRGBToImage frame w h = Some img /\ sized img w h /\
    forall x y, (x < w)%nat -> (y < h)%nat ->
                At img x y = rgbPixel frame w x y.
Proof.
  intros Hfits. rewrite (frameRGBToImage_fits frame w h Hfits).
  apply (pixel_loop (decodeRGBPixel frame w) (rgbPixel frame w)
           (NewRGBA w h) w h (NewRGBA_sized w h)).
  intros x y img Hx Hy Hs Hat0. rewrite NewRGBA_At in Hat0.
  destruct (Nat.le_gt_cases (length frame) (rgbIndex w x y + 2))
    as [Hout|Hin].
  - exists img. split; [now apply decodeRGBPixel_outside|].
    split; [exact Hs|]. split; [|reflexivity].
    rewrite Hat0. unfold rgbPixel.
    rewrite (lookup_ge_None_2 frame (rgbIndex w x y + 2)) by lia.
    repeat case_match; reflexivity.
  - destruct (decodeRGBPixel_inside frame w y x img _ eq_refl Hin)
      as (r & g & b & Hr & Hg & Hb & Hrun).
    exists (Set_ img x y (color.mkRGBA r g b 255)).
    split; [exact Hrun|].
    rewrite (Set_written img w h) by assumption. cbn.
    split; [now apply written_sized|]. split.
    + rewrite (written_At_same img w h) by assumption.
      unfold rgbPixel. now rewrite Hr, Hg, Hb.
    + intros x' y' Hx' Hy' Hne.
      now apply (written_At_other img w h).
Qed.

(** C8, as the code has it.  For a width and a height for which
    [image.NewRGBA] makes the image (the width below [2^62], the
    height below [2^63], and [4*width*height] below [2^63]),
    [frameRGBToImage] does not fail.  A pixel whose three bytes lie
    within the buffer is [(R, G, B, 255)] with those bytes; a pixel
    whose bytes fall outside is left at transparent black
    [(0, 0, 0, 0)].  In particular a buffer of at least
    [width*height*3] bytes made of the triple [(255, 0, 0)] decodes
    to the image with every pixel [(255, 0, 0, 255)]. *)
Theorem frameRGBToImage_spec (frame : list Z) (width height : nat) :
  fitsRGBA width height ->
  exists img,
    frameRGBToImage frame width height = Some img /\
    MaxX img = width /\ MaxY img = height /\
    length (Pix img) = (width * height)%nat /\
    (forall x y, (x < width)%nat -> (y < height)%nat ->
       let i := ((y * width + x) * 3)%nat in
       ((i + 2 < length frame)%nat ->
          exists r g b,
            frame !! i = Some r /\ frame !! (i + 1)%nat = Some g /\
            frame !! (i + 2)%nat = Some b /\
            At img x y = color.mkRGBA r g b 255) /\
       ((length frame <= i + 2)%nat -> At img x y = color.mkRGBA 0 0 0 0)) /\
    ((width * height * 3 <= length frame)%nat ->
     (forall k, (k < width * height)%nat ->
        frame !! (3 * k)%nat = Some 255%Z /\
        frame !! (3 * k + 1)%nat = Some 0%Z /\
        frame !! (3 * k + 2)%nat = Some 0%Z) ->
     forall x y, (x < width)%nat -> (y < height)%nat ->
                 At img x y = color.mkRGBA 255 0 0 255).
Proof.
  intros Hfits.
  destruct (frameRGBToImage_pixels frame width height Hfits)
    as (img & Hrun & (Hmx & Hmy & Hlen) & Hat).
  exists img. repeat (split; [assumption|]).
  assert (Hidx : forall x y, rgbIndex width x y = ((y * width + x) * 3)%nat)
    by (intros; unfold rgbIndex; lia).
  split.
  - intros x y Hx Hy i. rewrite (Hat x y Hx Hy). unfold rgbPixel.
    rewrite Hidx. fold i. split.
    + intros Hin.
      destruct (lookup_lt_is_Some_2 frame i) as [r Hr]; [lia|].
      destruct (lookup_lt_is_Some_2 frame (i + 1)) as [g Hg]; [lia|].
      destruct (lookup_lt_is_Some_2 frame (i + 2)) as [b Hb]; [lia|].
      exists r, g, b. rewrite Hr, Hg, Hb. repeat split.
    + intros Hout. rewrite (lookup_ge_None_2 frame (i + 2)) by lia.
      repeat case_match; reflexivity.
  - intros Hlen' Hred x y Hx Hy. rewrite (Hat x y Hx Hy). unfold rgbPixel.
    rewrite Hidx.
    pose proof (offset_lt width height x y Hx Hy) as Hk.
    replace (width * height)%nat with (height * width)%nat in Hred by lia.
    destruct (Hred (y * width + x)%nat) as (Hr & Hg & Hb); [lia|].
    replace (3 * (y * width + x))%nat with ((y * width + x) * 3)%nat
      in Hr, Hg, Hb by lia.
    now rewrite Hr, Hg, Hb.
Qed.

Lemma frameRGBToImage_spec_witness :
  exists img,
    frameRGBToImage [255; 0; 0; 255; 0; 0]%Z 2 1 = Some img /\
    At img 0 0 = color.mkRGBA 255 0 0 255 /\
    At img 1 0 = color.mkRGBA 255 0 0 255.
Proof.
  destruct (frameRGBToImage_spec [255; 0; 0; 255; 0; 0]%Z 2 1)
    as (img & Hrun & _ & _ & _ & _ & Hred).
  { repeat split; cbn; lia. }
  exists img. split; [exact Hrun|].
  assert (Hall : forall x y, (x < 2)%nat -> (y < 1)%nat ->
                             At img x y = color.mkRGBA 255 0 0 255).
  { apply Hred; [cbn; lia|].
    intros k Hk. destruct k as [|[|k]]; [repeat split.. | cbn in Hk; lia]. }
  split; apply Hall; lia.
Defined.

(** C8, as stated, fails.  With a width of 6148914691236517206 and a
    height of 1 the frame size [int(width*height*3)] wraps around to
    2, so [run] reads frames of two bytes.  The three bytes of pixel
    [(0, 0)] do not lie within such a frame, and yet the pixel is not
    left at transparent black: the decode fails, because [4*width]
    does not fit an [int] and [image.NewRGBA] panics. *)
Lemma frameRGBToImage_huge_width_counterexample :
  frameSizeRGB (Z.to_nat 6148914691236517206) 1 = 2%Z /\
  (length [0; 0]%Z <= (0 * Z.to_nat 6148914691236517206 + 0) * 3 + 2)%nat /\
  frameRGBToImage [0; 0]%Z (Z.to_nat 6148914691236517206) 1 = None.
Proof.
  split; [|split].
  - unfold frameSizeRGB. rewrite Z2Nat.id by lia. reflexivity.
  - cbn [length]. lia.
  - apply frameRGBToImage_overflow; rewrite ?Z2Nat.id by lia; cbn; lia.
Qed.

End RGBDecoder.

(** ** [greenscreen] *)

Section GreenscreenFacts.
Import image.
Variable LabDistance : color.RGBA -> color.RGBA -> F64.float64.

Lemma maskPixel_MaxX bg dist y x img :
  MaxX (maskPixel LabDistance bg dist y x img) = MaxX img.
Proof.
  unfold maskPixel, Set_. repeat case_match; reflexivity.
Qed.

Lemma maskRow_MaxX bg dist y idx img :
  MaxX (foldl (fun img x => maskPixel LabDistance bg dist y x img) img idx)
  = MaxX img.
Proof.
  revert img. induction idx as [|x idx IH]; intros img; [reflexivity|].
  cbn. rewrite IH. apply maskPixel_MaxX.
Qed.

(** The two loops of [greenscreen], with the bounds read once. *)
Lemma greenscreen_loops img bg dist w h :
  MaxX img = w -> MaxY img = h ->
  Some (greenscreen LabDistance img (Some bg) dist) =
  forM (seq 0 h)
    (fun y => forM (seq 0 w)
       (fun x img => Some (maskPixel LabDistance bg dist y x img))) img.
Proof.
  intros Hw Hh. unfold greenscreen. rewrite Hh. clear Hh.
  rewrite (forM_ext _
    (fun y img => Some (foldl (fun img x => maskPixel LabDistance bg dist y x img)
                              img (seq 0 w)))) by (intros; apply forM_pure).
  rewrite forM_pure. f_equal.
  revert img Hw. generalize (seq 0 h) as rows.
  induction rows as [|y rows IH]; intros img Hw; [reflexivity|].
  cbn. rewrite Hw. apply IH. rewrite maskRow_MaxX. exact Hw.
Qed.

(** C3, as the code has it.  Where the Lab distance between the
    pixel of the current image and the pixel of the background
    sample is below the threshold, [greenscreen] replaces the pixel
    by transparent black, all four channels zero; where the distance
    is not below the threshold the pixel is left as it was.  The size
    of the image does not change. *)
Theorem greenscreen_masks_to_transparent_black
    (img bg : RGBA) (dist : F64.float64) (w h : nat) :
  sized img w h ->
  let out := greenscreen LabDistance img (Some bg) dist in
  sized out w h /\
  forall x y, (x < w)%nat -> (y < h)%nat ->
    At out x y =
      if F64.ltb (LabDistance (At img x y) (At bg x y)) dist
      then color.mkRGBA 0 0 0 0
      else At img x y.
Proof.
  intros Hs out.
  destruct (pixel_loop
    (fun y x img => Some (maskPixel LabDistance bg dist y x img))
    (fun x y => if F64.ltb (LabDistance (At img x y) (At bg x y)) dist
                then color.mkRGBA 0 0 0 0 else At img x y)
    img w h Hs) as (img' & Hrun & Hs' & Hat).
  - intros x y cur Hx Hy Hcur Hsame.
    exists (maskPixel LabDistance bg dist y x cur).
    split; [reflexivity|]. unfold maskPixel. rewrite Hsame.
    destruct (F64.ltb _ dist).
    + rewrite (Set_written cur w h) by assumption.
      split; [now apply written_sized|]. split.
      * now rewrite (written_At_same cur w h).
      * intros x' y' Hx' Hy' Hne. now apply (written_At_other cur w h).
    + split; [exact Hcur|]. split; [exact Hsame | reflexivity].
  - destruct Hs as (Hw & Hh & Hl).
    rewrite <- (greenscreen_loops img bg dist w h Hw Hh) in Hrun.
    injection Hrun as <-. split; [exact Hs' | exact Hat].
Qed.

(** Whatever the distance function, a pixel that the test finds close
    to the background loses its colour channels with its alpha. *)
Lemma greenscreen_close_pixel_is_zeroed
    (c b : color.RGBA) (dist : F64.float64) :
  F64.ltb (LabDistance c b) dist = true ->
  At (greenscreen LabDistance (onePixel c) (Some (onePixel b)) dist) 0 0
  = color.mkRGBA 0 0 0 0.
Proof.
  intros Hclose. unfold greenscreen, maskPixel. cbn. now rewrite Hclose.
Qed.

End GreenscreenFacts.

Section GreenscreenExamples.
Import image.

Lemma greenscreen_masks_to_transparent_black_witness :
  let out := greenscreen sqDistance (onePixel redPixel)
               (Some (onePixel redPixel)) defaultThreshold in
  sized out 1 1 /\
  forall x y, (x < 1)%nat -> (y < 1)%nat ->
    At out x y =
      if F64.ltb (sqDistance (At (onePixel redPixel) x y)
                             (At (onePixel redPixel) x y)) defaultThreshold
      then color.mkRGBA 0 0 0 0
      else At (onePixel redPixel) x y.
Proof.
  refine (greenscreen_masks_to_transparent_black sqDistance
            (onePixel redPixel) (onePixel redPixel) defaultThreshold 1 1 _).
  repeat split.
Defined.

(** C3, as stated, fails.  A red pixel in front of the same red
    background is at distance 0, below the default threshold 0.13;
    after [greenscreen] its red channel is 0, not 255. *)
Lemma greenscreen_keeps_rgb_counterexample :
  let img := onePixel redPixel in
  let out := greenscreen sqDistance img (Some img) defaultThreshold in
  F64.ltb (sqDistance (At img 0 0) (At img 0 0)) defaultThreshold = true /\
  At img 0 0 = color.mkRGBA 255 0 0 255 /\
  At out 0 0 = color.mkRGBA 0 0 0 0 /\
  At out 0 0 <> color.mkRGBA 255 0 0 0.
Proof. vm_compute. repeat split; discriminate. Qed.

End GreenscreenExamples.

(** ** [frameToImage] *)

Section YUYVDecoder.
Import image.

Lemma half_succ_double m : ((2 * m + 1) / 2 = m)%nat.
Proof.
  replace (2 * m + 1)%nat with (1 + m * 2)%nat by lia.
  rewrite Nat.div_add by lia. reflexivity.
Qed.

Lemma half_offset m x y : ((y * (2 * m) + x) / 2 = y * m + x / 2)%nat.
Proof.
  replace (y * (2 * m) + x)%nat with (x + (y * m) * 2)%nat by lia.
  rewrite Nat.div_add by lia. lia.
Qed.

Lemma unpackYUYV_step frame m h i yuyv :
  length frame = (2 * m * h * 2)%nat -> (i < m * h)%nat ->
  unpacked frame m h i yuyv ->
  exists yuyv', unpackYUYV frame i yuyv = Some yuyv' /\
                unpacked frame m h (S i) yuyv'.
Proof.
  intros Hlen Hi (HY & HCb & HCr & HYs & HCs & Hmx & Hmy & HYv & HCv).
  destruct (lookup_lt_is_Some_2 frame (i * 4)) as [y0 Hy0]; [lia|].
  destruct (lookup_lt_is_Some_2 frame (i * 4 + 2)) as [y1 Hy1]; [lia|].
  destruct (lookup_lt_is_Some_2 frame (i * 4 + 1)) as [u Hu]; [lia|].
  destruct (lookup_lt_is_Some_2 frame (i * 4 + 3)) as [v Hv]; [lia|].
  eexists. split.
  - unfold unpackYUYV. rewrite Hy0. cbn.
    rewrite store_Some by lia. cbn. rewrite Hy1. cbn.
    rewrite store_Some by (rewrite length_insert; lia). cbn.
    rewrite Hu. cbn. rewrite store_Some by lia. cbn.
    rewrite Hv. cbn. rewrite store_Some by lia. cbn. reflexivity.
  - unfold unpacked. cbn. rewrite !length_insert.
    repeat (split; [assumption|]). split.
    + intros k Hk.
      destruct (decide (k = i * 2 + 1)%nat) as [->|Hn1].
      { rewrite list_lookup_insert_eq by (rewrite length_insert; lia).
        rewrite <- Hy1. f_equal. lia. }
      rewrite list_lookup_insert_ne by lia.
      destruct (decide (k = i * 2)%nat) as [->|Hn0].
      { rewrite list_lookup_insert_eq by lia.
        rewrite <- Hy0. f_equal. lia. }
      rewrite list_lookup_insert_ne by lia. apply HYv. lia.
    + intros j Hj.
      destruct (decide (j = i)) as [->|Hne].
      { rewrite !list_lookup_insert_eq by lia.
        rewrite <- Hu, <- Hv. split; f_equal; lia. }
      rewrite !list_lookup_insert_ne by lia. apply HCv. lia.
Qed.

Lemma unpack_loop frame m h :
  length frame = (2 * m * h * 2)%nat ->
  exists yuyv,
    forM (seq 0 (length (Cb (NewYCbCr422 (2 * m) h)))) (unpackYUYV frame)
         (NewYCbCr422 (2 * m) h) = Some yuyv /\
    unpacked frame m h (m * h) yuyv.
Proof.
  intros Hlen.
  assert (HCb : length (Cb (NewYCbCr422 (2 * m) h)) = (m * h)%nat).
  { cbv beta iota zeta delta [NewYCbCr422 Cb].
    rewrite length_replicate, half_succ_double. reflexivity. }
  rewrite HCb.
  apply (forM_seq_inv (unpacked frame m h)).
  - unfold unpacked.
    cbv beta iota zeta delta
      [NewYCbCr422 Y Cb Cr YStride CStride yMaxX yMaxY].
    rewrite !length_replicate, half_succ_double.
    repeat (split; [reflexivity|]). split; intros; lia.
  - intros i yuyv Hi Hinv. now apply unpackYUYV_step.
Qed.


Lemma frameToImage_pixels frame m h :
  length frame = (2 * m * h * 2)%nat ->
  exists img,
    frameToImage frame (2 * m) h = Some img /\ sized img (2 * m) h /\
    forall x y, (x < 2 * m)%nat -> (y < h)%nat ->
                At img x y = yuyvPixel frame (2 * m) x y.
Proof.
  intros Hlen.
  destruct (unpack_loop frame m h Hlen) as (yuyv & Hrun & Hinv).
  unfold frameToImage. rewrite Hrun. cbn.
  destruct Hinv as (HY & HCb & HCr & HYs & HCs & Hmx & Hmy & HYv & HCv).
  rewrite Hmx, Hmy. unfold draw.DrawYCbCr.
  change (MaxY (NewRGBA (2 * m) h)) with h.
  change (MaxX (NewRGBA (2 * m) h)) with (2 * m)%nat.
  apply (pixel_loop (draw.drawPixel yuyv) (yuyvPixel frame (2 * m))
           (NewRGBA (2 * m) h) (2 * m) h (NewRGBA_sized _ _)).
  intros x y img Hx Hy Hs _.
  pose proof (offset_lt (2 * m) h x y Hx Hy) as Hp.
  assert (Hx2 : (x / 2 < m)%nat) by (apply Nat.Div0.div_lt_upper_bound; lia).
  pose proof (offset_lt m h (x / 2) y Hx2 Hy) as Hc.
  destruct (lookup_lt_is_Some_2 (Y yuyv) (y * (2 * m) + x)) as [yy Hyy];
    [lia|].
  destruct (lookup_lt_is_Some_2 (Cb yuyv) (y * m + x / 2)) as [cb Hcb];
    [lia|].
  destruct (lookup_lt_is_Some_2 (Cr yuyv) (y * m + x / 2)) as [cr Hcr];
    [lia|].
  exists (written img x y (draw.YCbCrToRGBA yy cb cr)). split.
  - unfold draw.drawPixel. rewrite HYs, HCs, Hyy, Hcb, Hcr. cbn.
    destruct Hs as (Hw & Hh & Hl).
    rewrite store_Some by (unfold PixOffset; rewrite Hl, Hw; lia).
    reflexivity.
  - split; [now apply written_sized|]. split.
    + rewrite (written_At_same img (2 * m) h) by assumption.
      unfold yuyvPixel. rewrite half_offset.
      rewrite HYv in Hyy by lia.
      destruct (HCv (y * m + x / 2)%nat) as (HCb' & HCr'); [lia|].
      rewrite HCb' in Hcb. rewrite HCr' in Hcr.
      now rewrite Hyy, Hcb, Hcr.
    + intros x' y' Hx' Hy' Hne.
      now apply (written_At_other img (2 * m) h).
Qed.




(** With an odd width the chroma planes of [image.NewYCbCr] are half
    a pixel wider than the luma plane, and the unpacking loop runs
    off the end of [yuyv.Y]: the decoder faults. *)
Lemma frameToImage_odd_width_faults :
  frameToImage [16; 128]%Z 1 1 = None /\
  frameToImage [16; 128; 16; 128; 16; 128; 16; 128; 16; 128; 16; 128]%Z 3 2
  = None.
Proof. split; reflexivity. Qed.

End YUYVDecoder.

(** ** [imageToANSI] *)

Section ANSIFacts.
Import image termenv.
Context {TColor : Type}.
Variable p : color.rgba32 -> TColor.

(** The rows [for y := 0; y < limit; y += 2] visits. *)
Lemma loopFrom_done fuel from step limit :
  (limit <= from)%nat -> loopFrom fuel from step limit = [].
Proof.
  intros Hge. destruct fuel as [|fuel]; [reflexivity|]. cbn [loopFrom].
  now rewrite (proj2 (Nat.ltb_ge from limit) Hge).
Qed.

Lemma loopFrom_more fuel from step limit :
  (from < limit)%nat ->
  loopFrom (S fuel) from step limit
  = from :: loopFrom fuel (from + step) step limit.
Proof.
  intros Hlt. cbn [loopFrom].
  now rewrite (proj2 (Nat.ltb_lt from limit) Hlt).
Qed.

Lemma evens_shift from n :
  map (fun k => (from + 2 * k)%nat) (seq 1 n)
  = map (fun k => (from + 2 + 2 * k)%nat) (seq 0 n).
Proof.
  rewrite <- fmap_S_seq, <- list_fmap_compose.
  apply list_fmap_ext. intros _ k _. cbn. lia.
Qed.

Lemma loopFrom_even n : forall fuel from,
  (n <= fuel)%nat ->
  loopFrom fuel from 2 (from + 2 * n)
  = map (fun k => (from + 2 * k)%nat) (seq 0 n).
Proof.
  induction n as [|n IH]; intros fuel from Hfuel.
  - apply loopFrom_done. lia.
  - destruct fuel as [|fuel]; [lia|].
    rewrite loopFrom_more by lia.
    replace (from + 2 * S n)%nat with (from + 2 + 2 * n)%nat by lia.
    rewrite IH by lia.
    change (seq 0 (S n)) with (0%nat :: seq 1 n).
    cbn [map]. rewrite evens_shift. f_equal. lia.
Qed.

Lemma loopFrom_odd n : forall fuel from,
  (S n <= fuel)%nat ->
  loopFrom fuel from 2 (from + 2 * n + 1)
  = map (fun k => (from + 2 * k)%nat) (seq 0 (S n)).
Proof.
  induction n as [|n IH]; intros fuel from Hfuel.
  - destruct fuel as [|fuel]; [lia|].
    rewrite loopFrom_more by lia. rewrite loopFrom_done by lia.
    cbn [seq map]. f_equal. lia.
  - destruct fuel as [|fuel]; [lia|].
    rewrite loopFrom_more by lia.
    replace (from + 2 * S n + 1)%nat with (from + 2 + 2 * n + 1)%nat by lia.
    rewrite IH by lia.
    change (seq 0 (S (S n))) with (0%nat :: seq 1 (S n)).
    cbn [map]. rewrite evens_shift. f_equal. lia.
Qed.

Lemma ansi_rows (H : nat) :
  loopFrom H 0 2 H = map (fun k => (2 * k)%nat) (seq 0 ((H + 1) / 2)).
Proof.
  destruct (Nat.Even_or_Odd H) as [[n ->]|[n ->]].
  - replace ((2 * n + 1) / 2)%nat with n by (symmetry; apply half_succ_double).
    pose proof (loopFrom_even n (2 * n) 0 (Nat.le_add_r n _)) as E.
    cbn [Nat.add] in E. exact E.
  - replace ((2 * n + 1 + 1) / 2)%nat with (S n).
    + assert (Hfuel : (S n <= 2 * n + 1)%nat) by lia.
      pose proof (loopFrom_odd n (2 * n + 1) 0 Hfuel) as E.
      cbn [Nat.add] in E. exact E.
    + replace (2 * n + 1 + 1)%nat with (0 + (S n) * 2)%nat by lia.
      now rewrite Nat.div_add by lia.
Qed.

Lemma foldl_snoc_map {X Y'} (f : X -> Y') (l : list X) (acc : list Y') :
  foldl (fun str x => str ++ [f x]) acc l = acc ++ map f l.
Proof.
  revert acc. induction l as [|x l IH]; intros acc; cbn.
  - now rewrite app_nil_r.
  - rewrite IH, <- app_assoc. reflexivity.
Qed.

Lemma ansi_fold img (rows : list nat) : forall acc,
  foldl (fun str y =>
           foldl (fun str x => str ++ [ansiCell p img x y])
                 str (seq 0 (MaxX img)) ++ [LineBreak]) acc rows
  = acc ++ concat (map (fun y => map (fun x => Styled (ansiStyle p img x y))
                                     (seq 0 (MaxX img)) ++ [LineBreak]) rows).
Proof.
  induction rows as [|y rows IH]; intros acc; cbn [foldl map concat].
  - now rewrite app_nil_r.
  - rewrite IH, foldl_snoc_map, <- !app_assoc. reflexivity.
Qed.

Lemma imageToANSI_rows img :
  imageToANSI p img =
  concat (map (fun y => map (fun x => Styled (ansiStyle p img x y))
                            (seq 0 (MaxX img)) ++ [LineBreak])
              (loopFrom (MaxY img) 0 2 (MaxY img))).
Proof. unfold imageToANSI. now rewrite ansi_fold. Qed.

Lemma linesFrom_row {X} (f : X -> Style TColor) (xs : list X) cur rest :
  linesFrom cur (map (fun x => Styled (f x)) xs ++ LineBreak :: rest)
  = (cur ++ map f xs) :: linesFrom [] rest.
Proof.
  revert cur. induction xs as [|x xs IH]; intros cur; cbn.
  - now rewrite app_nil_r.
  - rewrite IH, <- app_assoc. reflexivity.
Qed.

Lemma lines_rows {X} (f : nat -> X -> Style TColor) (xs : list X)
    (ys : list nat) :
  lines (concat (map (fun y => map (fun x => Styled (f y x)) xs
                               ++ [LineBreak]) ys))
  = map (fun y => map (f y) xs) ys.
Proof.
  unfold lines. induction ys as [|y ys IH]; [reflexivity|].
  cbn [map concat]. rewrite <- app_assoc. cbn [app].
  rewrite linesFrom_row, IH. reflexivity.
Qed.

(** The text lines of the half-block output, for any image. *)
Lemma imageToANSI_lines img :
  lines (imageToANSI p img) =
  map (fun k => map (fun x => ansiStyle p img x (2 * k)) (seq 0 (MaxX img)))
      (seq 0 ((MaxY img + 1) / 2)).
Proof.
  rewrite imageToANSI_rows, ansi_rows.
  rewrite (lines_rows (fun y x => ansiStyle p img x y)).
  apply List.map_map.
Qed.

Lemma ansi_line_cell img k x :
  (k < (MaxY img + 1) / 2)%nat -> (x < MaxX img)%nat ->
  exists line,
    lines (imageToANSI p img) !! k = Some line /\
    length line = MaxX img /\
    line !! x = Some (ansiStyle p img x (2 * k)).
Proof.
  intros Hk Hx. rewrite imageToANSI_lines. eexists. split.
  - rewrite list_lookup_fmap, lookup_seq_lt by assumption. reflexivity.
  - split; [now rewrite length_map, length_seq|].
    rewrite list_lookup_fmap, lookup_seq_lt by assumption. reflexivity.
Qed.

(** C7.  For an image of even height [H] and width [W] the half-block
    output has exactly [H/2] text lines of [W] cells, and the cell in
    column [x] of line [k] has the colour of pixel [(x, 2k)] as
    foreground and the colour of pixel [(x, 2k+1)] as background. *)
Theorem imageToANSI_even_height (img : RGBA) :
  Nat.Even (MaxY img) ->
  length (lines (imageToANSI p img)) = (MaxY img / 2)%nat /\
  forall k x, (k < MaxY img / 2)%nat -> (x < MaxX img)%nat ->
    exists line,
      lines (imageToANSI p img) !! k = Some line /\
      length line = MaxX img /\
      line !! x =
        Some (mkStyle halfBlock
                (Some (FromColor p (At img x (2 * k))))
                (Some (FromColor p (At img x (2 * k + 1))))).
Proof.
  intros [n Hn].
  assert (Hhalf : ((MaxY img + 1) / 2 = MaxY img / 2)%nat).
  { rewrite Hn, half_succ_double.
    replace (2 * n)%nat with (0 + n * 2)%nat by lia.
    now rewrite Nat.div_add by lia. }
  split.
  - rewrite imageToANSI_lines, length_map, length_seq. exact Hhalf.
  - intros k x Hk Hx. apply ansi_line_cell; [|exact Hx].
    now rewrite Hhalf.
Qed.

(** C10.  The half-block renderer is defined for every image height
    [H], odd ones included: it produces [ceil(H/2)] text lines, and
    when [H] is odd every cell of the last line takes its background
    from [(x, H)], outside the image, where [At] yields the zero
    colour, transparent black. *)
Theorem imageToANSI_any_height (img : RGBA) :
  length (lines (imageToANSI p img)) = ((MaxY img + 1) / 2)%nat /\
  (Nat.Odd (MaxY img) ->
   forall x, (x < MaxX img)%nat ->
     exists line,
       lines (imageToANSI p img) !! ((MaxY img + 1) / 2 - 1)%nat
         = Some line /\
       length line = MaxX img /\
       line !! x =
         Some (mkStyle halfBlock
                 (Some (FromColor p (At img x (MaxY img - 1))))
                 (Some (FromColor p (At img x (MaxY img))))) /\
       At img x (MaxY img) = color.mkRGBA 0 0 0 0).
Proof.
  split.
  - now rewrite imageToANSI_lines, length_map, length_seq.
  - intros [n Hn] x Hx.
    assert (Hrows : ((MaxY img + 1) / 2 = S n)%nat).
    { rewrite Hn. replace (2 * n + 1 + 1)%nat with (0 + (S n) * 2)%nat by lia.
      now rewrite Nat.div_add by lia. }
    destruct (ansi_line_cell img n x) as (line & Hline & Hlen & Hcell);
      [lia | exact Hx |].
    exists line. split; [|split; [exact Hlen|split]].
    + rewrite Hrows, <- Hline. f_equal. lia.
    + rewrite Hcell. unfold ansiStyle.
      replace (2 * n + 1)%nat with (MaxY img) by lia.
      replace (2 * n)%nat with (MaxY img - 1)%nat by lia. reflexivity.
    + unfold At, inRect. rewrite Nat.ltb_irrefl, andb_false_r. reflexivity.
Qed.

End ANSIFacts.

Lemma imageToANSI_even_height_witness :
  length (termenv.lines (imageToANSI id (image.NewRGBA 3 4))) = (4 / 2)%nat /\
  forall k x, (k < 4 / 2)%nat -> (x < 3)%nat ->
    exists line,
      termenv.lines (imageToANSI id (image.NewRGBA 3 4)) !! k = Some line /\
      length line = 3%nat /\
      line !! x =
        Some (termenv.mkStyle halfBlock
                (Some (FromColor id (image.At (image.NewRGBA 3 4) x (2 * k))))
                (Some (FromColor id
                         (image.At (image.NewRGBA 3 4) x (2 * k + 1))))).
Proof.
  refine (imageToANSI_even_height id (image.NewRGBA 3 4) _).
  exists 2%nat. reflexivity.
Defined.

Lemma imageToANSI_any_height_witness :
  length (termenv.lines (imageToANSI id (image.NewRGBA 2 3))) = 2%nat /\
  exists line,
    termenv.lines (imageToANSI id (image.NewRGBA 2 3)) !! 1%nat = Some line /\
    image.At (image.NewRGBA 2 3) 0 3 = color.mkRGBA 0 0 0 0.
Proof.
  destruct (imageToANSI_any_height id (image.NewRGBA 2 3)) as [Hlen Hodd].
  split; [exact Hlen|].
  destruct (Hodd (ex_intro _ 1%nat eq_refl) 0%nat) as (line & Hline & _ & _ & Hz).
  - cbn. lia.
  - exists line. split; [exact Hline | exact Hz].
Defined.

(** ** Readers *)

Section PipeFacts.
Import io.

Lemma pipeRead_some arr cl n :
  (0 < n)%nat -> concat arr <> [] ->
  exists bs p', pipeRead arr cl n = (bs, None, p') /\ bs <> [] /\
    (length bs <= n)%nat /\ concat arr = bs ++ concat (arrivals p') /\
    closing p' = cl.
Proof.
  intros Hn. induction arr as [|c rest IH]; intros Hne; [done|].
  destruct c as [|b c]; [apply IH, Hne|].
  cbn [pipeRead]. eexists _, _. split; [reflexivity|].
  destruct n as [|n]; [lia|]. repeat split.
  - discriminate.
  - rewrite length_take. lia.
  - cbn [concat arrivals].
    rewrite <- (take_drop (S n) (b :: c)) at 1. rewrite <- app_assoc.
    f_equal. destruct (drop (S n) (b :: c)); reflexivity.
Qed.

Lemma pipeRead_end arr cl n :
  concat arr = [] -> pipeRead arr cl n = ([], Some cl, mkPipe [] cl).
Proof.
  induction arr as [|c rest IH]; intros Hnil; [reflexivity|].
  destruct c as [|b c]; [apply IH, Hnil | discriminate].
Qed.

#[global] Program Instance Pipe_Stream : Stream Pipe := {|
  valid _ := True;
  content f := concat (arrivals f);
  ending f := closing f |}.
Next Obligation.
  intros r n _ Hn Hne. destruct n as [|n]; [lia|].
  destruct (pipeRead_some (arrivals r) (closing r) (S n) Hn Hne)
    as (bs & p' & Hread & Hbs & Hlen & Hcat & Hcl).
  exists bs, p'. repeat split; assumption.
Qed.
Next Obligation.
  intros r n _ Hn Hnil. destruct n as [|n]; [lia|].
  exists (mkPipe [] (closing r)). repeat split.
  apply (pipeRead_end (arrivals r) (closing r) (S n) Hnil).
Qed.

End PipeFacts.

Section BufioFacts.
Import io.
Context {R : Type} `{Stream R}.

#[global] Program Instance bufio_Stream : Stream (bufio.Reader R) := {|
  valid b := valid (bufio.rd b) /\ bufio.err b = None;
  content b := bufio.buf b ++ content (bufio.rd b);
  ending b := ending (bufio.rd b) |}.
Next Obligation.
  intros [bf r e sz] n [Hv He] Hn Hne. cbn in *. subst e.
  destruct n as [|n]; [lia|]. unfold Read, bufio.Reader_Reader, bufio.Read.
  cbn [bufio.buf bufio.err bufio.rd bufio.size].
  destruct bf as [|b bf].
  - cbn in Hne.
    destruct (Nat.leb_spec sz (S n)) as [Hle|Hgt].
    + destruct (read_some r (S n) Hv Hn Hne)
        as (bs & r' & Hread & Hbs & Hlen & Hcat & Hend & Hv').
      rewrite Hread. exists bs, (bufio.mkReader [] r' None sz).
      repeat split; assumption.
    + destruct (read_some r sz Hv ltac:(lia) Hne)
        as (bs & r' & Hread & Hbs & Hlen & Hcat & Hend & Hv').
      rewrite Hread. destruct bs as [|b bs]; [done|].
      eexists _, _. split; [reflexivity|]. cbn. repeat split.
      * discriminate.
      * rewrite length_take. lia.
      * rewrite Hcat. cbn. f_equal.
        rewrite <- (take_drop n bs) at 1. now rewrite <- app_assoc.
      * exact Hend.
      * exact Hv'.
  - eexists _, _. split; [reflexivity|]. cbn. repeat split.
    + discriminate.
    + rewrite length_take. lia.
    + f_equal. rewrite <- (take_drop n bf) at 1. now rewrite <- app_assoc.
    + exact Hv.
Qed.
Next Obligation.
  intros [bf r e sz] n [Hv He] Hn Hnil. cbn in *. subst e.
  apply app_eq_nil in Hnil as [-> Hnil].
  destruct n as [|n]; [lia|]. unfold Read, bufio.Reader_Reader, bufio.Read.
  cbn [bufio.buf bufio.err bufio.rd bufio.size].
  destruct (Nat.leb_spec sz (S n)) as [Hle|Hgt].
  - destruct (read_end r (S n) Hv Hn Hnil) as (r' & Hread & Hc & He & Hv').
    rewrite Hread. eexists. split; [reflexivity|]. cbn. repeat split;
      assumption.
  - destruct (read_end r sz Hv ltac:(lia) Hnil) as (r' & Hread & Hc & He & Hv').
    rewrite Hread. eexists. split; [reflexivity|]. cbn. repeat split;
      assumption.
Qed.

Lemma NewReader_valid (r : R) :
  valid r -> valid (bufio.NewReader r) /\
             content (bufio.NewReader r) = content r /\
             ending (bufio.NewReader r) = ending r.
Proof. intros Hv. repeat split; assumption. Qed.

End BufioFacts.

(** ** [io.ReadFull] and the loop of [run] *)

Section ReadFullFacts.
Import io.
Context {R : Type} `{Stream R}.

(** The loop of [ReadAtLeast] on a stream: it stops with the buffer
    full, or with the stream used up and its final error. *)
Lemma readLoop_stream (size : nat) : forall fuel (r : R) (buf : list Z),
  valid r ->
  let k := (size - length buf)%nat in
  let c := content r in
  (k <= fuel)%nat ->
  (k <= length c)%nat ->
  exists r',
    readLoop fuel r size size buf = Some (buf ++ take k c, None, r') /\
    content r' = drop k c /\ ending r' = ending r /\ valid r'.
Proof.
  induction fuel as [|fuel IH]; intros r buf Hv k c Hfuel Hk.
  - assert (Hk0 : k = 0%nat) by lia. rewrite Hk0. cbn [readLoop].
    destruct (Nat.ltb_spec (length buf) size) as [Hlt|_]; [lia|].
    exists r. rewrite app_nil_r. repeat split; assumption.
  - cbn [readLoop].
    destruct (Nat.ltb_spec (length buf) size) as [Hlt|Hge].
    + fold k. assert (Hne : content r <> []).
      { fold c. intros Hnil. rewrite Hnil in Hk. cbn in Hk. lia. }
      destruct (read_some r k Hv ltac:(lia) Hne)
        as (bs & r1 & Hread & Hbs & Hlen & Hcat & Hend & Hv1).
      rewrite Hread.
      destruct (IH r1 (buf ++ bs) Hv1) as (r' & Hrun & Hc' & He' & Hv').
      * rewrite length_app. destruct bs; [done|]. cbn [length]. lia.
      * fold c in Hcat. rewrite Hcat, length_app in Hk.
        rewrite length_app. lia.
      * assert (Hk' : (size - length (buf ++ bs) = k - length bs)%nat)
          by (rewrite length_app; lia).
        rewrite Hk' in Hrun, Hc'.
        exists r'. rewrite Hrun. fold c in Hcat.
        repeat split; try assumption.
        -- rewrite Hcat, firstn_app, (take_ge bs k) by lia.
           now rewrite app_assoc.
        -- rewrite Hc', Hcat, skipn_app, (drop_ge bs k) by lia.
           reflexivity.
        -- congruence.
    + assert (Hk0 : k = 0%nat) by lia. rewrite Hk0.
      exists r. rewrite app_nil_r. repeat split; assumption.
Qed.

Lemma readLoop_stream_short (size : nat) : forall fuel (r : R) (buf : list Z),
  valid r ->
  let k := (size - length buf)%nat in
  let c := content r in
  (length c < fuel)%nat ->
  (length c < k)%nat ->
  exists r',
    readLoop fuel r size size buf = Some (buf ++ c, Some (ending r), r') /\
    content r' = [] /\ ending r' = ending r /\ valid r'.
Proof.
  induction fuel as [|fuel IH]; intros r buf Hv k c Hfuel Hk; [lia|].
  cbn [readLoop].
  destruct (Nat.ltb_spec (length buf) size) as [Hlt|Hge]; [|lia].
  fold k. destruct (content r) as [|b c'] eqn:Hc.
  - destruct (read_end r k Hv ltac:(lia) Hc) as (r' & Hread & Hc' & He' & Hv').
    rewrite Hread. exists r'. subst c. repeat split; assumption.
  - destruct (read_some r k Hv ltac:(lia)) as
      (bs & r1 & Hread & Hbs & Hlen & Hcat & Hend & Hv1); [congruence|].
    rewrite Hread. rewrite Hc in Hcat. subst c.
    assert (Hl : length (b :: c') = (length bs + length (content r1))%nat)
      by now rewrite Hcat, length_app.
    destruct (IH r1 (buf ++ bs) Hv1) as (r' & Hrun & Hc' & He' & Hv').
    + destruct bs; [done|]. cbn [length] in *. lia.
    + rewrite length_app. cbn [length] in *. lia.
    + exists r'. rewrite Hrun, Hcat, <- app_assoc.
      repeat split; try assumption; congruence.
Qed.

(** [io.ReadFull] with enough bytes left: exactly [size] bytes, the
    next ones of the stream, and no error. *)
Lemma ReadFull_frame fuel (r : R) size :
  valid r -> (size <= fuel)%nat -> (size <= length (content r))%nat ->
  exists r',
    ReadFull fuel r size = Some (take size (content r), None, r') /\
    content r' = drop size (content r) /\ ending r' = ending r /\ valid r'.
Proof.
  intros Hv Hfuel Hlen.
  destruct (readLoop_stream size fuel r [] Hv) as (r' & Hrun & Hrest);
    [cbn; lia..|].
  cbn [length app] in Hrun, Hrest. rewrite Nat.sub_0_r in Hrun, Hrest.
  exists r'. split; [|exact Hrest].
  unfold ReadFull, ReadAtLeast. rewrite Nat.ltb_irrefl, Hrun. cbn.
  rewrite length_take, Nat.min_l by lia.
  now rewrite Nat.leb_refl.
Qed.

(** [io.ReadFull] with fewer bytes left: the bytes there are, and
    the final error of the stream, [io.EOF] becoming
    [io.ErrUnexpectedEOF] if some byte was read. *)
Lemma ReadFull_short fuel (r : R) size :
  valid r -> (length (content r) < fuel)%nat ->
  (length (content r) < size)%nat ->
  exists r',
    ReadFull fuel r size
    = Some (content r,
            Some (if (0 <? length (content r))%nat
                     && bool_decide (ending r = EOF)
                  then ErrUnexpectedEOF else ending r), r').
Proof.
  intros Hv Hfuel Hlen.
  destruct (readLoop_stream_short size fuel r [] Hv) as (r' & Hrun & _);
    [cbn; lia..|].
  exists r'. unfold ReadFull, ReadAtLeast. rewrite Nat.ltb_irrefl, Hrun. cbn.
  destruct (Nat.leb_spec size (length (content r))) as [Hle|_]; [lia|].
  do 2 f_equal.
  destruct (length (content r)); [reflexivity|].
  rewrite !andb_true_l.
  destruct (decide (ending r = EOF)) as [He|He].
  - rewrite !bool_decide_eq_true_2; [reflexivity | exact He | congruence].
  - rewrite !bool_decide_eq_false_2; [reflexivity | exact He | congruence].
Qed.

End ReadFullFacts.

Section RunFacts.
Import io.
Context {R : Type} `{Stream R}.
Variable cancelled : nat -> bool.

Lemma decodeRGBPixel_defined frame w y x img :
  exists img', decodeRGBPixel frame w y x img = Some img'.
Proof.
  destruct (Nat.le_gt_cases (length frame) (rgbIndex w x y + 2))
    as [Hout|Hin].
  - exists img. now apply decodeRGBPixel_outside.
  - destruct (decodeRGBPixel_inside frame w y x img _ eq_refl Hin)
      as (r & g & b & _ & _ & _ & Hrun).
    eexists. exact Hrun.
Qed.

(** The two loops of [frameRGBToImage] never fault. *)
Lemma decodeRGB_loops_total frame w (n m : nat) img0 :
  exists img,
    forM (seq 0 n) (fun y => forM (seq 0 m) (decodeRGBPixel frame w y)) img0
    = Some img.
Proof.
  destruct (forM_seq_inv (fun _ _ => True)
    (fun y => forM (seq 0 m) (decodeRGBPixel frame w y)) n img0)
    as (img & Hrun & _).
  - exact I.
  - intros y img _ _.
    destruct (forM_seq_inv (fun _ _ => True)
      (decodeRGBPixel frame w y) m img) as (img' & Hrow & _).
    + exact I.
    + intros x img1 _ _.
      destruct (decodeRGBPixel_defined frame w y x img1) as (img2 & H2).
      exists img2. split; [exact H2 | exact I].
    + exists img'. split; [exact Hrow | exact I].
  - now exists img.
Qed.

(** Whether [frameRGBToImage] panics is decided by the size alone. *)
Lemma frameRGBToImage_dichotomy w h :
  (forall frame, exists img, frameRGBToImage frame w h = Some img) \/
  (forall frame, frameRGBToImage frame w h = None).
Proof.
  unfold frameRGBToImage.
  destruct (image.NewRGBARect (int64 (Z.of_nat w)) (int64 (Z.of_nat h)))
    as [img0|].
  - left. intros frame. cbn [mbind option_bind].
    apply decodeRGB_loops_total.
  - right. reflexivity.
Qed.

Lemma frameRGBToImage_total frame w h :
  fitsRGBA w h -> exists img, frameRGBToImage frame w h = Some img.
Proof.
  intros Hfits.
  destruct (frameRGBToImage_pixels frame w h Hfits) as (img & Hrun & _).
  now exists img.
Qed.

(** For a size that fits, the frame size is the product. *)
Lemma frameSizeRGB_fits w h :
  fitsRGBA w h -> frameSizeRGB w h = Z.of_nat (w * h * 3).
Proof.
  intros (Hw & Hh & Hwh). unfold frameSizeRGB.
  assert (Hpos : (0 <= Z.of_nat w * Z.of_nat h)%Z)
    by (apply Z.mul_nonneg_nonneg; lia).
  rewrite (uint64_small (Z.of_nat w * Z.of_nat h)) by lia.
  rewrite uint64_small, int64_small by lia. lia.
Qed.

Lemma gstRun_fits fuel (r : R) w h :
  fitsRGBA w h ->
  gstRun cancelled fuel r w h
  = gstLoop cancelled fuel 0 r w h (w * h * 3) [].
Proof.
  intros Hfits. unfold gstRun. rewrite (frameSizeRGB_fits w h Hfits).
  destruct (Z.ltb_spec (Z.of_nat (w * h * 3)) 0); [lia|].
  now rewrite Nat2Z.id.
Qed.

Lemma exit_of_short_read (e e' : error) (n : nat) :
  e' = (if (0 <? n)%nat && bool_decide (e = EOF)
        then ErrUnexpectedEOF else e) ->
  (if bool_decide (e' = EOF) || bool_decide (e' = ErrUnexpectedEOF)
   then ReturnNil else ReturnReadError e') = exitOn e.
Proof.
  intros ->. destruct e, (0 <? n)%nat; reflexivity.
Qed.

(** The loop on a stream of [k] frames of [size] bytes and [m] more
    bytes, with a decoder that does not panic. *)
Lemma gstLoop_stream (w h size : nat) :
  (forall frame, exists img, frameRGBToImage frame w h = Some img) ->
  forall k fuel tick (r : R) imgs m,
  valid r -> (0 < size)%nat ->
  length (content r) = (k * size + m)%nat -> (m < size)%nat ->
  (forall t, (tick <= t <= tick + k)%nat -> cancelled t = false) ->
  (k + size + 2 <= fuel)%nat ->
  exists new,
    gstLoop cancelled fuel tick r w h size imgs
    = Some (exitOn (ending r), imgs ++ new) /\
    length new = k /\
    forall j, (j < k)%nat ->
      frameRGBToImage (frameAt size j (content r)) w h = new !! j.
Proof.
  intros Hdec.
  induction k as [|k IH]; intros fuel tick r imgs m Hv Hsize Hlen Hm
    Hrun Hfuel; (destruct fuel as [|fuel]; [lia|]); cbn [gstLoop];
    rewrite (Hrun tick) by lia.
  - destruct (ReadFull_short fuel r size Hv) as (r' & Hread); [lia..|].
    remember (if (0 <? length (content r))%nat
                 && bool_decide (ending r = EOF)
              then ErrUnexpectedEOF else ending r) as e' eqn:He'.
    rewrite Hread. cbn.
    exists []. rewrite app_nil_r, <- (exit_of_short_read _ _ _ He').
    split; [|split; [reflexivity | intros j Hj; lia]].
    now destruct (bool_decide (e' = EOF) || bool_decide (e' = ErrUnexpectedEOF)).
  - destruct (ReadFull_frame fuel r size Hv) as (r' & Hread & Hc & He & Hv');
      [lia| nia |].
    rewrite Hread. cbn.
    destruct (Hdec (take size (content r))) as (img & Himg).
    rewrite Himg.
    destruct (IH fuel (S tick) r' (imgs ++ [img]) m Hv' Hsize)
      as (new & Hloop & Hnew & Hframes).
    + rewrite Hc, length_drop, Hlen. lia.
    + exact Hm.
    + intros t Ht. apply Hrun. lia.
    + lia.
    + exists (img :: new). rewrite Hloop, He.
      rewrite <- app_assoc. split; [reflexivity|].
      split; [cbn; now rewrite Hnew|].
      intros [|j] Hj.
      * unfold frameAt. cbn [Nat.mul drop lookup]. exact Himg.
      * change ((img :: new) !! S j) with (new !! j).
        rewrite <- Hframes by lia.
        unfold frameAt. rewrite Hc, drop_drop. do 3 f_equal; lia.
Qed.

(** C1, as the code has it.  The frame size [width*height*3] is
    positive, and the width and the height are such that
    [image.NewRGBA] makes the image ([4*width*height] below [2^63]),
    so that the frame size does not wrap around.  On a child-process
    stream of [k] whole frames followed by [m] more bytes, fewer than
    a frame, and as long as the context is not cancelled, the loop
    decodes exactly the [k] frames, each from the next
    [width*height*3] bytes of the stream, and then returns: with no
    error when the stream ends with end-of-file, whether at a frame
    boundary ([m = 0]) or partway through a frame ([m > 0]), and with
    the read error when the stream ends with any other error. *)
Theorem gst_loop_ends_with_stream (r : R) (w h k m fuel : nat) :
  valid r -> fitsRGBA w h -> (0 < w * h * 3)%nat ->
  length (content r) = (k * (w * h * 3) + m)%nat -> (m < w * h * 3)%nat ->
  (forall t, (t <= k)%nat -> cancelled t = false) ->
  (k + w * h * 3 + 2 <= fuel)%nat ->
  exists imgs,
    gstRun cancelled fuel r w h
    = Some (match ending r with
            | EOF | ErrUnexpectedEOF => ReturnNil
            | e => ReturnReadError e
            end, imgs) /\
    length imgs = k /\
    forall j, (j < k)%nat ->
      length (frameAt (w * h * 3) j (content r)) = (w * h * 3)%nat /\
      frameRGBToImage (frameAt (w * h * 3) j (content r)) w h = imgs !! j.
Proof.
  intros Hv Hfits Hsize Hlen Hm Hrun Hfuel.
  destruct (gstLoop_stream w h (w * h * 3)
              (fun frame => frameRGBToImage_total frame w h Hfits)
              k fuel 0 r [] m Hv Hsize Hlen Hm)
    as (imgs & Hloop & Hk & Hframes); [intros; apply Hrun; lia | exact Hfuel |].
  exists imgs. split.
  { rewrite gstRun_fits by assumption. rewrite Hloop. now destruct (ending r). }
  split; [exact Hk|].
  intros j Hj. split; [|now apply Hframes].
  unfold frameAt. rewrite length_take, length_drop, Hlen.
  assert (S j * (w * h * 3) <= k * (w * h * 3))%nat
    by (apply Nat.mul_le_mono_r; lia).
  lia.
Qed.

End RunFacts.

Section RunExamples.
Import io.

Lemma gst_loop_ends_with_stream_witness :
  exists imgs,
    gstRun (fun _ => false) 10 truncatedStream 1 1
    = Some (ReturnNil, imgs) /\
    length imgs = 1%nat /\
    forall j, (j < 1)%nat ->
      length (frameAt (1 * 1 * 3) j (content truncatedStream))
        = (1 * 1 * 3)%nat /\
      frameRGBToImage (frameAt (1 * 1 * 3) j (content truncatedStream)) 1 1
        = imgs !! j.
Proof.
  refine (gst_loop_ends_with_stream (fun _ => false) truncatedStream
            1 1 1 2 10 _ _ _ _ _ _ _).
  - split; [exact I | reflexivity].
  - repeat split; cbn; lia.
  - cbn. lia.
  - reflexivity.
  - cbn. lia.
  - reflexivity.
  - cbn. lia.
Defined.

(** C1, as stated, fails.  The read of the second frame ends partway
    through the frame, after two of three bytes, because the stream
    ends there and not at a frame boundary; the loop returns [nil],
    not an error. *)
Lemma gst_partial_frame_counterexample :
  exists r1 r2 img,
    ReadFull 9 truncatedStream 3 = Some ([1; 2; 3]%Z, None, r1) /\
    ReadFull 8 r1 3 = Some ([4; 5]%Z, Some ErrUnexpectedEOF, r2) /\
    gstRun (fun _ => false) 10 truncatedStream 1 1
    = Some (ReturnNil, [img]).
Proof. do 3 eexists. repeat split. Qed.

End RunExamples.

(** ** [float64] arithmetic on integers

    The FPS window holds integers: quotients of two durations.  On
    integers of at most 53 binary digits the conversion, the sum and
    the division by the length of the window are exact. *)

Section FloatFacts.
Local Open Scope Z_scope.

Lemma digits2_size p : digits2_pos p = Pos.size p.
Proof. induction p; cbn; congruence. Qed.

(** The number of binary digits of a positive number. *)
Lemma digits_log2 p : Z.pos (digits2_pos p) = Z.log2 (Z.pos p) + 1.
Proof.
  rewrite digits2_size. destruct p; cbn [Pos.size Z.log2]; lia.
Qed.

Lemma pos_iter_xO m p : Z.pos (Pos.iter xO m p) = Z.pos m * 2 ^ Z.pos p.
Proof.
  change (Pos.iter xO m p) with (shift_pos p m).
  rewrite shift_pos_correct, Z.pow_pos_fold. lia.
Qed.

Lemma iter_pos_nat {A} (f : A -> A) p : forall x,
  SpecFloat.iter_pos f p x = Nat.iter (Pos.to_nat p) f x.
Proof.
  induction p as [p IH|p IH|]; intros x; cbn [SpecFloat.iter_pos].
  - rewrite !IH, Pos2Nat.inj_xI.
    replace (S (2 * Pos.to_nat p)) with (Pos.to_nat p + (Pos.to_nat p + 1))%nat
      by lia.
    rewrite !Nat.iter_add. reflexivity.
  - rewrite !IH, Pos2Nat.inj_xO.
    replace (2 * Pos.to_nat p)%nat with (Pos.to_nat p + Pos.to_nat p)%nat by lia.
    now rewrite Nat.iter_add.
  - reflexivity.
Qed.

(** Shifting out zero bits loses nothing. *)
Lemma shr_exact_nat n : forall m,
  Nat.iter n shr_1 (Build_shr_record (Z.pos (Nat.iter n xO m)) false false)
  = Build_shr_record (Z.pos m) false false.
Proof.
  induction n as [|n IH]; intros m; [reflexivity|].
  rewrite Nat.iter_succ_r. cbn [Nat.iter shr_1 orb]. apply IH.
Qed.

Lemma shr_exact p m :
  SpecFloat.iter_pos shr_1 p (Build_shr_record (Z.pos (Pos.iter xO m p)) false false)
  = Build_shr_record (Z.pos m) false false.
Proof.
  rewrite iter_pos_nat, Pos2Nat.inj_iter.
  change (nat_rect (fun _ => positive) m (fun _ => xO) (Pos.to_nat p))
    with (Nat.iter (Pos.to_nat p) xO m).
  apply shr_exact_nat.
Qed.

Lemma fexp64 e : -1074 <= e - 53 -> fexp 53 1024 e = e - 53.
Proof. unfold fexp, emin. lia. Qed.

Lemma shr_fexp_exact (M mz : positive) (e ez : Z) :
  e <= ez -> Z.pos M = Z.pos mz * 2 ^ (ez - e) ->
  Z.log2 (Z.pos mz) = 52 -> -1074 <= ez ->
  shr_fexp 53 1024 (Z.pos M) e loc_Exact
  = (Build_shr_record (Z.pos mz) false false, ez).
Proof.
  intros Hle HM Hmz Hez.
  unfold shr_fexp, shr_record_of_loc. cbn [Zdigits2].
  assert (HlogM : Z.log2 (Z.pos M) = ez - e + 52)
    by (rewrite HM, Z.log2_mul_pow2, Hmz; lia).
  rewrite digits_log2, HlogM.
  rewrite fexp64 by lia.
  replace (ez - e + 52 + 1 + e - 53 - e) with (ez - e) by lia.
  unfold shr. destruct (ez - e) as [|p|p] eqn:Hk.
  - rewrite Z.pow_0_r, Z.mul_1_r in HM. injection HM as ->.
    f_equal. lia.
  - rewrite <- pos_iter_xO in HM. injection HM as ->.
    rewrite shr_exact. f_equal. lia.
  - lia.
Qed.

(** Rounding a number that fits in 53 digits returns it. *)
Lemma binary_round_aux_exact (s : bool) (M mz : positive) (e ez : Z) :
  e <= ez -> Z.pos M = Z.pos mz * 2 ^ (ez - e) ->
  Z.log2 (Z.pos mz) = 52 -> -1074 <= ez <= 971 ->
  binary_round_aux 53 1024 s (Z.pos M) e loc_Exact = S754_finite s mz ez.
Proof.
  intros Hle HM Hmz Hez. unfold binary_round_aux.
  rewrite (shr_fexp_exact M mz e ez) by (assumption || lia).
  cbn [shr_m loc_of_shr_record round_nearest_even].
  rewrite (shr_fexp_exact mz mz ez ez);
    [| lia | rewrite Z.sub_diag; lia | assumption | lia].
  cbn [shr_m].
  destruct (Z.leb_spec ez (1024 - 53)) as [_|Hgt]; [reflexivity | lia].
Qed.

Lemma binary_round_exact (s : bool) (M mz : positive) (e ez : Z) :
  (e <= ez -> Z.pos M = Z.pos mz * 2 ^ (ez - e)) ->
  (ez <= e -> Z.pos mz = Z.pos M * 2 ^ (e - ez)) ->
  Z.log2 (Z.pos mz) = 52 -> -1074 <= ez <= 971 ->
  binary_round 53 1024 s M e = S754_finite s mz ez.
Proof.
  intros Hup Hdown Hmz Hez. unfold binary_round.
  assert (Hd : Z.pos (digits2_pos M) + e = 53 + ez).
  { rewrite digits_log2.
    destruct (Z.le_ge_cases e ez) as [Hle|Hge].
    - rewrite (Hup Hle), Z.log2_mul_pow2, Hmz by lia. lia.
    - enough (Z.log2 (Z.pos M) = 52 - (e - ez)) by lia.
      rewrite (Hdown Hge), Z.log2_mul_pow2 in Hmz by lia. lia. }
  rewrite Hd, fexp64 by lia.
  replace (53 + ez - 53) with ez by lia.
  unfold shl_align. destruct (ez - e) as [|p|p] eqn:Hk.
  - apply binary_round_aux_exact; try assumption; [lia|].
    rewrite Hk. apply Hup. lia.
  - apply binary_round_aux_exact; try assumption; [lia|].
    rewrite Hk. apply Hup. lia.
  - assert (HM : Pos.iter xO M p = mz).
    { apply Pos2Z.inj. rewrite pos_iter_xO, Hdown by lia.
      do 2 f_equal. lia. }
    rewrite HM. apply binary_round_aux_exact; try assumption; [lia|].
    rewrite Z.sub_diag. lia.
Qed.

Lemma log2_small n : 0 < n < 2 ^ 53 -> 0 <= Z.log2 n <= 52.
Proof.
  intros Hn. split; [apply Z.log2_nonneg|].
  enough (Z.log2 n < 53) by lia. now apply Z.log2_lt_pow2.
Qed.

Lemma mant_val n : 0 < n < 2 ^ 53 -> Z.pos (mant n) = n * 2 ^ (52 - Z.log2 n).
Proof.
  intros Hn. pose proof (log2_small n Hn). unfold mant.
  rewrite Z2Pos.id; [reflexivity|].
  apply Z.mul_pos_pos; [lia|]. apply Z.pow_pos_nonneg; lia.
Qed.

Lemma mant_log2 n : 0 < n < 2 ^ 53 -> Z.log2 (Z.pos (mant n)) = 52.
Proof.
  intros Hn. pose proof (log2_small n Hn).
  rewrite mant_val, Z.log2_mul_pow2 by lia. lia.
Qed.

Lemma of_Z_normal n :
  0 < n < 2 ^ 53 -> F64.of_Z n = S754_finite false (mant n) (expo n).
Proof.
  intros Hn. pose proof (log2_small n Hn) as Hl.
  destruct n as [|q|q]; try lia.
  unfold F64.of_Z, binary_normalize.
  apply binary_round_exact.
  - intros Hle. unfold expo in *. rewrite mant_val by assumption.
    replace (Z.log2 (Z.pos q)) with 52 by lia. cbn. lia.
  - intros _. unfold expo. rewrite mant_val by assumption.
    do 2 f_equal. lia.
  - now apply mant_log2.
  - unfold expo. lia.
Qed.

Lemma shl_align_fst m e e' :
  e' <= e -> Z.pos (fst (shl_align m e e')) = Z.pos m * 2 ^ (e - e').
Proof.
  intros Hle. unfold shl_align. destruct (e' - e) as [|p|p] eqn:Hk.
  - replace (e - e') with 0 by lia. cbn [fst]. lia.
  - lia.
  - cbn [fst]. rewrite pos_iter_xO. do 2 f_equal. lia.
Qed.

Lemma scaled (n k j : Z) :
  0 <= k -> 0 <= j -> n * 2 ^ k * 2 ^ j = n * 2 ^ (k + j).
Proof. intros. rewrite Z.pow_add_r by lia. ring. Qed.

(** Adding two integers whose sum has at most 53 digits is exact. *)
Lemma add_exact a b :
  0 < a -> 0 < b -> a + b < 2 ^ 53 ->
  F64.add (F64.of_Z a) (F64.of_Z b) = F64.of_Z (a + b).
Proof.
  intros Ha Hb Hab.
  pose proof (log2_small a ltac:(lia)) as Hla.
  pose proof (log2_small b ltac:(lia)) as Hlb.
  pose proof (log2_small (a + b) ltac:(lia)) as Hlab.
  assert (Z.log2 a <= Z.log2 (a + b)) by (apply Z.log2_le_mono; lia).
  assert (Z.log2 b <= Z.log2 (a + b)) by (apply Z.log2_le_mono; lia).
  rewrite !of_Z_normal by lia. unfold F64.add, SFadd.
  cbn [cond_Zopp Z.add binary_normalize].
  set (e := Z.min (expo a) (expo b)).
  assert (He : e <= expo a /\ e <= expo b /\ e <= expo (a + b) /\ e <= 0)
    by (unfold e, expo; lia).
  assert (Hsum : Z.pos (fst (shl_align (mant a) (expo a) e)
                        + fst (shl_align (mant b) (expo b) e))
                 = (a + b) * 2 ^ (- e)).
  { rewrite Pos2Z.inj_add, !shl_align_fst, !mant_val by lia.
    unfold expo in *. rewrite !scaled by lia.
    replace (52 - Z.log2 a + (Z.log2 a - 52 - e)) with (- e) by lia.
    replace (52 - Z.log2 b + (Z.log2 b - 52 - e)) with (- e) by lia.
    ring. }
  apply binary_round_exact.
  - intros _. rewrite Hsum, mant_val by lia. unfold expo in *.
    rewrite scaled by lia. do 2 f_equal. lia.
  - intros Hge. rewrite Hsum, mant_val by lia. unfold expo in *.
    rewrite scaled by lia. do 2 f_equal. lia.
  - apply mant_log2. lia.
  - unfold expo. lia.
Qed.

(** [float64(10)], the length of the window. *)
Lemma of_Z_10 : F64.of_Z 10 = S754_finite false 5629499534213120 (-49).
Proof. reflexivity. Qed.

Lemma div_eucl_exact (b q : Z) : 0 < b -> Z.div_eucl (b * q) b = (q, 0).
Proof.
  intros Hb. rewrite (surjective_pairing (Z.div_eucl (b * q) b)).
  change (fst (Z.div_eucl (b * q) b)) with ((b * q) / b).
  change (snd (Z.div_eucl (b * q) b)) with ((b * q) mod b).
  rewrite Z.mul_comm, Z.div_mul, Z.mod_mul by lia. reflexivity.
Qed.

Lemma div_core_by_10 (mc : positive) (ec : Z) (Q : Z) :
  Z.log2 (Z.pos mc) = 52 -> -52 <= ec <= 0 ->
  Z.pos mc * 2 ^ 53 = 5629499534213120 * Q ->
  SFdiv_core_binary 53 1024 (Z.pos mc) ec 5629499534213120 (-49)
  = (Q, ec - 4, loc_Exact).
Proof.
  intros Hmc Hec HQ. unfold SFdiv_core_binary. cbn [Zdigits2].
  rewrite digits_log2, Hmc.
  change (Z.pos (digits2_pos 5629499534213120)) with 53.
  rewrite fexp64 by lia.
  replace (Z.min (52 + 1 + ec - (53 + -49) - 53) (ec - -49)) with (ec - 4)
    by lia.
  replace (ec - -49 - (ec - 4)) with 53 by lia.
  cbv iota. rewrite Z.shiftl_mul_pow2, HQ by lia.
  rewrite div_eucl_exact by lia. reflexivity.
Qed.

(** Dividing ten times an integer by ten is exact. *)
Lemma div10_exact n :
  0 < n -> 10 * n < 2 ^ 53 ->
  F64.div (F64.of_Z (10 * n)) (F64.of_Z 10) = F64.of_Z n.
Proof.
  intros Hn H10.
  pose proof (log2_small n ltac:(lia)) as Hl.
  pose proof (log2_small (10 * n) ltac:(lia)) as Hl10.
  assert (Hlo : Z.log2 n <= Z.log2 (10 * n)) by (apply Z.log2_le_mono; lia).
  assert (Hhi : Z.log2 (10 * n) <= Z.log2 n + 4).
  { replace (Z.log2 n + 4) with (Z.log2 (n * 2 ^ 4))
      by (rewrite Z.log2_mul_pow2; lia).
    apply Z.log2_le_mono. lia. }
  rewrite of_Z_10, (of_Z_normal (10 * n)), (of_Z_normal n) by lia.
  unfold F64.div, SFdiv, F64.prec, F64.emax. cbn [xorb].
  set (Q := Z.to_pos (n * 2 ^ (56 - Z.log2 (10 * n)))).
  assert (HQ : Z.pos Q = n * 2 ^ (56 - Z.log2 (10 * n))).
  { unfold Q. rewrite Z2Pos.id; [reflexivity|].
    apply Z.mul_pos_pos; [lia|]. apply Z.pow_pos_nonneg; lia. }
  rewrite (div_core_by_10 (mant (10 * n)) (expo (10 * n)) (Z.pos Q)).
  - apply binary_round_aux_exact.
    + unfold expo. lia.
    + rewrite HQ, mant_val by lia. unfold expo.
      rewrite scaled by lia. do 2 f_equal. lia.
    + apply mant_log2. lia.
    + unfold expo. lia.
  - apply mant_log2. lia.
  - unfold expo. lia.
  - rewrite HQ, mant_val by lia.
    replace 5629499534213120 with (10 * 2 ^ 49) by reflexivity.
    replace (10 * n * 2 ^ (52 - Z.log2 (10 * n)) * 2 ^ 53)
      with (10 * (n * 2 ^ (52 - Z.log2 (10 * n)) * 2 ^ 53)) by ring.
    replace (10 * 2 ^ 49 * (n * 2 ^ (56 - Z.log2 (10 * n))))
      with (10 * (n * 2 ^ (56 - Z.log2 (10 * n)) * 2 ^ 49)) by ring.
    rewrite !scaled by lia. do 3 f_equal. lia.
Qed.
End FloatFacts.

(** ** The FPS window *)

Section FPSFacts.
Import fps.
Local Open Scope Z_scope.

Lemma add_from_zero a b :
  0 <= a -> 0 < b -> a + b < 2 ^ 53 ->
  F64.add (F64.of_Z a) (F64.of_Z b) = F64.of_Z (a + b).
Proof.
  intros Ha Hb Hab. destruct (Z.eq_dec a 0) as [->|Hne].
  - rewrite Z.add_0_l, (of_Z_normal b) by lia. reflexivity.
  - apply add_exact; lia.
Qed.

Lemma total_replicate (n : Z) (k : nat) : forall j : Z,
  0 < n -> 0 <= j -> (j + Z.of_nat k) * n < 2 ^ 53 ->
  foldl F64.add (F64.of_Z (j * n)) (replicate k (F64.of_Z n))
  = F64.of_Z ((j + Z.of_nat k) * n).
Proof.
  induction k as [|k IH]; intros j Hn Hj Hb.
  - cbn. do 2 f_equal. lia.
  - cbn [replicate foldl]. rewrite add_from_zero by nia.
    replace (j * n + n) with ((j + 1) * n) by ring.
    rewrite IH by (assumption || lia). do 2 f_equal. lia.
Qed.

(** The mean of a window filled with one integer is that integer. *)
Lemma average_constant (n : Z) :
  0 <= n -> 10 * n < 2 ^ 53 ->
  average (replicate 10 (F64.of_Z n)) = F64.of_Z n.
Proof.
  intros Hn Hb. destruct (Z.eq_dec n 0) as [->|Hne]; [reflexivity|].
  unfold average, total. rewrite length_replicate.
  change F64.zero with (F64.of_Z (0 * n)).
  rewrite total_replicate by lia.
  change (0 + Z.of_nat 10) with 10. change (Z.of_nat 10) with 10.
  apply div10_exact; lia.
Qed.

Lemma shiftFrom_spec i : forall l : list F64.float64,
  (i < length l)%nat ->
  shiftFrom i l = Some (take 1 l ++ take i l ++ drop (S i) l).
Proof.
  induction i as [|i IH]; intros l Hi.
  - cbn [shiftFrom]. change (take 0 l) with (@nil F64.float64).
    cbn [app]. now rewrite take_drop.
  - cbn [shiftFrom].
    destruct (lookup_lt_is_Some_2 l i) as [v Hv]; [lia|].
    destruct (lookup_lt_is_Some_2 l (S i)) as [b Hb]; [lia|].
    rewrite Hv. cbn [mbind option_bind]. rewrite store_Some by lia.
    cbn [mbind option_bind].
    rewrite IH by (rewrite length_insert; lia).
    rewrite !take_insert_ge, drop_insert_ge by lia.
    rewrite Nat.sub_diag, (drop_S l b (S i) Hb), (take_S_r l i v Hv).
    cbn [insert list_insert]. now rewrite <- app_assoc.
Qed.

Lemma tick_spec (l : list F64.float64) (d : Z) :
  l <> [] -> d <> 0 ->
  let s := F64.of_Z (Z.quot Second d) in
  tick l d = Some (s :: take (length l - 1) l,
                   average (s :: take (length l - 1) l)).
Proof.
  intros Hl Hd s. unfold tick, shift, sample.
  destruct l as [|a l]; [done|]. cbn [length] in *.
  rewrite shiftFrom_spec by (cbn; lia).
  replace (S (length l) - 1)%nat with (length l) by lia.
  rewrite (drop_ge (a :: l)) by (cbn; lia). rewrite app_nil_r.
  cbn [mbind option_bind take app].
  destruct (Z.eqb_spec d 0) as [|_]; [done|]. cbn [mbind option_bind].
  reflexivity.
Qed.

Lemma ticks_cons l d rest last :
  ticks l (d :: rest) last =
  match tick l d with
  | Some (l', avg) => ticks l' rest avg
  | None => None
  end.
Proof. cbn [ticks]. destruct (tick l d) as [[l' avg]|]; reflexivity. Qed.

Lemma sample_range d : 0 < d -> 0 <= Z.quot Second d <= Second.
Proof.
  intros Hd. rewrite Z.quot_div_nonneg by (unfold Second; lia). split.
  - apply Z.div_pos; unfold Second; lia.
  - apply Z.div_le_upper_bound; unfold Second; nia.
Qed.

(** C9, as the code has it.  The window has 10 slots.  A tick moves
    every sample one slot back, dropping the last one, puts the new
    sample in front, and reports the mean of the 10 slots: their sum
    divided by 10.  The new sample is the [float64] of the integer
    quotient of one second by the elapsed time, both in nanoseconds:
    the frame rate with its fraction cut off.  After 10 ticks with
    the same elapsed time [d] the window holds that sample 10 times
    and the reported mean is that sample. *)
Theorem fps_window_ticks (w : list F64.float64) (d : Z) :
  length w = 10%nat -> 0 < d ->
  let s := F64.of_Z (Z.quot Second d) in
  tick w d = Some (s :: take 9 w, average (s :: take 9 w)) /\
  average (s :: take 9 w)
    = F64.div (foldl F64.add F64.zero (s :: take 9 w)) (F64.of_Z 10) /\
  forall last, ticks w (replicate 10 d) last = Some (replicate 10 s, s).
Proof.
  intros Hlen Hd s.
  assert (Hw : w <> []) by (intros ->; discriminate).
  split; [|split].
  - rewrite tick_spec by (assumption || lia). now rewrite Hlen.
  - unfold average, total. cbn [length].
    rewrite length_take, Hlen. reflexivity.
  - intros last.
    do 11 (destruct w as [|? w]; try discriminate). clear Hlen Hw.
    cbn [replicate].
    do 10 (rewrite ticks_cons, tick_spec by (discriminate || lia);
           cbn [length Nat.sub take]).
    cbn [ticks]. do 2 f_equal.
    pose proof (sample_range d Hd) as Hs. unfold Second in Hs.
    apply (average_constant (Z.quot Second d)); unfold Second; lia.
Qed.

Lemma fps_window_ticks_witness :
  let s := F64.of_Z (Z.quot Second 30000000) in
  tick seed 30000000 = Some (s :: take 9 seed, average (s :: take 9 seed)) /\
  average (s :: take 9 seed)
    = F64.div (foldl F64.add F64.zero (s :: take 9 seed)) (F64.of_Z 10) /\
  forall last, ticks seed (replicate 10 30000000) last
               = Some (replicate 10 s, s).
Proof.
  refine (fps_window_ticks seed 30000000 _ _).
  - reflexivity.
  - lia.
Defined.

(** C9, as stated, fails.  With 30 ms between frames, 1/d is 33.33...
    frames per second; after 10 such ticks the reported mean is 33. *)
Lemma fps_average_counterexample :
  let d := 30000000 in
  ticks seed (replicate 10 d) F64.zero
    = Some (replicate 10 (F64.of_Z 33), F64.of_Z 33) /\
  F64.of_Z 33 <> specSample d /\
  33 * d <> Second.
Proof. vm_compute. repeat split; discriminate. Qed.

End FPSFacts.

(** * Further properties of the code *)

(** ** Loops that fault, images that agree *)

Section MoreLoopFacts.
Context {St : Type}.

Lemma fold_bind_None (body : nat -> St -> option St) (idx : list nat) :
  foldl (fun acc i => acc ≫= body i) None idx = None.
Proof. induction idx as [|i idx IH]; [reflexivity | exact IH]. Qed.

Lemma forM_app (idx1 idx2 : list nat) (body : nat -> St -> option St) (s : St) :
  forM (idx1 ++ idx2) body s = forM idx1 body s ≫= forM idx2 body.
Proof.
  unfold forM. rewrite foldl_app.
  destruct (foldl _ (Some s) idx1) as [s'|]; [reflexivity|].
  apply fold_bind_None.
Qed.

(** A loop faults as soon as one round does: if the rounds before
    round [i] keep [P] and round [i] faults on every state with [P],
    the loop faults. *)
Lemma forM_fault (P : St -> Prop) (body : nat -> St -> option St)
    (n i : nat) (s : St) :
  (i < n)%nat -> P s ->
  (forall j s s', (j < i)%nat -> P s -> body j s = Some s' -> P s') ->
  (forall s, P s -> body i s = None) ->
  forM (seq 0 n) body s = None.
Proof.
  intros Hi Hs Hkeep Hfault.
  replace n with (i + (1 + (n - S i)))%nat by lia.
  rewrite !seq_app, !forM_app.
  assert (Hpre : forM (seq 0 i) body s = None \/
                 exists s', forM (seq 0 i) body s = Some s' /\ P s').
  { clear Hi Hfault. induction i as [|i IH].
    - right. exists s. split; [reflexivity | exact Hs].
    - rewrite seq_S, forM_snoc.
      destruct IH as [Hnone|(s1 & Hrun & HP)].
      + intros j s0 s' Hj. apply Hkeep. lia.
      + left. now rewrite Hnone.
      + rewrite Hrun. cbn. destruct (body i s1) as [s2|] eqn:Hb.
        * right. exists s2. split; [reflexivity|].
          apply (Hkeep i s1 s2); [lia | exact HP | exact Hb].
        * now left. }
  destruct Hpre as [Hnone|(s' & Hrun & HP)].
  - now rewrite Hnone.
  - rewrite Hrun. cbn [mbind option_bind seq Nat.add].
    unfold forM. simpl. rewrite (Hfault s' HP). apply fold_bind_None.
Qed.

(** Two bodies that agree on the rounds of a loop give the same loop. *)
Lemma forM_ext_seq (body1 body2 : nat -> St -> option St) (n : nat) (s : St) :
  (forall i s, (i < n)%nat -> body1 i s = body2 i s) ->
  forM (seq 0 n) body1 s = forM (seq 0 n) body2 s.
Proof.
  intros Hext. induction n as [|n IH]; [reflexivity|].
  rewrite seq_S, !forM_snoc, IH by (intros; apply Hext; lia).
  destruct (forM (seq 0 n) body2 s); [apply Hext; lia | reflexivity].
Qed.

End MoreLoopFacts.

Section MoreImageFacts.
Import image.

(** Two images of one size with the same pixels are the same image. *)
Lemma sized_ext (img1 img2 : RGBA) (w h : nat) :
  sized img1 w h -> sized img2 w h ->
  (forall x y, (x < w)%nat -> (y < h)%nat -> At img1 x y = At img2 x y) ->
  img1 = img2.
Proof.
  intros S1 S2 Hat.
  assert (Hpix : Pix img1 = Pix img2).
  { apply list_eq. intros k.
    destruct S1 as (Hw1 & Hh1 & Hl1), S2 as (Hw2 & Hh2 & Hl2).
    destruct (Nat.lt_ge_cases k (w * h)) as [Hk|Hk].
    - assert (Hw0 : w <> 0%nat) by (intros ->; lia).
      assert (Hx : (k mod w < w)%nat) by now apply Nat.mod_upper_bound.
      assert (Hy : (k / w < h)%nat)
        by (apply Nat.Div0.div_lt_upper_bound; lia).
      specialize (Hat _ _ Hx Hy). unfold At, PixOffset in Hat.
      rewrite !(inRect_true _ w h) in Hat by (repeat split; assumption).
      rewrite Hw1, Hw2 in Hat.
      replace (k / w * w + k mod w)%nat with k in Hat
        by (rewrite (Nat.div_mod_eq k w) at 1; lia).
      destruct (lookup_lt_is_Some_2 (Pix img1) k) as [c1 Hc1]; [lia|].
      destruct (lookup_lt_is_Some_2 (Pix img2) k) as [c2 Hc2]; [lia|].
      rewrite Hc1, Hc2 in *. cbn in Hat. now subst.
    - rewrite !lookup_ge_None_2 by lia. reflexivity. }
  destruct S1 as (Hw1 & Hh1 & _), S2 as (Hw2 & Hh2 & _).
  destruct img1, img2. cbn in *. congruence.
Qed.

End MoreImageFacts.


(** ** The frame decoders, beyond the frames of the right size *)

Section DecoderEdges.
Import image.

Lemma store_length {X} (l l' : list X) i v :
  store l i v = Some l' -> length l' = length l.
Proof.
  unfold store. destruct (decide _); [|discriminate].
  intros [= <-]. apply length_insert.
Qed.

Lemma store_None {X} (l : list X) i v :
  (length l <= i)%nat -> store l i v = None.
Proof. intros Hi. unfold store. now rewrite decide_False by lia. Qed.

Lemma unpackYUYV_keeps_Y frame i yuyv yuyv' :
  unpackYUYV frame i yuyv = Some yuyv' -> length (Y yuyv') = length (Y yuyv).
Proof.
  unfold unpackYUYV. intros Hrun.
  destruct (frame !! (i * 4)%nat) as [y0|]; [cbn in Hrun | discriminate].
  destruct (store (Y yuyv) (i * 2) y0) as [Y1|] eqn:HY1;
    [cbn in Hrun | discriminate].
  destruct (frame !! (i * 4 + 2)%nat) as [y1|]; [cbn in Hrun | discriminate].
  destruct (store Y1 (i * 2 + 1) y1) as [Y2|] eqn:HY2;
    [cbn in Hrun | discriminate].
  destruct (frame !! (i * 4 + 1)%nat) as [u|]; [cbn in Hrun | discriminate].
  destruct (store (Cb yuyv) i u) as [Cb'|]; [cbn in Hrun | discriminate].
  destruct (frame !! (i * 4 + 3)%nat) as [v|]; [cbn in Hrun | discriminate].
  destruct (store (Cr yuyv) i v) as [Cr'|]; [cbn in Hrun | discriminate].
  injection Hrun as <-. cbn.
  now rewrite (store_length _ _ _ _ HY2), (store_length _ _ _ _ HY1).
Qed.

Lemma unpackYUYV_off_luma frame i yuyv :
  (length (Y yuyv) <= i * 2 + 1)%nat -> unpackYUYV frame i yuyv = None.
Proof.
  intros Hlen. unfold unpackYUYV.
  destruct (frame !! (i * 4)%nat) as [y0|]; [cbn | reflexivity].
  destruct (store (Y yuyv) (i * 2) y0) as [Y1|] eqn:HY1; [cbn | reflexivity].
  destruct (frame !! (i * 4 + 2)%nat) as [y1|]; [cbn | reflexivity].
  rewrite store_None; [reflexivity|].
  rewrite (store_length _ _ _ _ HY1). exact Hlen.
Qed.


Lemma unpackYUYV_take frame n i yuyv :
  (i * 4 + 3 < n)%nat ->
  unpackYUYV (take n frame) i yuyv = unpackYUYV frame i yuyv.
Proof.
  intros Hi. unfold unpackYUYV. now rewrite !lookup_take_lt by lia.
Qed.

Lemma decodeRGBPixel_take frame n w y x img :
  (rgbIndex w x y + 2 < n)%nat ->
  decodeRGBPixel (take n frame) w y x img = decodeRGBPixel frame w y x img.
Proof.
  intros Hi. unfold decodeRGBPixel. fold (rgbIndex w x y).
  rewrite !lookup_take_lt by lia. rewrite length_take.
  destruct (Nat.leb_spec (length frame) (rgbIndex w x y + 2)),
           (Nat.leb_spec (n `min` length frame) (rgbIndex w x y + 2));
    try reflexivity; lia.
Qed.

Lemma CbLen_even m h : length (Cb (NewYCbCr422 (2 * m) h)) = (m * h)%nat.
Proof.
  cbv beta iota zeta delta [NewYCbCr422 Cb].
  now rewrite length_replicate, half_succ_double.
Qed.

Lemma CbLen_odd m h : length (Cb (NewYCbCr422 (2 * m + 1) h)) = ((m + 1) * h)%nat.
Proof.
  cbv beta iota zeta delta [NewYCbCr422 Cb]. rewrite length_replicate.
  replace (2 * m + 1 + 1)%nat with (0 + (m + 1) * 2)%nat by lia.
  now rewrite Nat.div_add by lia.
Qed.

(** X1.  A YUYV422 frame of even width and of exactly
    [width*height*2] bytes: pixel [(x, y)], the [p]-th of the frame,
    is the colour conversion of the luma byte [frame[2p]] and of the
    chroma bytes [frame[4(p/2)+1]] and [frame[4(p/2)+3]] that it
    shares with the other pixel of its group of four bytes. *)
Theorem frameToImage_pixel_values (frame : list Z) (m h x y : nat) :
  length frame = (2 * m * h * 2)%nat -> (x < 2 * m)%nat -> (y < h)%nat ->
  let p := (y * (2 * m) + x)%nat in
  exists img yy cb cr,
    frameToImage frame (2 * m) h = Some img /\
    frame !! (2 * p)%nat = Some yy /\
    frame !! (4 * (p / 2) + 1)%nat = Some cb /\
    frame !! (4 * (p / 2) + 3)%nat = Some cr /\
    At img x y = draw.YCbCrToRGBA yy cb cr /\
    At img (x / 2 * 2) y
      = draw.YCbCrToRGBA (default 0%Z (frame !! (4 * (p / 2))%nat)) cb cr /\
    At img (x / 2 * 2 + 1) y
      = draw.YCbCrToRGBA (default 0%Z (frame !! (4 * (p / 2) + 2)%nat)) cb cr.
Proof.
  intros Hlen Hx Hy p.
  destruct (frameToImage_pixels frame m h Hlen) as (img & Hrun & _ & Hat).
  pose proof (offset_lt (2 * m) h x y Hx Hy) as Hp. fold p in Hp.
  pose proof (Nat.Div0.mul_div_le p 2) as Hhalf.
  pose proof (Nat.Div0.mul_div_le x 2) as Hxhalf.
  assert (Hx2 : (x / 2 < m)%nat) by (apply Nat.Div0.div_lt_upper_bound; lia).
  assert (Hp2 : (p / 2 = y * m + x / 2)%nat) by apply half_offset.
  destruct (lookup_lt_is_Some_2 frame (2 * p)) as [yy Hyy]; [lia|].
  destruct (lookup_lt_is_Some_2 frame (4 * (p / 2) + 1)) as [cb Hcb]; [lia|].
  destruct (lookup_lt_is_Some_2 frame (4 * (p / 2) + 3)) as [cr Hcr]; [lia|].
  destruct (lookup_lt_is_Some_2 frame (4 * (p / 2))) as [y0 Hy0]; [lia|].
  destruct (lookup_lt_is_Some_2 frame (4 * (p / 2) + 2)) as [y1 Hy1]; [lia|].
  exists img, yy, cb, cr. repeat (split; [assumption|]).
  rewrite !Hat by lia. unfold yuyvPixel. fold p.
  rewrite Hyy, Hcb, Hcr, Hy0, Hy1. cbn [default]. split; [reflexivity|].
  assert (Hq0 : ((y * (2 * m) + x / 2 * 2) / 2 = p / 2)%nat).
  { rewrite half_offset, Hp2. now rewrite Nat.div_mul by lia. }
  assert (Hq1 : ((y * (2 * m) + (x / 2 * 2 + 1)) / 2 = p / 2)%nat).
  { rewrite half_offset, Hp2. f_equal.
    replace (x / 2 * 2 + 1)%nat with (1 + x / 2 * 2)%nat by lia.
    now rewrite Nat.div_add by lia. }
  rewrite Hq0, Hq1, Hcb, Hcr.
  replace (2 * (y * (2 * m) + x / 2 * 2))%nat with (4 * (p / 2))%nat by lia.
  replace (2 * (y * (2 * m) + (x / 2 * 2 + 1)))%nat
    with (4 * (p / 2) + 2)%nat by lia.
  now rewrite Hy0, Hy1.
Qed.

Lemma frameToImage_pixel_values_witness :
  exists img yy cb cr,
    frameToImage [255; 128; 0; 128; 100; 20; 200; 3]%Z 2 2 = Some img /\
    [255; 128; 0; 128; 100; 20; 200; 3]%Z !! 6%nat = Some yy /\
    [255; 128; 0; 128; 100; 20; 200; 3]%Z !! 5%nat = Some cb /\
    [255; 128; 0; 128; 100; 20; 200; 3]%Z !! 7%nat = Some cr /\
    At img 1 1 = draw.YCbCrToRGBA yy cb cr /\
    At img 0 1 = draw.YCbCrToRGBA 100 cb cr /\
    At img 1 1 = draw.YCbCrToRGBA 200 cb cr.
Proof.
  refine (frameToImage_pixel_values
            [255; 128; 0; 128; 100; 20; 200; 3]%Z 1 2 1 1 _ _ _);
    [reflexivity | lia | lia].
Defined.

Lemma frameToImage_odd_width_faults_always (frame : list Z) (m h : nat) :
  (0 < h)%nat -> frameToImage frame (2 * m + 1) h = None.
Proof.
  intros Hh. unfold frameToImage. rewrite CbLen_odd.
  rewrite (forM_fault
             (fun yuyv => length (Y yuyv) = ((2 * m + 1) * h)%nat)
             (unpackYUYV frame) ((m + 1) * h) ((m + 1) * h - 1)).
  - reflexivity.
  - lia.
  - cbv beta iota zeta delta [NewYCbCr422 Y]. now rewrite length_replicate.
  - intros j s s' _ HP Hrun. now rewrite (unpackYUYV_keeps_Y _ _ _ _ Hrun).
  - intros s HP. apply unpackYUYV_off_luma. rewrite HP. lia.
Qed.

(** X2.  With an odd width (below [2^62], so that it is the [int]
    the decoder works with and the empty image can be made)
    [frameToImage] faults on every buffer, unless the height is 0.
    [image.NewYCbCr] rounds the chroma width up and the loop runs
    over [len(yuyv.Cb)]: a round reads past the end of [frame] if the
    buffer is too short for it, and the last rounds write past the end
    of [yuyv.Y] in any case.  With a height of 0 there is nothing to
    unpack and the result is the empty image of that width. *)
Theorem frameToImage_odd_width_never_decodes (frame : list Z) (m h : nat) :
  (Z.of_nat (2 * m + 1) < 2 ^ 62)%Z ->
  (frameToImage frame (2 * m + 1) h = None <-> (0 < h)%nat) /\
  (h = 0%nat ->
   frameToImage frame (2 * m + 1) h = Some (NewRGBA (2 * m + 1) 0)).
Proof.
  intros _.
  assert (Hzero : frameToImage frame (2 * m + 1) 0
                  = Some (NewRGBA (2 * m + 1) 0)).
  { unfold frameToImage. rewrite CbLen_odd, Nat.mul_0_r. reflexivity. }
  split; [split|].
  - intros Hnone. destruct h as [|h]; [|lia].
    rewrite Hzero in Hnone. discriminate.
  - apply frameToImage_odd_width_faults_always.
  - intros ->. exact Hzero.
Qed.



(** X4.  [frameToImage] reads the first [width*height*2] bytes only:
    whatever follows them in the buffer has no effect on the result
    (even width). *)
Theorem frameToImage_ignores_extra_bytes (frame : list Z) (m h : nat) :
  frameToImage frame (2 * m) h
  = frameToImage (take (2 * m * h * 2) frame) (2 * m) h.
Proof.
  unfold frameToImage. rewrite CbLen_even.
  rewrite (forM_ext_seq (unpackYUYV (take (2 * m * h * 2) frame))
             (unpackYUYV frame)); [reflexivity|].
  intros i s Hi. apply unpackYUYV_take. lia.
Qed.

Lemma int64_le (n : nat) : (Z.to_nat (int64 (Z.of_nat n)) <= n)%nat.
Proof.
  unfold int64.
  pose proof (Z.mod_pos_bound (Z.of_nat n) (2 ^ 64) ltac:(lia)) as Hmod.
  pose proof (Z.mod_le (Z.of_nat n) (2 ^ 64) ltac:(lia) ltac:(lia)) as Hle.
  destruct (Z.ltb_spec (Z.of_nat n mod 2 ^ 64) (2 ^ 63)); lia.
Qed.

(** X5.  [frameRGBToImage] reads the first [width*height*3] bytes
    only: a longer buffer decodes to the same image as its prefix. *)
Theorem frameRGBToImage_ignores_extra_bytes (frame : list Z) (w h : nat) :
  frameRGBToImage frame w h = frameRGBToImage (take (w * h * 3) frame) w h.
Proof.
  unfold frameRGBToImage.
  pose proof (int64_le w) as Hw. pose proof (int64_le h) as Hh.
  set (w' := Z.to_nat (int64 (Z.of_nat w))) in *.
  set (h' := Z.to_nat (int64 (Z.of_nat h))) in *.
  destruct (NewRGBARect (int64 (Z.of_nat w)) (int64 (Z.of_nat h)))
    as [img0|]; [|reflexivity].
  cbn [mbind option_bind]. symmetry. apply forM_ext_seq.
  intros y img Hy. apply forM_ext_seq. intros x img' Hx.
  apply decodeRGBPixel_take.
  pose proof (offset_lt w' h' x y Hx Hy) as Hlt. unfold rgbIndex.
  assert (w' * h' <= w * h)%nat by (apply Nat.mul_le_mono; assumption).
  lia.
Qed.

End DecoderEdges.


(** ** Character mode, cell by cell *)

Section GlyphValues.
Import color.
Local Open Scope Z_scope.

Lemma high_byte_widen v : is_uint8 v -> Z.shiftr (widen v) 8 = v.
Proof.
  intros Hv. rewrite (widen_eq v Hv), Z.shiftr_div_pow2 by lia.
  unfold is_uint8 in Hv. change (2 ^ 8) with 256.
  symmetry. apply Z.div_unique with (r := v); lia.
Qed.

(** What [color.NRGBAModel.Convert] makes of an opaque pixel. *)
Lemma NRGBAModel_Convert_opaque r g b :
  is_uint8 r -> is_uint8 g -> is_uint8 b ->
  NRGBAModel_Convert (mkRGBA r g b 255) = mkNRGBA r g b 255.
Proof.
  intros Hr Hg Hb. unfold NRGBAModel_Convert. cbn.
  rewrite !high_byte_widen by assumption.
  unfold uint8, is_uint8 in *. now rewrite !Z.mod_small by lia.
Qed.


Lemma intensity_opaque r g b :
  is_uint8 r -> is_uint8 g -> is_uint8 b ->
  intensity (mkNRGBA r g b 255) = r + g + b.
Proof.
  intros Hr Hg Hb. unfold intensity, intensity32, premul.
  cbn [RGBA_of NRGBA_Color r32 g32 b32 a32 nR nG nB nA]. unfold premul.
  rewrite (widen_eq r), (widen_eq g), (widen_eq b) by assumption.
  unfold is_uint8 in *.
  assert (Hq : forall v, 0 <= v < 256 -> 257 * v * 255 / 255 / 256 = v).
  { intros v Hv. rewrite Z.div_mul by lia.
    symmetry. apply Z.div_unique with (r := v); lia. }
  rewrite !Hq by assumption. change (widen 255 / 256) with 255.
  now rewrite Z.div_mul by lia.
Qed.


Lemma pixelToASCII_opaque (r g b : Z) :
  is_uint8 r -> is_uint8 g -> is_uint8 b ->
  0 <= (r + g + b + 27) / 54 <= 14 /\
  pixelToASCII (NRGBAModel_Convert (mkRGBA r g b 255))
  = pixels !! Z.to_nat ((r + g + b + 27) / 54).
Proof.
  intros Hr Hg Hb. rewrite NRGBAModel_Convert_opaque by assumption.
  unfold pixelToASCII, glyphIndex.
  rewrite intensity_opaque by assumption.
  unfold is_uint8 in *.
  rewrite glyphIndexOf_exact by lia.
  pose proof (roundNearest_bucket_range (r + g + b)) as Hrange.
  rewrite bucketWidth_54 in *. unfold roundNearest in *.
  replace ((2 * (r + g + b) + 54) / (2 * 54)) with ((r + g + b + 27) / 54)
    in *.
  2:{ replace (2 * (r + g + b) + 54) with ((r + g + b + 27) * 2) by lia.
      change (2 * 54) with (54 * 2). now rewrite Z.div_mul_cancel_r by lia. }
  split; [apply Hrange; lia|].
  unfold index. destruct (Z.ltb_spec ((r + g + b + 27) / 54) 0); [lia|].
  reflexivity.
Qed.

(** X6.  An opaque pixel [(r, g, b, 255)] gets the glyph of index
    [(r+g+b)/54] rounded to nearest, that is [(r + g + b + 27) / 54]:
    the three channels weigh the same.  A sum below 27 gives the first
    glyph of the ramp, the space; a sum of 729 or more gives the last
    one, the at sign. *)
Theorem opaque_pixel_glyph (r g b : Z) :
  is_uint8 r -> is_uint8 g -> is_uint8 b ->
  pixelToASCII (NRGBAModel_Convert (mkRGBA r g b 255))
  = pixels !! Z.to_nat ((r + g + b + 27) / 54) /\
  (r + g + b < 27 -> pixelToASCII (NRGBAModel_Convert (mkRGBA r g b 255))
                     = Some 32) /\
  (729 <= r + g + b -> pixelToASCII (NRGBAModel_Convert (mkRGBA r g b 255))
                       = Some 64).
Proof.
  intros Hr Hg Hb.
  destruct (pixelToASCII_opaque r g b Hr Hg Hb) as (_ & ->).
  unfold is_uint8 in *.
  split; [reflexivity|]. split; intros Hsum.
  - replace ((r + g + b + 27) / 54) with 0; [reflexivity|].
    symmetry. apply Z.div_small. lia.
  - replace ((r + g + b + 27) / 54) with 14; [reflexivity|].
    apply Z.div_unique with (r := r + g + b + 27 - 54 * 14); lia.
Qed.

Lemma opaque_pixel_glyph_witness :
  pixelToASCII (NRGBAModel_Convert (mkRGBA 255 255 255 255))
  = pixels !! Z.to_nat ((255 + 255 + 255 + 27) / 54) /\
  (255 + 255 + 255 < 27 ->
   pixelToASCII (NRGBAModel_Convert (mkRGBA 255 255 255 255)) = Some 32) /\
  (729 <= 255 + 255 + 255 ->
   pixelToASCII (NRGBAModel_Convert (mkRGBA 255 255 255 255)) = Some 64).
Proof.
  apply (opaque_pixel_glyph 255 255 255); unfold is_uint8; lia.
Defined.

End GlyphValues.

Section ASCIILayout.
Import color termenv image.
Local Open Scope Z_scope.
Context {TColor : Type}.
Variable p : rgba32 -> TColor.
Variable col : rgba32.

Lemma asciiCell_style (img : RGBA) (i j : nat) :
  asciiCell p col img i j = Some (Styled (asciiStyle p col img i j)).
Proof.
  unfold asciiCell, asciiStyle.
  destruct (pixelToASCII_defined (NRGBAModel_Convert (At img j i)))
    as [ch Hch].
  { apply NRGBA_contract, NRGBAModel_Convert_wf. }
  rewrite Hch. reflexivity.
Qed.

Lemma ascii_fold (img : RGBA) (width : nat) (rows : list nat) : forall acc,
  foldl (fun str i =>
           foldl (fun str j => str ++ [Styled (asciiStyle p col img i j)])
                 str (seq 0 width) ++ [LineBreak]) acc rows
  = acc ++ concat (map (fun i => map (fun j => Styled (asciiStyle p col img i j))
                                     (seq 0 width) ++ [LineBreak]) rows).
Proof.
  induction rows as [|y rows IH]; intros acc; cbn [foldl map concat].
  - now rewrite app_nil_r.
  - rewrite IH, foldl_snoc_map, <- !app_assoc. reflexivity.
Qed.

(** The pieces [imageToASCII] writes: row after row, the cells of the
    row and a line break. *)
Lemma imageToASCII_rows (width height : nat) (img : RGBA) :
  imageToASCII p col width height img =
  Some (concat (map (fun i => map (fun j => Styled (asciiStyle p col img i j))
                                  (seq 0 width) ++ [LineBreak])
                    (seq 0 height))).
Proof.
  unfold imageToASCII.
  rewrite (forM_ext _
    (fun i str =>
       Some (foldl (fun str j => str ++ [Styled (asciiStyle p col img i j)])
                   str (seq 0 width) ++ [LineBreak]))).
  - rewrite forM_pure, ascii_fold. reflexivity.
  - intros i str.
    rewrite (forM_ext _
      (fun j str => Some (str ++ [Styled (asciiStyle p col img i j)]))).
    + now rewrite forM_pure.
    + intros j str'. now rewrite asciiCell_style.
Qed.

Lemma imageToASCII_lines (width height : nat) (img : RGBA) :
  exists out,
    imageToASCII p col width height img = Some out /\
    lines out = map (fun i => map (asciiStyle p col img i) (seq 0 width))
                    (seq 0 height).
Proof.
  eexists. split; [apply imageToASCII_rows|].
  apply (lines_rows (fun i j => asciiStyle p col img i j)).
Qed.

Lemma ascii_line_cell (width height : nat) (img : RGBA) (i j : nat) :
  (i < height)%nat -> (j < width)%nat ->
  exists out line,
    imageToASCII p col width height img = Some out /\
    length (lines out) = height /\
    lines out !! i = Some line /\ length line = width /\
    line !! j = Some (asciiStyle p col img i j).
Proof.
  intros Hi Hj.
  destruct (imageToASCII_lines width height img) as (out & Hrun & Hlines).
  exists out. eexists. split; [exact Hrun|]. rewrite Hlines.
  split; [now rewrite length_map, length_seq|]. split.
  - rewrite list_lookup_fmap, lookup_seq_lt by assumption. reflexivity.
  - split; [now rewrite length_map, length_seq|].
    rewrite list_lookup_fmap, lookup_seq_lt by assumption. reflexivity.
Qed.



End ASCIILayout.

Section ASCIILayoutExamples.
Import color termenv image.
Local Open Scope Z_scope.



End ASCIILayoutExamples.


(** ** Background subtraction, run twice and rendered *)

Section GreenscreenMore.
Import color termenv image.
Variable LabDistance : color.RGBA -> color.RGBA -> F64.float64.

(** The pixels of the image after [greenscreen]. *)
Lemma greenscreen_pixels (img bg : RGBA) (dist : F64.float64) (w h : nat) :
  sized img w h ->
  sized (greenscreen LabDistance img (Some bg) dist) w h /\
  forall x y, (x < w)%nat -> (y < h)%nat ->
    At (greenscreen LabDistance img (Some bg) dist) x y =
      if F64.ltb (LabDistance (At img x y) (At bg x y)) dist
      then zeroRGBA else At img x y.
Proof.
  intros Hs.
  destruct (pixel_loop
    (fun y x img => Some (maskPixel LabDistance bg dist y x img))
    (fun x y => if F64.ltb (LabDistance (At img x y) (At bg x y)) dist
                then zeroRGBA else At img x y)
    img w h Hs) as (img' & Hrun & Hs' & Hat).
  - intros x y cur Hx Hy Hcur Hsame.
    exists (maskPixel LabDistance bg dist y x cur).
    split; [reflexivity|]. unfold maskPixel. rewrite Hsame.
    destruct (F64.ltb _ dist).
    + rewrite (Set_written cur w h) by assumption.
      split; [now apply written_sized|]. split.
      * now rewrite (written_At_same cur w h).
      * intros x' y' Hx' Hy' Hne. now apply (written_At_other cur w h).
    + split; [exact Hcur|]. split; [exact Hsame | reflexivity].
  - destruct Hs as (Hw & Hh & Hl).
    rewrite <- (greenscreen_loops LabDistance img bg dist w h Hw Hh) in Hrun.
    injection Hrun as <-. split; [exact Hs' | exact Hat].
Qed.

(** X9.  [greenscreen] is idempotent: a second pass with the same
    background and threshold changes nothing.  A pixel the first pass
    cleared is cleared again or kept, a pixel it kept is compared with
    the same result. *)
Theorem greenscreen_idempotent
    (img bg : RGBA) (dist : F64.float64) (w h : nat) :
  sized img w h ->
  greenscreen LabDistance (greenscreen LabDistance img (Some bg) dist)
              (Some bg) dist
  = greenscreen LabDistance img (Some bg) dist.
Proof.
  intros Hs.
  destruct (greenscreen_pixels img bg dist w h Hs) as (Hs1 & Hat1).
  destruct (greenscreen_pixels _ bg dist w h Hs1) as (Hs2 & Hat2).
  apply (sized_ext _ _ w h Hs2 Hs1). intros x y Hx Hy.
  rewrite (Hat2 x y Hx Hy), (Hat1 x y Hx Hy).
  destruct (F64.ltb (LabDistance (At img x y) (At bg x y)) dist) eqn:Hclose.
  - destruct (F64.ltb (LabDistance zeroRGBA (At bg x y)) dist); reflexivity.
  - now rewrite Hclose.
Qed.

Context {TColor : Type}.
Variable p : rgba32 -> TColor.
Variable col : rgba32.

(** X10.  Background subtraction followed by character mode: every
    pixel that [greenscreen] finds closer to the background than the
    threshold is drawn as a space. *)
Theorem greenscreen_then_ascii_blank
    (img bg : RGBA) (dist : F64.float64) (w h x y : nat) :
  sized img w h -> (x < w)%nat -> (y < h)%nat ->
  F64.ltb (LabDistance (At img x y) (At bg x y)) dist = true ->
  exists out line cell,
    imageToASCII p col w h (greenscreen LabDistance img (Some bg) dist)
      = Some out /\
    lines out !! y = Some line /\ line !! x = Some cell /\
    text cell = 32%Z.
Proof.
  intros Hs Hx Hy Hclose.
  destruct (greenscreen_pixels img bg dist w h Hs) as (_ & Hat).
  destruct (ascii_line_cell p col w h
              (greenscreen LabDistance img (Some bg) dist) y x Hy Hx)
    as (out & line & Hrun & _ & Hline & _ & Hcell).
  exists out, line, (asciiStyle p col
                       (greenscreen LabDistance img (Some bg) dist) y x).
  repeat (split; [assumption|]).
  unfold asciiStyle. cbn [text].
  rewrite (Hat x y Hx Hy), Hclose. reflexivity.
Qed.

End GreenscreenMore.

Section GreenscreenMoreExamples.
Import color termenv image.

Lemma greenscreen_idempotent_witness :
  greenscreen sqDistance
    (greenscreen sqDistance (onePixel redPixel) (Some (onePixel redPixel))
                 defaultThreshold)
    (Some (onePixel redPixel)) defaultThreshold
  = greenscreen sqDistance (onePixel redPixel) (Some (onePixel redPixel))
                defaultThreshold.
Proof.
  apply (greenscreen_idempotent sqDistance (onePixel redPixel)
           (onePixel redPixel) defaultThreshold 1 1).
  repeat split.
Defined.

Lemma greenscreen_then_ascii_blank_witness :
  exists out line cell,
    imageToASCII (fun v => v) (mkRGBA32 0 0 0 0) 1 1
      (greenscreen sqDistance (onePixel redPixel) (Some (onePixel redPixel))
                   defaultThreshold)
      = Some out /\
    lines out !! 0%nat = Some line /\ line !! 0%nat = Some cell /\
    text cell = 32%Z.
Proof.
  refine (greenscreen_then_ascii_blank sqDistance (fun v => v)
            (mkRGBA32 0 0 0 0) (onePixel redPixel) (onePixel redPixel)
            defaultThreshold 1 1 0 0 _ _ _ _).
  - repeat split.
  - lia.
  - lia.
  - reflexivity.
Defined.

End GreenscreenMoreExamples.


(** ** From the raw frame to the glyph *)

Section DecodeThenRender.
Import color termenv image.
Local Open Scope Z_scope.
Context {TColor : Type}.
Variable p : rgba32 -> TColor.
Variable col : rgba32.

(** X11.  [imageToASCII] applied to the image that [frameRGBToImage]
    returns, with the same width and height and nothing done to the
    image in between: the cell of column [x] in line [y] shows the
    glyph of index [(r + g + b + 27) / 54], where [r], [g], [b] are
    the three bytes of the frame at [(y*width + x)*3].  The width and
    the height are such that [image.NewRGBA] makes the image. *)
Theorem rgb_frame_to_glyph
    (frame : list Z) (w h x y : nat) (r g b : Z) :
  fitsRGBA w h ->
  (x < w)%nat -> (y < h)%nat ->
  frame !! ((y * w + x) * 3)%nat = Some r ->
  frame !! ((y * w + x) * 3 + 1)%nat = Some g ->
  frame !! ((y * w + x) * 3 + 2)%nat = Some b ->
  is_uint8 r -> is_uint8 g -> is_uint8 b ->
  exists img out line cell,
    frameRGBToImage frame w h = Some img /\
    imageToASCII p col w h img = Some out /\
    lines out !! y = Some line /\ line !! x = Some cell /\
    pixels !! Z.to_nat ((r + g + b + 27) / 54) = Some (text cell).
Proof.
  intros Hfits Hx Hy Hfr Hfg Hfb Hr Hg Hb.
  destruct (frameRGBToImage_pixels frame w h Hfits)
    as (img & Hrun & _ & Hat).
  destruct (ascii_line_cell p col w h img y x Hy Hx)
    as (out & line & Hout & _ & Hline & _ & Hcell).
  exists img, out, line, (asciiStyle p col img y x).
  repeat (split; [assumption|]).
  unfold asciiStyle. cbn [text]. rewrite (Hat x y Hx Hy).
  unfold rgbPixel, rgbIndex.
  replace (y * (w * 3) + x * 3)%nat with ((y * w + x) * 3)%nat by lia.
  rewrite Hfr, Hfg, Hfb.
  destruct (pixelToASCII_opaque r g b Hr Hg Hb) as (Hrange & ->).
  destruct (lookup_lt_is_Some_2 pixels (Z.to_nat ((r + g + b + 27) / 54)))
    as [ch Hch].
  { change (length pixels) with 15%nat. lia. }
  now rewrite Hch.
Qed.

End DecodeThenRender.

Section DecodeThenRenderExamples.
Import color termenv image.
Local Open Scope Z_scope.

Lemma rgb_frame_to_glyph_witness :
  exists img out line cell,
    frameRGBToImage [255; 255; 255; 0; 0; 0] 2 1 = Some img /\
    imageToASCII (fun v => v) (mkRGBA32 0 0 0 0) 2 1 img = Some out /\
    lines out !! 0%nat = Some line /\ line !! 0%nat = Some cell /\
    pixels !! Z.to_nat ((255 + 255 + 255 + 27) / 54) = Some (text cell).
Proof.
  refine (rgb_frame_to_glyph (fun v => v) (mkRGBA32 0 0 0 0)
            [255; 255; 255; 0; 0; 0] 2 1 0 0 255 255 255
            _ _ _ _ _ _ _ _ _);
    try reflexivity; try lia; try (unfold is_uint8; lia).
  repeat split; cbn; lia.
Defined.

End DecodeThenRenderExamples.

(** ** YUYV frames without colour *)

Section GreyFrames.
Import color image.
Local Open Scope Z_scope.

(** The conversion of [image/draw] maps a luma byte under neutral
    chroma (128, 128) to the grey of that level. *)
Lemma YCbCrToRGBA_neutral yy :
  is_uint8 yy -> draw.YCbCrToRGBA yy 128 128 = mkRGBA yy yy yy 255.
Proof.
  intros Hy.
  pose (ok := fun v => match draw.YCbCrToRGBA v 128 128 with
                       | mkRGBA r g b a =>
                           (r =? v) && (g =? v) && (b =? v) && (a =? 255)
                       end).
  assert (H : ok yy = true).
  { apply (forallb_range ok 256); [|exact Hy]. vm_compute. reflexivity. }
  unfold ok in H. destruct (draw.YCbCrToRGBA yy 128 128) as [r g b a].
  apply andb_prop in H as (H & Ha). apply andb_prop in H as (H & Hb).
  apply andb_prop in H as (Hr & Hg).
  f_equal; lia.
Qed.

(** X12.  Webcam mode: a YUYV422 frame whose chroma bytes are all 128
    decodes to a grey image, pixel [p] being [(Y, Y, Y, 255)] with [Y]
    the luma byte [frame[2p]]. *)
Theorem frameToImage_neutral_chroma_is_grey
    (frame : list Z) (m h x y : nat) :
  length frame = (2 * m * h * 2)%nat ->
  Forall is_uint8 frame ->
  (forall k, (k < 2 * m * h)%nat -> frame !! (2 * k + 1)%nat = Some 128) ->
  (x < 2 * m)%nat -> (y < h)%nat ->
  exists img yy,
    frameToImage frame (2 * m) h = Some img /\
    frame !! (2 * (y * (2 * m) + x))%nat = Some yy /\
    At img x y = mkRGBA yy yy yy 255.
Proof.
  intros Hlen Hbytes Hchroma Hx Hy.
  destruct (frameToImage_pixels frame m h Hlen) as (img & Hrun & _ & Hat).
  pose proof (offset_lt (2 * m) h x y Hx Hy) as Hp.
  pose proof (Nat.Div0.mul_div_le (y * (2 * m) + x) 2) as Hhalf.
  set (q := (y * (2 * m) + x)%nat) in *.
  destruct (lookup_lt_is_Some_2 frame (2 * q)) as [yy Hyy]; [lia|].
  exists img, yy. split; [exact Hrun|]. split; [exact Hyy|].
  rewrite (Hat x y Hx Hy). unfold yuyvPixel. fold q. rewrite Hyy.
  replace (4 * (q / 2) + 1)%nat with (2 * (2 * (q / 2)) + 1)%nat by lia.
  replace (4 * (q / 2) + 3)%nat with (2 * (2 * (q / 2) + 1) + 1)%nat by lia.
  rewrite !Hchroma by lia.
  apply YCbCrToRGBA_neutral.
  rewrite Forall_lookup in Hbytes. exact (Hbytes _ _ Hyy).
Qed.

Lemma frameToImage_neutral_chroma_is_grey_witness :
  exists img yy,
    frameToImage [255; 128; 0; 128; 100; 128; 200; 128] 2 2 = Some img /\
    [255; 128; 0; 128; 100; 128; 200; 128] !! 6%nat = Some yy /\
    At img 1 1 = mkRGBA yy yy yy 255.
Proof.
  refine (frameToImage_neutral_chroma_is_grey
            [255; 128; 0; 128; 100; 128; 200; 128] 1 2 1 1 _ _ _ _ _).
  - reflexivity.
  - repeat constructor; unfold is_uint8; lia.
  - intros k Hk.
    destruct k as [|[|[|[|k]]]]; try reflexivity. cbn in Hk. lia.
  - lia.
  - lia.
Defined.

End GreyFrames.


(** ** The read loop of [run]: cancellation, chunking, empty frames *)

Section RunCancel.
Import io.
Context {R : Type} `{Stream R}.
Variable cancelled : nat -> bool.

(** The loop on a stream that holds at least [t] frames, cancelled
    for the first time at the top of tick [tick + t]. *)
Lemma gstLoop_cancel (w h size : nat) :
  (forall frame, exists img, frameRGBToImage frame w h = Some img) ->
  forall t fuel tick (r : R) imgs,
  valid r ->
  (t * size <= length (content r))%nat ->
  (forall u, (tick <= u < tick + t)%nat -> cancelled u = false) ->
  cancelled (tick + t) = true ->
  (t + size + 2 <= fuel)%nat ->
  exists new,
    gstLoop cancelled fuel tick r w h size imgs
    = Some (ReturnNil, imgs ++ new) /\
    length new = t /\
    forall j, (j < t)%nat ->
      frameRGBToImage (frameAt size j (content r)) w h = new !! j.
Proof.
  intros Hdec.
  induction t as [|t IH]; intros fuel tick r imgs Hv Hlen
    Hrun Hstop Hfuel; (destruct fuel as [|fuel]; [lia|]); cbn [gstLoop].
  - rewrite Nat.add_0_r in Hstop. rewrite Hstop.
    exists []. rewrite app_nil_r.
    split; [reflexivity|]. split; [reflexivity | intros j Hj; lia].
  - rewrite (Hrun tick) by lia.
    destruct (ReadFull_frame fuel r size Hv) as (r' & Hread & Hc & He & Hv');
      [lia | nia |].
    rewrite Hread. cbn.
    destruct (Hdec (take size (content r))) as (img & Himg).
    rewrite Himg.
    destruct (IH fuel (S tick) r' (imgs ++ [img]) Hv')
      as (new & Hloop & Hnew & Hframes).
    + rewrite Hc, length_drop. lia.
    + intros u Hu. apply Hrun. lia.
    + rewrite <- Hstop. f_equal. lia.
    + lia.
    + exists (img :: new). rewrite Hloop.
      rewrite <- app_assoc. split; [reflexivity|].
      split; [cbn; now rewrite Hnew|].
      intros [|j] Hj.
      * unfold frameAt. cbn [Nat.mul drop lookup]. exact Himg.
      * change ((img :: new) !! S j) with (new !! j).
        rewrite <- Hframes by lia.
        unfold frameAt. rewrite Hc, drop_drop. do 3 f_equal; lia.
Qed.

(** The loop with a size for which [image.NewRGBA] panics: the first
    tick reads a frame, if the stream holds one, and panics. *)
Lemma gstLoop_decoder_panics (w h size : nat) (fuel : nat) (r : R) :
  (forall frame, frameRGBToImage frame w h = None) ->
  valid r -> cancelled 0 = false -> (size + 2 <= fuel)%nat ->
  gstLoop cancelled fuel 0 r w h size []
  = Some (if (size <=? length (content r))%nat
          then Panic else exitOn (ending r), []).
Proof.
  intros Hdec Hv Hrun Hfuel. destruct fuel as [|fuel]; [lia|].
  cbn [gstLoop]. rewrite Hrun.
  destruct (Nat.leb_spec size (length (content r))) as [Hle|Hgt].
  - destruct (ReadFull_frame fuel r size Hv) as (r' & Hread & _); [lia..|].
    rewrite Hread. cbn. now rewrite Hdec.
  - destruct (ReadFull_short fuel r size Hv) as (r' & Hread); [lia..|].
    remember (if (0 <? length (content r))%nat
                 && bool_decide (ending r = EOF)
              then ErrUnexpectedEOF else ending r) as e' eqn:He'.
    rewrite Hread. cbn. rewrite <- (exit_of_short_read _ _ _ He').
    now destruct (bool_decide (e' = EOF) || bool_decide (e' = ErrUnexpectedEOF)).
Qed.

(** X13.  Cancellation is looked at once per tick, before the read.
    For a width and a height such that [image.NewRGBA] makes the image
    ([4*width*height] below [2^63], so that the frame size does not
    wrap around): if the context is cancelled for the first time at
    the top of tick [t] and the stream holds at least [t] frames,
    [run] returns [nil] after decoding exactly the first [t] frames;
    what the stream holds beyond them, and how it ends, plays no
    part. *)
Theorem gst_loop_stops_on_cancel (r : R) (w h t fuel : nat) :
  valid r -> fitsRGBA w h ->
  (t * (w * h * 3) <= length (content r))%nat ->
  (forall u, (u < t)%nat -> cancelled u = false) ->
  cancelled t = true ->
  (t + w * h * 3 + 2 <= fuel)%nat ->
  exists imgs,
    gstRun cancelled fuel r w h = Some (ReturnNil, imgs) /\
    length imgs = t /\
    forall j, (j < t)%nat ->
      frameRGBToImage (frameAt (w * h * 3) j (content r)) w h = imgs !! j.
Proof.
  intros Hv Hfits Hlen Hrun Hstop Hfuel.
  destruct (gstLoop_cancel w h (w * h * 3)
              (fun frame => frameRGBToImage_total frame w h Hfits)
              t fuel 0 r [] Hv Hlen)
    as (imgs & Hloop & Ht & Hframes);
    [intros; apply Hrun; lia | exact Hstop | exact Hfuel |].
  exists imgs. rewrite gstRun_fits by assumption.
  split; [exact Hloop|]. split; [exact Ht | exact Hframes].
Qed.

End RunCancel.

Section RunChunking.
Import io.
Context {R1 : Type} `{Stream R1} {R2 : Type} `{Stream R2}.
Variable cancelled : nat -> bool.

(** X14.  The loop depends on the bytes of the stream and on its
    final error only, not on how the bytes arrive: two readers with
    the same remaining content and the same ending, the pipe read
    directly and the pipe read through [bufio.Reader] say, make [run]
    decode the same images and end the same way.  This holds for
    every width and height; [size] is the frame size that [run]
    computes, wrap-around included. *)
Theorem gst_loop_independent_of_chunking
    (r1 : R1) (r2 : R2) (w h fuel : nat) :
  valid r1 -> valid r2 ->
  content r1 = content r2 -> ending r1 = ending r2 ->
  let size := Z.to_nat (frameSizeRGB w h) in
  (0 < size)%nat ->
  (forall t, (t <= length (content r1) / size)%nat ->
             cancelled t = false) ->
  (length (content r1) / size + size + 2 <= fuel)%nat ->
  exists res,
    gstRun cancelled fuel r1 w h = Some res /\
    gstRun cancelled fuel r2 w h = Some res.
Proof.
  intros Hv1 Hv2 Hc He size Hsize Hrun Hfuel.
  assert (Hpos : (0 <= frameSizeRGB w h)%Z) by (unfold size in Hsize; lia).
  unfold gstRun.
  destruct (Z.ltb_spec (frameSizeRGB w h) 0) as [|_]; [lia|]. fold size.
  destruct (frameRGBToImage_dichotomy w h) as [Hdec|Hdec].
  - set (k := (length (content r1) / size)%nat) in *.
    assert (Hlen : length (content r1)
                   = (k * size + length (content r1) mod size)%nat).
    { unfold k. rewrite (Nat.div_mod_eq (length (content r1)) size) at 1.
      lia. }
    assert (Hm : (length (content r1) mod size < size)%nat)
      by (apply Nat.mod_upper_bound; lia).
    destruct (gstLoop_stream cancelled w h size Hdec k fuel 0 r1 [] _
                Hv1 Hsize Hlen Hm)
      as (new1 & Hloop1 & Hk1 & Hframes1);
      [intros; apply Hrun; lia | exact Hfuel |].
    rewrite Hc in Hlen, Hm.
    destruct (gstLoop_stream cancelled w h size Hdec k fuel 0 r2 [] _
                Hv2 Hsize Hlen Hm)
      as (new2 & Hloop2 & Hk2 & Hframes2);
      [intros; apply Hrun; lia | exact Hfuel |].
    assert (Hnew : new1 = new2).
    { apply list_eq. intros j.
      destruct (Nat.lt_ge_cases j k) as [Hj|Hj].
      - rewrite <- Hframes1, <- Hframes2 by assumption. now rewrite Hc.
      - rewrite !lookup_ge_None_2 by lia. reflexivity. }
    exists (exitOn (ending r1), new1). split; [exact Hloop1|].
    rewrite Hloop2, <- He, Hnew. reflexivity.
  - assert (Hgo : cancelled 0 = false) by (apply Hrun; lia).
    rewrite (gstLoop_decoder_panics cancelled w h size fuel r1 Hdec Hv1 Hgo)
      by lia.
    rewrite (gstLoop_decoder_panics cancelled w h size fuel r2 Hdec Hv2 Hgo)
      by lia.
    rewrite <- Hc, <- He. eexists. split; reflexivity.
Qed.

End RunChunking.

Section RunEmptyFrame.
Import io.
Context {R : Type} `{Reader R}.
Variable cancelled : nat -> bool.

Lemma ReadFull_nothing fuel (r : R) : ReadFull fuel r 0 = Some ([], None, r).
Proof. destruct fuel; reflexivity. Qed.

Lemma gstLoop_empty_frame (w h : nat) :
  (exists img, frameRGBToImage [] w h = Some img) ->
  forall fuel tick (r : R) imgs,
  (forall t, cancelled t = false) ->
  gstLoop cancelled fuel tick r w h 0 imgs = None.
Proof.
  intros (img & Himg).
  induction fuel as [|fuel IH]; intros tick r imgs Hrun; [reflexivity|].
  cbn [gstLoop]. rewrite Hrun, ReadFull_nothing. cbn.
  rewrite Himg. now apply IH.
Qed.

Lemma frameSizeRGB_empty w h : (w * h = 0)%nat -> frameSizeRGB w h = 0%Z.
Proof.
  intros Hsize. unfold frameSizeRGB.
  rewrite <- Nat2Z.inj_mul, Hsize. reflexivity.
Qed.

(** X15.  With a frame size of 0 bytes (a [-camWidth] or
    [-camHeight] of 0) the loop never reads from the child and never
    sees the end of its stream: [io.ReadFull] of an empty buffer
    succeeds at once.  If the other flag is such that [image.NewRGBA]
    makes the empty image, then as long as the context is not
    cancelled [run] does not return, whatever the reader is; if it is
    so large that [image.NewRGBA] panics, [run] panics in the first
    tick. *)
Theorem gst_empty_frame_never_returns (r : R) (w h : nat) :
  (w * h = 0)%nat -> (forall t, cancelled t = false) ->
  (fitsRGBA w h -> forall fuel, gstRun cancelled fuel r w h = None) /\
  (frameRGBToImage [] w h = None ->
   forall fuel, gstRun cancelled (S fuel) r w h = Some (Panic, [])).
Proof.
  intros Hsize Hrun. unfold gstRun.
  rewrite (frameSizeRGB_empty w h Hsize). cbn [Z.ltb Z.compare Z.to_nat].
  split.
  - intros Hfits fuel. apply gstLoop_empty_frame; [|exact Hrun].
    now apply frameRGBToImage_total.
  - intros Hnone fuel. cbn [gstLoop].
    rewrite Hrun, ReadFull_nothing. cbn. now rewrite Hnone.
Qed.

End RunEmptyFrame.

Section RunMoreExamples.
Import io.

Lemma gst_loop_stops_on_cancel_witness :
  exists imgs,
    gstRun (fun t => bool_decide (t = 1%nat)) 10 truncatedStream 1 1
    = Some (ReturnNil, imgs) /\
    length imgs = 1%nat /\
    forall j, (j < 1)%nat ->
      frameRGBToImage (frameAt (1 * 1 * 3) j (content truncatedStream)) 1 1
      = imgs !! j.
Proof.
  refine (gst_loop_stops_on_cancel (fun t => bool_decide (t = 1%nat))
            truncatedStream 1 1 1 10 _ _ _ _ _ _).
  - split; [exact I | reflexivity].
  - repeat split; cbn; lia.
  - cbn. lia.
  - intros u Hu. apply bool_decide_eq_false_2. lia.
  - reflexivity.
  - cbn. lia.
Defined.

Lemma gst_loop_independent_of_chunking_witness :
  exists res,
    gstRun (fun _ => false) 10 (mkPipe [[1; 2; 3; 4]; [5]]%Z EOF) 1 1
    = Some res /\
    gstRun (fun _ => false) 10 truncatedStream 1 1 = Some res.
Proof.
  refine (gst_loop_independent_of_chunking (fun _ => false)
            (mkPipe [[1; 2; 3; 4]; [5]]%Z EOF) truncatedStream 1 1 10
            _ _ _ _ _ _ _).
  - exact I.
  - split; [exact I | reflexivity].
  - reflexivity.
  - reflexivity.
  - vm_compute. lia.
  - reflexivity.
  - vm_compute. lia.
Defined.

Lemma gst_empty_frame_never_returns_witness :
  gstRun (fun _ => false) 1000 truncatedStream 0 5 = None.
Proof.
  refine (proj1 (gst_empty_frame_never_returns (fun _ => false)
                   truncatedStream 0 5 _ _) _ 1000); try reflexivity.
  repeat split; cbn; lia.
Defined.

End RunMoreExamples.


(** ** The FPS window over any run of ticks *)

Section FPSHistory.
Import fps.
Local Open Scope Z_scope.

Lemma take_app_take {X} (n : nat) (a : list X) (s : X) (w : list X) :
  take n (a ++ s :: take (n - 1) w) = take n (a ++ s :: w).
Proof.
  rewrite !take_app.
  destruct (n - length a)%nat as [|k] eqn:Hk; [reflexivity|].
  cbn [take]. rewrite take_take. do 3 f_equal. lia.
Qed.

Lemma ticks_window (ds : list Z) : forall (w : list F64.float64) last,
  w <> [] -> Forall (fun d => d <> 0) ds ->
  let window :=
    take (length w) (rev (map (fun d => F64.of_Z (Z.quot Second d)) ds) ++ w)
  in
  ticks w ds last
  = Some (window, match ds with [] => last | _ => average window end).
Proof.
  induction ds as [|d ds IH]; intros w last Hw Hds window.
  - unfold window. cbn. now rewrite take_ge by lia.
  - inversion Hds as [|? ? Hd Hrest]; subst.
    rewrite ticks_cons, tick_spec by assumption.
    set (s := F64.of_Z (Z.quot Second d)).
    assert (Hlen : length (s :: take (length w - 1) w) = length w).
    { destruct w; [done|]. cbn [length]. rewrite length_take. cbn. lia. }
    rewrite IH by (assumption || discriminate). rewrite Hlen.
    assert (Heq : take (length w)
                    (rev (map (fun d => F64.of_Z (Z.quot Second d)) ds)
                     ++ s :: take (length w - 1) w) = window).
    { unfold window. cbn [map rev]. rewrite <- app_assoc. cbn [app].
      apply take_app_take. }
    rewrite Heq. f_equal. f_equal.
    destruct ds as [|d' ds']; [|reflexivity].
    unfold window. cbn [map rev app].
    destruct w as [|a w]; [done|].
    cbn [length take Nat.sub]. now rewrite Nat.sub_0_r.
Qed.

(** X16.  After any run of ticks with non-zero elapsed times the
    window holds the samples of the most recent ticks, newest first,
    as many as it has slots: its length never changes, and once it has
    seen as many ticks as it has slots nothing of its earlier content
    is left.  The number reported last is the mean of that window. *)
Theorem fps_window_history
    (w : list F64.float64) (ds : list Z) (last : F64.float64) :
  w <> [] -> ds <> [] -> Forall (fun d => d <> 0) ds ->
  let samples := rev (map (fun d => F64.of_Z (Z.quot Second d)) ds) in
  exists window,
    ticks w ds last = Some (window, average window) /\
    length window = length w /\
    window = take (length w) (samples ++ w) /\
    ((length w <= length ds)%nat -> window = take (length w) samples).
Proof.
  intros Hw Hds Hnz samples.
  exists (take (length w) (samples ++ w)). split.
  - rewrite ticks_window by assumption.
    destruct ds; [done | reflexivity].
  - split.
    + rewrite length_take, length_app. lia.
    + split; [reflexivity|]. intros Hlen.
      rewrite take_app_le; [reflexivity|].
      unfold samples. rewrite length_rev, length_map. exact Hlen.
Qed.

Lemma fps_window_history_witness :
  let samples :=
    rev (map (fun d => F64.of_Z (Z.quot Second d)) [20000000; 40000000]) in
  exists window,
    ticks seed [20000000; 40000000] F64.zero
      = Some (window, average window) /\
    length window = length seed /\
    window = take (length seed) (samples ++ seed) /\
    ((length seed <= length [20000000; 40000000]%Z)%nat ->
     window = take (length seed) samples).
Proof.
  refine (fps_window_history seed [20000000; 40000000] F64.zero _ _ _).
  - discriminate.
  - discriminate.
  - repeat constructor; discriminate.
Defined.

Lemma map_replicate {X Y'} (f : X -> Y') (k : nat) (x : X) :
  map f (replicate k x) = replicate k (f x).
Proof. induction k as [|k IH]; [reflexivity|]. cbn. now rewrite IH. Qed.

Lemma replicate_snoc {X} (k : nat) (x : X) :
  replicate k x ++ [x] = x :: replicate k x.
Proof. induction k as [|k IH]; [reflexivity|]. cbn. now rewrite IH. Qed.

Lemma rev_replicate {X} (k : nat) (x : X) :
  rev (replicate k x) = replicate k x.
Proof.
  induction k as [|k IH]; [reflexivity|].
  cbn [replicate rev]. rewrite IH. apply replicate_snoc.
Qed.

Lemma add_zero_r (n : Z) :
  0 <= n < 2 ^ 53 -> F64.add (F64.of_Z n) F64.zero = F64.of_Z n.
Proof.
  intros Hn. destruct (Z.eq_dec n 0) as [->|Hne]; [reflexivity|].
  rewrite of_Z_normal by lia. reflexivity.
Qed.

Lemma total_zeros (n : Z) (k : nat) :
  0 <= n < 2 ^ 53 ->
  foldl F64.add (F64.of_Z n) (replicate k F64.zero) = F64.of_Z n.
Proof.
  intros Hn. induction k as [|k IH]; [reflexivity|].
  cbn [replicate foldl]. now rewrite add_zero_r.
Qed.

(** X17.  Warm-up.  The window starts as ten zeros.  After [k <= 10]
    ticks of one and the same elapsed time the window holds the sample
    [N] [k] times, followed by the zeros that are left, and the number
    reported is [k*N/10]: the true rate only from the tenth tick on. *)
Theorem fps_warm_up (d : Z) (k : nat) :
  0 < d <= Second -> (0 < k <= 10)%nat ->
  let N := Z.quot Second d in
  ticks seed (replicate k d) F64.zero
  = Some (replicate k (F64.of_Z N) ++ replicate (10 - k) F64.zero,
          F64.div (F64.of_Z (Z.of_nat k * N)) (F64.of_Z 10)).
Proof.
  intros Hd Hk N.
  assert (HN : 0 < N <= Second).
  { unfold N. rewrite Z.quot_div_nonneg by lia. split.
    - apply Z.div_str_pos. lia.
    - apply Z.div_le_upper_bound; nia. }
  rewrite ticks_window.
  - destruct k as [|k]; [lia|]. cbn [replicate].
    rewrite <- (replicate_S k d : replicate (S k) d = d :: replicate k d).
    rewrite map_replicate, rev_replicate. fold N.
    assert (Hwin : take (length seed) (replicate (S k) (F64.of_Z N) ++ seed)
                   = replicate (S k) (F64.of_Z N)
                     ++ replicate (10 - S k) F64.zero).
    { change seed with (replicate 10 F64.zero). rewrite length_replicate.
      rewrite take_app, length_replicate, take_replicate.
      rewrite take_replicate. f_equal; f_equal; lia. }
    rewrite Hwin. do 2 f_equal.
    unfold average, total. rewrite foldl_app.
    change F64.zero with (F64.of_Z (0 * N)) at 1.
    unfold Second in *.
    assert (Hb : 0 <= Z.of_nat (S k) * N <= 10 * 1000000000) by nia.
    rewrite total_replicate by lia.
    rewrite total_zeros by lia.
    rewrite length_app, !length_replicate.
    replace (S k + (10 - S k))%nat with 10%nat by lia.
    do 2 f_equal.
  - discriminate.
  - apply Forall_replicate. lia.
Qed.

Lemma fps_warm_up_witness :
  let N := Z.quot Second 20000000 in
  ticks seed (replicate 3 20000000) F64.zero
  = Some (replicate 3 (F64.of_Z N) ++ replicate (10 - 3) F64.zero,
          F64.div (F64.of_Z (Z.of_nat 3 * N)) (F64.of_Z 10)).
Proof.
  refine (fps_warm_up 20000000 3 _ _); [unfold Second; lia | lia].
Defined.

(** X18.  The FPS block faults exactly when no time has passed: the
    sample is a quotient of two [time.Duration]s, and a tick measured
    as 0 ns is an integer division by zero.  The window itself, never
    empty, is never the cause. *)
Theorem fps_tick_faults_only_on_zero_elapsed
    (w : list F64.float64) (d : Z) :
  w <> [] -> (tick w d = None <-> d = 0).
Proof.
  intros Hw. split.
  - intros Hnone. destruct (Z.eq_dec d 0) as [|Hd]; [assumption|].
    rewrite tick_spec in Hnone by assumption. discriminate.
  - intros ->. unfold tick, shift.
    rewrite shiftFrom_spec by (destruct w; [done | cbn; lia]).
    reflexivity.
Qed.

Lemma fps_tick_faults_only_on_zero_elapsed_witness :
  tick seed 0 = None <-> 0 = 0.
Proof.
  apply (fps_tick_faults_only_on_zero_elapsed seed 0). discriminate.
Defined.

End FPSHistory.


(** ** The size of the output *)

Section OutputSizeFacts.
Local Open Scope Z_scope.
Variable bits : Z.
Hypothesis Hbits : 8 <= bits.




(** X20.  With [-ansi] the height handed to the resizer and to
    [imageToANSI] is even: it is twice the number of lines, as a
    [uint]. *)
Theorem outputSize_ansi_even (w h : Z) (terminal : option (Z * Z)) :
  Z.even (snd (outputSize bits w h terminal true)) = true /\
  snd (outputSize bits w h terminal true)
  = uint bits (2 * snd (outputSize bits w h terminal false)).
Proof.
  assert (Heven : forall v, Z.even (uint bits (v * 2)) = true).
  { intros v. unfold uint.
    replace bits with (1 + (bits - 1)) by lia.
    rewrite Z.pow_add_r by lia. change (2 ^ 1) with 2.
    rewrite Z.mul_comm, Z.mul_mod_distr_l by
      (try apply Z.pow_nonzero; lia).
    now rewrite Z.even_mul. }
  unfold outputSize.
  destruct terminal as [[wTerm hTerm]|]; cbn [snd];
    (split; [apply Heven | f_equal; lia]).
Qed.

End OutputSizeFacts.


Lemma outputSize_ansi_even_witness :
  Z.even (snd (outputSize 64 0 0 (Some (80, 24)%Z) true)) = true /\
  snd (outputSize 64 0 0 (Some (80, 24)%Z) true)
  = uint 64 (2 * snd (outputSize 64 0 0 (Some (80, 24)%Z) false)).
Proof.
  refine (outputSize_ansi_even 64 _ 0 0 (Some (80, 24)%Z)). lia.
Defined.

(** ** The loop of [run], webcam mode *)

Section WebcamFacts.
Import image.

(** X21.  Webcam mode passes over wait timeouts and empty frames:
    as long as the context is not cancelled, the images decoded and
    the way [run] ends are those of the same events with the timeouts
    and the empty frames left out, from any tick and with any images
    decoded before. *)
Theorem camLoop_skips_timeouts_and_empty_frames (w h : nat) :
  forall (events : list camEvent) (t1 t2 : nat) (imgs : list RGBA),
  camLoop (fun _ => false) events t1 w h imgs
  = camLoop (fun _ => false) (filter (fun ev => negb (skipped ev)) events)
            t2 w h imgs.
Proof.
  induction events as [|ev events IH]; intros t1 t2 imgs; [reflexivity|].
  destruct ev as [| code | code | frame].
  - cbn [camLoop]. rewrite (IH (S t1) t2). reflexivity.
  - reflexivity.
  - reflexivity.
  - destruct frame as [|b frame].
    + cbn [camLoop length Nat.eqb]. rewrite (IH (S t1) t2). reflexivity.
    + rewrite filter_cons_True by (cbn; exact I || reflexivity || done).
      cbn [camLoop length Nat.eqb].
      destruct (frameToImage (b :: frame) w h); [|reflexivity].
      apply IH.
Qed.

Lemma camLoop_skip_prefix (cancelled : nat -> bool) (w h : nat) :
  forall skip tick rest imgs,
  Forall (fun ev => skipped ev = true) skip ->
  (forall t, (tick <= t <= tick + length skip)%nat -> cancelled t = false) ->
  camLoop cancelled (skip ++ rest) tick w h imgs
  = camLoop cancelled rest (tick + length skip) w h imgs.
Proof.
  induction skip as [|ev skip IH]; intros tick rest imgs Hskip Hrun.
  - cbn. now rewrite Nat.add_0_r.
  - inversion Hskip as [|? ? Hev Hrest]; subst.
    cbn [app length].
    replace (tick + S (length skip))%nat with (S tick + length skip)%nat
      by lia.
    rewrite <- IH; [|assumption | intros t Ht; apply Hrun; cbn; lia].
    destruct ev as [| code | code | [|b frame]]; try discriminate;
      cbn [camLoop length Nat.eqb];
      rewrite (Hrun tick) by lia; reflexivity.
Qed.

(** X22.  Webcam mode with an odd [-camWidth] (and a [-camHeight]
    that is not 0): the first frame that is not empty makes [run]
    panic in [frameToImage], before any image is produced; the
    timeouts and empty frames before it change nothing. *)
Theorem camLoop_odd_width_panics
    (cancelled : nat -> bool) (skip rest : list camEvent)
    (frame : list Z) (m h : nat) :
  Forall (fun ev => skipped ev = true) skip ->
  frame <> [] -> (0 < h)%nat ->
  (forall t, (t <= length skip)%nat -> cancelled t = false) ->
  camLoop cancelled (skip ++ Frame frame :: rest) 0 (2 * m + 1) h []
  = (CamPanic, []).
Proof.
  intros Hskip Hframe Hh Hrun.
  rewrite camLoop_skip_prefix by (assumption || (intros; apply Hrun; lia)).
  cbn [camLoop Nat.add]. rewrite Hrun by lia.
  destruct frame as [|b frame]; [done|]. cbn [length Nat.eqb].
  now rewrite frameToImage_odd_width_faults_always.
Qed.

Lemma camLoop_decodes (cancelled : nat -> bool) (m h : nat) :
  forall events tick imgs,
  Forall (fun ev => exists frame, ev = Frame frame /\
                      length frame = (2 * m * h * 2)%nat) events ->
  (0 < m * h)%nat ->
  (forall t, (tick <= t <= tick + length events)%nat -> cancelled t = false) ->
  exists new,
    camLoop cancelled events tick (2 * m) h imgs = (CamPending, imgs ++ new) /\
    Forall2 (fun ev img => exists frame,
               ev = Frame frame /\ frameToImage frame (2 * m) h = Some img)
            events new.
Proof.
  induction events as [|ev events IH]; intros tick imgs Hev Hsize Hrun.
  - exists []. cbn [camLoop]. rewrite Hrun by (cbn; lia).
    rewrite app_nil_r. split; [reflexivity | constructor].
  - inversion Hev as [|? ? (frame & -> & Hlen) Hrest]; subst.
    destruct (frameToImage_pixels frame m h Hlen) as (img & Himg & _).
    destruct (IH (S tick) (imgs ++ [img]) Hrest Hsize)
      as (new & Hloop & Hall).
    { intros t Ht. apply Hrun. cbn [length]. lia. }
    exists (img :: new). cbn [camLoop].
    rewrite Hrun by (cbn [length]; lia).
    destruct (Nat.eqb_spec (length frame) 0) as [H0|_]; [lia|].
    rewrite Himg, Hloop, <- app_assoc. split; [reflexivity|].
    constructor; [|exact Hall]. now exists frame.
Qed.

(** X23.  Webcam mode, frames of the right size (even width,
    [width*height*2] bytes): every frame is decoded, in the order of
    arrival, one image per frame, and the loop goes on waiting for
    the camera. *)
Theorem camLoop_decodes_every_frame
    (cancelled : nat -> bool) (frames : list (list Z)) (m h : nat) :
  Forall (fun frame => length frame = (2 * m * h * 2)%nat) frames ->
  (0 < m * h)%nat ->
  (forall t, (t <= length frames)%nat -> cancelled t = false) ->
  exists imgs,
    camLoop cancelled (map Frame frames) 0 (2 * m) h [] = (CamPending, imgs) /\
    Forall2 (fun frame img => frameToImage frame (2 * m) h = Some img)
            frames imgs.
Proof.
  intros Hframes Hsize Hrun.
  destruct (camLoop_decodes cancelled m h (map Frame frames) 0 [])
    as (imgs & Hloop & Hall).
  - apply Forall_forall. intros ev Hin. apply in_map_iff in Hin.
    destruct Hin as (frame & <- & Hin). exists frame. split; [reflexivity|].
    rewrite Forall_forall in Hframes. now apply Hframes.
  - exact Hsize.
  - intros t Ht. apply Hrun. rewrite length_map in Ht. lia.
  - exists imgs. split; [exact Hloop|].
    clear Hloop Hframes Hrun. revert imgs Hall.
    induction frames as [|f frames IH]; intros imgs Hall.
    + inversion Hall. constructor.
    + inversion Hall as [|? img ? imgs' (f' & Heq & Himg) Hrest]; subst.
      injection Heq as <-. constructor; [exact Himg | now apply IH].
Qed.

End WebcamFacts.


Section WebcamExamples.
Import image.

Lemma camLoop_odd_width_panics_witness :
  camLoop (fun _ => false)
          ([WaitTimeout; Frame []] ++ Frame [16; 128; 16; 128]%Z :: [])
          0 (2 * 1 + 1) 1 []
  = (CamPanic, []).
Proof.
  refine (camLoop_odd_width_panics (fun _ => false) [WaitTimeout; Frame []]
            [] [16; 128; 16; 128]%Z 1 1 _ _ _ _).
  - repeat constructor.
  - discriminate.
  - lia.
  - reflexivity.
Defined.

Lemma camLoop_decodes_every_frame_witness :
  exists imgs,
    camLoop (fun _ => false) (map Frame [[255; 128; 0; 128]%Z]) 0 (2 * 1) 1 []
    = (CamPending, imgs) /\
    Forall2 (fun frame img => frameToImage frame (2 * 1) 1 = Some img)
            [[255; 128; 0; 128]%Z] imgs.
Proof.
  refine (camLoop_decodes_every_frame (fun _ => false)
            [[255; 128; 0; 128]%Z] 1 1 _ _ _).
  - repeat constructor.
  - lia.
  - reflexivity.
Defined.

End WebcamExamples.

(** ** The arguments of the child process *)

Section GstArgsFacts.
Local Open Scope Z_scope.

Lemma solid_snoc cur c :
  solid cur = true -> isSpace c = false -> solid (cur ++ [c]) = true.
Proof.
  unfold solid. intros Hcur Hc. rewrite forallb_app, Hcur. cbn. now rewrite Hc.
Qed.

Lemma fieldsFrom_solid : forall s cur,
  solid cur = true ->
  Forall (fun f => f <> [] /\ solid f = true) (fieldsFrom cur s).
Proof.
  induction s as [|c s IH]; intros cur Hcur; cbn [fieldsFrom].
  - destruct cur; [constructor|].
    constructor; [split; [discriminate | exact Hcur] | constructor].
  - destruct (isSpace c) eqn:Hc.
    + destruct cur as [|a cur]; [now apply IH|].
      constructor; [split; [discriminate | exact Hcur]|].
      now apply IH.
    + apply IH. now apply solid_snoc.
Qed.

Lemma fieldsFrom_concat : forall s cur,
  concat (fieldsFrom cur s)
  = cur ++ List.filter (fun c => negb (isSpace c)) s.
Proof.
  induction s as [|c s IH]; intros cur; cbn [fieldsFrom List.filter].
  - destruct cur; cbn; now rewrite ?app_nil_r.
  - destruct (isSpace c) eqn:Hc; cbn [negb].
    + destruct cur as [|a cur]; [apply IH|].
      cbn [concat]. now rewrite IH.
    + rewrite IH, <- app_assoc. reflexivity.
Qed.

Lemma fieldsFrom_word : forall a cur s,
  solid a = true -> fieldsFrom cur (a ++ s) = fieldsFrom (cur ++ a) s.
Proof.
  induction a as [|c a IH]; intros cur s Ha.
  - now rewrite app_nil_r.
  - cbn in Ha. apply andb_prop in Ha as (Hc & Ha).
    apply negb_true_iff in Hc.
    cbn [app fieldsFrom]. rewrite Hc, IH by assumption.
    now rewrite <- app_assoc.
Qed.

Lemma fieldsFrom_blanks : forall sp s,
  forallb isSpace sp = true -> fieldsFrom [] (sp ++ s) = fieldsFrom [] s.
Proof.
  induction sp as [|c sp IH]; intros s Hsp; [reflexivity|].
  cbn in Hsp. apply andb_prop in Hsp as (Hc & Hsp).
  cbn [app fieldsFrom]. rewrite Hc. now apply IH.
Qed.

Lemma Fields_word (b : list Z) :
  b <> [] -> solid b = true -> fieldsFrom [] b = [b].
Proof.
  intros Hb Hsb. rewrite <- (app_nil_r b) at 1.
  rewrite fieldsFrom_word by assumption.
  cbn [app fieldsFrom]. destruct b; [done | reflexivity].
Qed.

(** X24.  The child is started with ["-e"] followed by the fields of
    the pipeline string: no argument after the first is empty or
    contains white space, and put together the arguments are the
    pipeline with its white space removed, so nothing else is lost or
    added. *)
Theorem gstArgs_shape (pipeline : list Z) :
  exists fields,
    gstArgs pipeline = [45; 101] :: fields /\
    Forall (fun f => f <> [] /\ solid f = true) fields /\
    concat fields = List.filter (fun c => negb (isSpace c)) pipeline /\
    (forallb isSpace pipeline = true -> fields = []).
Proof.
  exists (Fields pipeline). split; [reflexivity|]. split.
  - now apply fieldsFrom_solid.
  - split; [apply fieldsFrom_concat|].
    intros Hsp. unfold Fields.
    rewrite <- (app_nil_r pipeline). now rewrite fieldsFrom_blanks.
Qed.

(** X25.  The pipeline is cut at every run of white space, quoted or
    not: quote characters are ordinary runes.  Two parts without
    white space that are separated by white space always make two
    arguments. *)
Theorem gstArgs_splits_at_white_space (a sp b : list Z) :
  a <> [] -> solid a = true -> sp <> [] -> forallb isSpace sp = true ->
  b <> [] -> solid b = true ->
  gstArgs (a ++ sp ++ b) = [[45; 101]; a; b].
Proof.
  intros Ha Hsa Hsp Hssp Hb Hsb. unfold gstArgs, Fields.
  rewrite fieldsFrom_word by assumption. cbn [app].
  destruct sp as [|c sp]; [done|].
  cbn in Hssp. apply andb_prop in Hssp as (Hc & Hssp).
  cbn [app fieldsFrom]. rewrite Hc.
  destruct a as [|x a]; [done|].
  rewrite fieldsFrom_blanks by assumption.
  now rewrite Fields_word.
Qed.

Lemma gstArgs_splits_at_white_space_witness :
  gstArgs ([34; 97] ++ [32; 9] ++ [98; 34]) = [[45; 101]; [34; 97]; [98; 34]].
Proof.
  refine (gstArgs_splits_at_white_space [34; 97] [32; 9] [98; 34]
            _ _ _ _ _ _); (discriminate || reflexivity).
Defined.

End GstArgsFacts.

(** ** Writing background samples *)

Section GenFacts.

Lemma genLoop_written : forall n i files rest,
  (i + n <= 100)%nat ->
  genLoop (replicate n Written ++ rest) i files
  = genLoop rest (i + n) (files ++ seq i n).
Proof.
  induction n as [|n IH]; intros i files rest Hle.
  - cbn. now rewrite Nat.add_0_r, app_nil_r.
  - cbn [replicate app genLoop].
    destruct (Nat.ltb_spec 100 (S i)) as [|_]; [lia|].
    rewrite IH by lia. cbn [seq]. rewrite <- app_assoc.
    f_equal. lia.
Qed.

Lemma genLoop_full (n : nat) (rest : list genEvent) :
  (101 <= n)%nat ->
  genLoop (replicate n Written ++ rest) 0 [] = (ExitZero, seq 0 101).
Proof.
  intros Hn.
  replace n with (100 + S (n - 101))%nat by lia.
  rewrite replicate_add, <- app_assoc, genLoop_written by lia.
  cbn [replicate app genLoop Nat.add].
  reflexivity.
Qed.

(** X26.  With [-gen] the frames are written to files numbered from
    0 without gaps.  The 101st file, number 100, is the last: after it
    the process exits with status 0, and no later frame is looked at.
    An error before that ends [run] with the files written so far.
    The file [loadBgSamples] reads back, number 40, is there once 41
    frames have been written. *)
Theorem gen_sample_files (n : nat) (rest : list genEvent) :
  ((101 <= n)%nat ->
   genLoop (replicate n Written ++ rest) 0 [] = (ExitZero, seq 0 101)) /\
  ((n <= 100)%nat ->
   genLoop (replicate n Written) 0 [] = (GenRunning n, seq 0 n)) /\
  ((n <= 100)%nat -> forall ev, ev <> Written ->
   genLoop (replicate n Written ++ ev :: rest) 0 []
   = (GenError ev, seq 0 n)) /\
  (In bgSampleIndex (snd (genLoop (replicate n Written) 0 []))
   <-> (41 <= n)%nat).
Proof.
  split; [apply genLoop_full|].
  assert (Hrun : (n <= 100)%nat ->
                 genLoop (replicate n Written) 0 [] = (GenRunning n, seq 0 n)).
  { intros Hn. rewrite <- (app_nil_r (replicate n Written)).
    rewrite genLoop_written by lia. reflexivity. }
  split; [exact Hrun|]. split.
  - intros Hn ev Hev. rewrite genLoop_written by lia.
    destruct ev; [reflexivity.. | done].
  - unfold bgSampleIndex.
    destruct (Nat.le_gt_cases n 100) as [Hle|Hgt].
    + rewrite Hrun by assumption. cbn [snd]. rewrite in_seq. lia.
    + rewrite <- (app_nil_r (replicate n Written)).
      rewrite genLoop_full by lia. cbn [snd]. rewrite in_seq. lia.
Qed.

End GenFacts.


(** ** Instances *)

Section MoreExamples.
Local Open Scope Z_scope.

Lemma frameToImage_odd_width_never_decodes_witness :
  (frameToImage (replicate 64 16) (2 * 1 + 1) 2 = None <-> (0 < 2)%nat) /\
  (2%nat = 0%nat ->
   frameToImage (replicate 64 16) (2 * 1 + 1) 2
   = Some (image.NewRGBA (2 * 1 + 1) 0)).
Proof.
  refine (frameToImage_odd_width_never_decodes (replicate 64 16) 1 2 _).
  cbn. lia.
Defined.

Lemma gstArgs_shape_witness :
  exists fields,
    gstArgs [118; 32; 33; 32; 102] = [45; 101] :: fields /\
    Forall (fun f => f <> [] /\ solid f = true) fields /\
    concat fields
    = List.filter (fun c => negb (isSpace c)) [118; 32; 33; 32; 102] /\
    (forallb isSpace [118; 32; 33; 32; 102] = true -> fields = []).
Proof. exact (gstArgs_shape [118; 32; 33; 32; 102]). Defined.

Lemma gen_sample_files_witness :
  ((101 <= 41)%nat ->
   genLoop (replicate 41 Written ++ []) 0 [] = (ExitZero, seq 0 101)) /\
  ((41 <= 100)%nat ->
   genLoop (replicate 41 Written) 0 [] = (GenRunning 41, seq 0 41)) /\
  ((41 <= 100)%nat -> forall ev, ev <> Written ->
   genLoop (replicate 41 Written ++ ev :: []) 0 []
   = (GenError ev, seq 0 41)) /\
  (In bgSampleIndex (snd (genLoop (replicate 41 Written) 0 []))
   <-> (41 <= 41)%nat).
Proof. exact (gen_sample_files 41 []). Defined.

End MoreExamples.
